(** * Verification of the multisource-fastapi requirement pipeline

    Shallow embedding of the parts of
    - [services/clustering_service.py]   (cluster_and_summarize_stories, _normalize_key,
      create_usecase_diagram_from_cluster, cluster_and_generate_usecases),
    - [services/usecase_diagram_service.py] (_normalize_key, _chunk, _render_puml_chunks,
      _collect_from_stories, create_use_case_diagrams_by_project),
    - [services/user_story_extractor.py] (extract_user_stories, _extract_why and its
      regular expressions, _who_from_tweet_sentence),
    - [services/aspect_identifier.py]   (identify_who_aspect, identify_what_aspect,
      identify_why_aspect and their helpers)
    together with the part of scikit-learn's [AgglomerativeClustering] that
    decides how many clusters a distance threshold produces.

    Python text is modelled as a list of characters; a character is Rocq's
    8-bit [ascii], read as a Unicode code point below 256 (ASCII and
    Latin-1), a range on which [str.isspace] and [str.lower] are written out
    exactly below. *)

From Stdlib Require Import Ascii String QArith Lia Sorted.
From stdpp Require Import base list strings.

Local Open Scope list_scope.

(* ------------------------------------------------------------------ *)
(** ** Python text *)
Module PyText.

Definition pystr := list ascii.

(** Literal conversion, so that source strings can be written as "...". *)
Definition s (x : string) : pystr := list_ascii_of_string x.

(** [str.isspace] on code points 0..255: \t \n \v \f \r, \x1c..\x1f, space,
    \x85 and \xa0.  The regular expression [\s] of a [str] pattern matches
    exactly these characters. *)
Definition is_space (c : ascii) : bool :=
  let n := nat_of_ascii c in
  ((9 <=? n) && (n <=? 13)) || ((28 <=? n) && (n <=? 32))
  || (n =? 133) || (n =? 160).

(** [str.lower] on code points 0..255: A..Z and the Latin-1 capitals
    (0xC0..0xDE except the multiplication sign 0xD7) move by 32. *)
Definition py_lower_char (c : ascii) : ascii :=
  let n := nat_of_ascii c in
  if ((65 <=? n) && (n <=? 90))
     || ((192 <=? n) && (n <=? 222) && negb (n =? 215))
  then ascii_of_nat (n + 32) else c.

Definition lower (x : pystr) : pystr := map py_lower_char x.

(** [str.lstrip(chars)] / [str.strip(chars)] with the stripped set given as
    a predicate. *)
Fixpoint lstrip (p : ascii -> bool) (x : pystr) : pystr :=
  match x with
  | [] => []
  | c :: t => if p c then lstrip p t else x
  end.

Definition rstrip (p : ascii -> bool) (x : pystr) : pystr :=
  rev (lstrip p (rev x)).

Definition strip (p : ascii -> bool) (x : pystr) : pystr :=
  rstrip p (lstrip p x).

(** [re.compile(r"\s+").sub(" ", x)]: every maximal run of whitespace
    becomes one space.  [in_run] records that the previous character was
    whitespace. *)
Fixpoint ws_sub (in_run : bool) (x : pystr) : pystr :=
  match x with
  | [] => []
  | c :: t =>
      if is_space c
      then (if in_run then ws_sub true t else " "%char :: ws_sub true t)
      else c :: ws_sub false t
  end.

End PyText.

(* ------------------------------------------------------------------ *)
(** ** _normalize_key *)
Module Normalize.
Import PyText.

(** The characters stripped at both ends by the second [strip] call of
    clustering_service.py: double quote, single quote, ( ) [ ] { }
    (codes 34, 39, 40, 41, 91, 93, 123, 125).  The copy in
    usecase_diagram_service.py strips in addition the curly quotes
    U+201C, U+201D, U+2018 and U+2019, which lie outside the modelled
    character range, so on modelled text the two copies coincide. *)
Definition is_strip_char (c : ascii) : bool :=
  let n := nat_of_ascii c in
  (n =? 34) || (n =? 39) || (n =? 40) || (n =? 41)
  || (n =? 91) || (n =? 93) || (n =? 123) || (n =? 125).

(** def _normalize_key(s):
        if not s: return <the empty string>
        s2 = s.strip().strip(<is_strip_char>)
        s2 = _ws_re.sub(" ", s2)
        return s2.lower() *)
Definition _normalize_key (x : pystr) : pystr :=
  match x with
  | [] => []
  | _ =>
      let s2 := strip is_strip_char (strip is_space x) in
      let s2 := ws_sub false s2 in
      lower s2
  end.

End Normalize.

(* ------------------------------------------------------------------ *)
(** ** Small Python helpers: dicts as association lists, str(int) *)
Module PyLib.
Import PyText.

Definition str_eqb (x y : pystr) : bool :=
  bool_decide (x = y).

(** [x in xs] for a list of strings. *)
Definition mem (x : pystr) (xs : list pystr) : bool := existsb (str_eqb x) xs.

(** A dict with string keys, in insertion order. *)
Definition dict (V : Type) := list (pystr * V).

Fixpoint dict_get {V} (d : dict V) (k : pystr) : option V :=
  match d with
  | [] => None
  | (k', v) :: t => if str_eqb k k' then Some v else dict_get t k
  end.

(** [d[k] = v]: overwrite in place, or append a new key at the end. *)
Fixpoint dict_set {V} (d : dict V) (k : pystr) (v : V) : dict V :=
  match d with
  | [] => [(k, v)]
  | (k', v') :: t => if str_eqb k k' then (k', v) :: t else (k', v') :: dict_set t k v
  end.

Definition dict_keys {V} (d : dict V) : list pystr := map fst d.

(** Decimal digits of [str(n)] for a non-negative int. *)
Fixpoint uint_chars (u : Decimal.uint) : pystr :=
  match u with
  | Decimal.Nil => []
  | Decimal.D0 u => "0"%char :: uint_chars u
  | Decimal.D1 u => "1"%char :: uint_chars u
  | Decimal.D2 u => "2"%char :: uint_chars u
  | Decimal.D3 u => "3"%char :: uint_chars u
  | Decimal.D4 u => "4"%char :: uint_chars u
  | Decimal.D5 u => "5"%char :: uint_chars u
  | Decimal.D6 u => "6"%char :: uint_chars u
  | Decimal.D7 u => "7"%char :: uint_chars u
  | Decimal.D8 u => "8"%char :: uint_chars u
  | Decimal.D9 u => "9"%char :: uint_chars u
  end.

Definition str_of_nat (n : nat) : pystr := uint_chars (Nat.to_uint n).

(** ["\n".join(lines)] *)
Fixpoint join_nl (lines : list pystr) : pystr :=
  match lines with
  | [] => []
  | [l] => l
  | l :: t => l ++ ["010"%char] ++ join_nl t
  end.

(** Traverse a list with a fallible function (a Python loop whose body
    may raise). *)
Fixpoint omap {A B} (f : A -> option B) (xs : list A) : option (list B) :=
  match xs with
  | [] => Some []
  | x :: t =>
      match f x with
      | None => None
      | Some y => match omap f t with None => None | Some ys => Some (y :: ys) end
      end
  end.

(** [range(0, stop, step)] for [step > 0], with CPython's length
    [(stop - 1) // step + 1] for a non-empty range. *)
Definition py_range0 (stop step : nat) : list nat :=
  map (fun j => j * step) (seq 0 (if 0 <? stop then (stop - 1) / step + 1 else 0)).

End PyLib.

(* ------------------------------------------------------------------ *)
(** ** usecase_diagram_service.py: chunked PlantUML rendering *)
Module UseCase.
Import PyText PyLib.

Record usecase_entry := { label : pystr; sentences : list pystr; whys : list pystr }.

(** def _alias(prefix, idx): return f"{prefix}{idx}" *)
Definition _alias (prefix : pystr) (idx : nat) : pystr := prefix ++ str_of_nat idx.

(** def _chunk(seq, size): return [seq[i : i + size] for i in range(0, len(seq), size)]
    ([range] raises ValueError for a zero step: [None]). *)
Definition _chunk {A} (sq : list A) (size : nat) : option (list (list A)) :=
  if size =? 0 then None
  else Some (map (fun i => firstn size (skipn i sq)) (py_range0 (length sq) size)).

(** The PlantUML lines, kept apart from their text so that statements can
    speak about which actors, use cases and edges a diagram declares. *)
Inductive puml_line :=
  | LStart
  | LDirection
  | LTitle (project_id : pystr) (ci nchunks : nat)
  | LActor (a alias : pystr)
  | LUseCase (lbl alias : pystr)
  | LEdge (a u : pystr)
  | LEnd.

(** The double-quote character. *)
Definition dq : ascii := "034"%char.

Definition line_text (l : puml_line) : pystr :=
  match l with
  | LStart => s "@startuml"
  | LDirection => s "left to right direction"
  | LTitle pid ci n =>
      s "title Project: " ++ pid ++ s " (part " ++ str_of_nat ci ++ s "/"
        ++ str_of_nat n ++ s ")"
  | LActor a alias => s "actor " ++ [dq] ++ a ++ [dq] ++ s " as " ++ alias
  | LUseCase lbl alias => s "(" ++ lbl ++ s ") as " ++ alias
  | LEdge a u => a ++ s " --> " ++ u
  | LEnd => s "@enduml"
  end.

(** for actor_label, uc_key in edges: if uc_key in ckeys: chunk_edges.append(...) *)
Definition chunk_edges_of (edges : list (pystr * pystr)) (ckeys : list pystr)
  : list (pystr * pystr) :=
  List.filter (fun e => mem (snd e) ckeys) edges.

(** for uc_key in ckeys: uc_alias[uc_key] = _alias("U", uc_idx); uc_idx += 1 *)
Fixpoint assign_uc (uc_alias : dict pystr) (uc_idx : nat) (ckeys : list pystr)
  : dict pystr :=
  match ckeys with
  | [] => uc_alias
  | k :: t => assign_uc (dict_set uc_alias k (_alias (s "U") uc_idx)) (S uc_idx) t
  end.

(** for actor_label, _ in chunk_edges:
        if actor_label not in actor_alias:
            actor_alias[actor_label] = _alias("A", actor_idx)
            actors_in_chunk.append(actor_label); actor_idx += 1 *)
Fixpoint assign_actors (actor_alias : dict pystr) (actors_in_chunk : list pystr)
    (actor_idx : nat) (chunk_edges : list (pystr * pystr))
  : dict pystr * list pystr :=
  match chunk_edges with
  | [] => (actor_alias, actors_in_chunk)
  | (a, _) :: t =>
      match dict_get actor_alias a with
      | Some _ => assign_actors actor_alias actors_in_chunk actor_idx t
      | None =>
          assign_actors (dict_set actor_alias a (_alias (s "A") actor_idx))
            (actors_in_chunk ++ [a]) (S actor_idx) t
      end
  end.

(** The body of the [for ci, ckeys in enumerate(chunks, start=1)] loop:
    the lines of one diagram ([None]: a dict lookup raised KeyError). *)
Definition chunk_lines (project_id : pystr) (usecase_map : dict usecase_entry)
    (edges : list (pystr * pystr)) (nchunks ci : nat) (ckeys : list pystr)
  : option (list puml_line) :=
  let chunk_edges := chunk_edges_of edges ckeys in
  let uc_alias := assign_uc [] 1 ckeys in
  let '(actor_alias, actors_in_chunk) := assign_actors [] [] 1 chunk_edges in
  match omap (fun a => option_map (LActor a) (dict_get actor_alias a)) actors_in_chunk,
        omap (fun k => match dict_get uc_alias k, dict_get usecase_map k with
                       | Some al, Some e => Some (LUseCase (label e) al)
                       | _, _ => None
                       end) ckeys,
        omap (fun e => match dict_get actor_alias (fst e), dict_get uc_alias (snd e) with
                       | Some a, Some u => Some (LEdge a u)
                       | _, _ => None
                       end) chunk_edges with
  | Some la, Some lu, Some le =>
      Some ([LStart; LDirection; LTitle project_id ci nchunks] ++ la ++ lu ++ le ++ [LEnd])
  | _, _, _ => None
  end.

Fixpoint enumerate_from {A} (i : nat) (xs : list A) : list (nat * A) :=
  match xs with
  | [] => []
  | x :: t => (i, x) :: enumerate_from (S i) t
  end.

Section Render.
(** [MAX_USECASES_PER_DIAGRAM], the module-level chunk size (6 in the
    source), kept as a parameter. *)
Variable max_usecases : nat.

(** The diagrams of _render_puml_chunks as line lists. [edges] is the set
    of (actor_label, uc_key) pairs in its iteration order. *)
Definition render_chunk_lines (project_id : pystr) (usecase_map : dict usecase_entry)
    (edges : list (pystr * pystr)) : option (list (list puml_line)) :=
  match _chunk (dict_keys usecase_map) max_usecases with
  | None => None
  | Some chunks =>
      omap (fun '(ci, ckeys) => chunk_lines project_id usecase_map edges (length chunks) ci ckeys)
        (enumerate_from 1 chunks)
  end.

(** def _render_puml_chunks(project_id, usecase_map, actor_set, edges) -> List[str] *)
Definition _render_puml_chunks (project_id : pystr) (usecase_map : dict usecase_entry)
    (actor_set : list pystr) (edges : list (pystr * pystr)) : option (list pystr) :=
  option_map (map (fun ls => join_nl (map line_text ls)))
    (render_chunk_lines project_id usecase_map edges).

End Render.

Definition MAX_USECASES_PER_DIAGRAM : nat := 6.

End UseCase.

(* ------------------------------------------------------------------ *)
(** ** scikit-learn's AgglomerativeClustering with a distance threshold

    [AgglomerativeClustering(n_clusters=None, distance_threshold=t,
    metric="cosine", linkage="average").fit(X)] builds the full
    average-linkage tree of [X] (the tree does not depend on [t]), sets
    [n_clusters_ = count_nonzero(distances_ >= t) + 1] and labels the
    samples by the clusters left after undoing the last
    [n_clusters_ - 1] merges.  It rejects fewer than two samples
    (ValueError).  The pairwise distance is a parameter [dist] (cosine
    distance [1 - cos(u, v)]).  Merges are taken closest pair first, the
    first such pair in scan order on ties; a merged cluster goes to the end
    of the list of active clusters and a sample's label is the position of
    its cluster in that list, a renumbering of scikit-learn's labels that
    leaves the partition unchanged. *)
Module Sklearn.

Section Linkage.
Variable dist : list Q -> list Q -> Q.
Variable X : list (list Q).

Definition point (i : nat) : list Q := nth i X [].

(** Average linkage: the mean of the pairwise distances. *)
Definition avg_dist (A B : list nat) : Q :=
  Qdiv (fold_right Qplus 0%Q (flat_map (fun a => map (fun b => dist (point a) (point b)) B) A))
       (inject_Z (Z.of_nat (length A * length B))).

Definition index_pairs (m : nat) : list (nat * nat) :=
  flat_map (fun i => map (fun j => (i, j)) (seq (S i) (m - S i))) (seq 0 m).

(** The closest pair of active clusters, the first one on ties. *)
Definition best_pair (active : list (list nat)) : option (nat * nat * Q) :=
  fold_left (fun acc '(i, j) =>
      let d := avg_dist (nth i active []) (nth j active []) in
      match acc with
      | Some (_, _, d0) => if Qlt_le_dec d d0 then Some (i, j, d) else acc
      | None => Some (i, j, d)
      end)
    (index_pairs (length active)) None.

(** One merge of the two closest clusters. *)
Definition merge_step (active : list (list nat)) : option (list (list nat) * Q) :=
  match best_pair active with
  | None => None
  | Some (i, j, d) =>
      let rest := List.filter (fun p => negb ((fst p =? i) || (fst p =? j)))
                    (combine (seq 0 (length active)) active) in
      Some (map snd rest ++ [nth i active [] ++ nth j active []], d)
  end.

(** [distances_]: the merge heights of the full tree. *)
Fixpoint merge_distances (fuel : nat) (active : list (list nat)) : list Q :=
  match fuel with
  | 0 => []
  | S f => match merge_step active with
           | None => []
           | Some (a', d) => d :: merge_distances f a'
           end
  end.

(** The active clusters after [m] merges. *)
Fixpoint run_merges (m : nat) (active : list (list nat)) : list (list nat) :=
  match m with
  | 0 => active
  | S m' => match merge_step active with
            | None => active
            | Some (a', _) => run_merges m' a'
            end
  end.

Definition leaves : list (list nat) := map (fun i => [i]) (seq 0 (length X)).

Definition distances_ : list Q := merge_distances (length X - 1) leaves.

(** [n_clusters_ = np.count_nonzero(distances_ >= distance_threshold) + 1] *)
Definition n_clusters_ (t : Q) : nat :=
  length (List.filter (fun d => Qle_bool t d) distances_) + 1.

(** The clusters of the cut: undo the last [n_clusters_ - 1] merges. *)
Definition clusters_at (t : Q) : list (list nat) :=
  run_merges (length X - n_clusters_ t) leaves.

Fixpoint cluster_of (i : nat) (k : nat) (cs : list (list nat)) : Z :=
  match cs with
  | [] => 0%Z
  | c :: t => if existsb (Nat.eqb i) c then Z.of_nat k else cluster_of i (S k) t
  end.

(** [fit(X).labels_], or [None] when fit raises. *)
Definition fit_labels (t : Q) : option (list Z) :=
  if length X <? 2 then None
  else Some (map (fun i => cluster_of i 0 (clusters_at t)) (seq 0 (length X))).

End Linkage.
End Sklearn.

(* ------------------------------------------------------------------ *)
(** ** clustering_service.py: cluster_and_summarize_stories

    The story dicts returned by [_get_stories_by_project] are shared
    objects: the same dict sits in [stories], in a cluster's
    [cluster_items] and (as [representative_story]) in the output, and
    [story.pop("full_sentence", None)] mutates it in place.  The model
    therefore keeps the dicts in a store (a list indexed by location, the
    position in [stories]) and the clusters hold locations. *)
Module Cluster.
Import PyText PyLib.

Record story := {
  _id : pystr;
  who : pystr;
  what : pystr;
  why : option pystr;
  full_sentence : option pystr;   (** [None]: the key is absent *)
  similarity_score : Q;
  source : pystr;
  source_id : pystr;
  project_id : pystr
}.

#[global] Instance Q_eq_dec : EqDecision Q.
Proof. solve_decision. Defined.

#[global] Instance story_eq_dec : EqDecision story.
Proof. solve_decision. Defined.

(** [story.pop("full_sentence", None)] *)
Definition pop_full_sentence (st : story) : story :=
  {| _id := _id st; who := who st; what := what st; why := why st;
     full_sentence := None; similarity_score := similarity_score st;
     source := source st; source_id := source_id st; project_id := project_id st |}.

Record out_cluster := {
  cluster_id : Z;
  representative_story : nat;
  stories : list nat;
  size : nat;
  sources : list pystr
}.

Definition store := list story.

(** [stories.index(item)]: the first position whose dict compares equal
    ([==] on dicts) to the one at [loc]; [None] is the ValueError. *)
Fixpoint find_first (f : nat -> bool) (ps : list nat) : option nat :=
  match ps with
  | [] => None
  | p :: t => if f p then Some p else find_first f t
  end.

Definition py_index (st : store) (loc : nat) : option nat :=
  match st !! loc with
  | None => None
  | Some v => find_first (fun p => bool_decide (st !! p = Some v)) (seq 0 (length st))
  end.

(** Componentwise sum and [np.mean(cluster_embeddings, axis=0)]. *)
Definition vec_add (u v : list Q) : list Q := map (fun '(a, b) => Qplus a b) (combine u v).

Definition np_mean (vs : list (list Q)) : list Q :=
  match vs with
  | [] => []
  | v :: t => map (fun a => Qdiv a (inject_Z (Z.of_nat (length vs)))) (fold_left vec_add t v)
  end.

(** [np.argmax]: the first index of a maximal element. *)
Fixpoint argmax_from (i best : nat) (bv : Q) (xs : list Q) : nat :=
  match xs with
  | [] => best
  | x :: t => if Qlt_le_dec bv x then argmax_from (S i) i x t else argmax_from (S i) best bv t
  end.

Definition argmax (xs : list Q) : nat :=
  match xs with
  | [] => 0
  | x :: t => argmax_from 1 0 x t
  end.

(** Python's [<] on str: lexicographic on code points. *)
Fixpoint str_ltb (x y : pystr) : bool :=
  match x, y with
  | _, [] => false
  | [], _ :: _ => true
  | a :: x', b :: y' =>
      if nat_of_ascii a <? nat_of_ascii b then true
      else if nat_of_ascii b <? nat_of_ascii a then false
      else str_ltb x' y'
  end.

Fixpoint insert_str (x : pystr) (xs : list pystr) : list pystr :=
  match xs with
  | [] => [x]
  | y :: t => if str_ltb x y then x :: xs else y :: insert_str x t
  end.

(** [sorted(list({...}))] *)
Definition sorted_set (xs : list pystr) : list pystr :=
  fold_right insert_str [] (remove_dups xs).

(** [clustered_stories[label].append(story)] on a defaultdict(list),
    keys in insertion order. *)
Fixpoint group_add (groups : list (Z * list nat)) (label : Z) (i : nat)
  : list (Z * list nat) :=
  match groups with
  | [] => [(label, [i])]
  | (l, items) :: t =>
      if Z.eqb l label then (l, items ++ [i]) :: t else (l, items) :: group_add t label i
  end.

(** [for i, story in enumerate(stories): label = clustering.labels_[i] ...]
    ([None]: IndexError on [labels_]). *)
Fixpoint group_by_label (labels : list Z) (groups : list (Z * list nat)) (locs : list nat)
  : option (list (Z * list nat)) :=
  match locs with
  | [] => Some groups
  | i :: t =>
      match labels !! i with
      | None => None
      | Some l => group_by_label labels (group_add groups l i) t
      end
  end.

(** [output_clusters.sort(key=lambda x: x["size"], reverse=True)]: a
    stable sort, equal sizes keep their order. *)
Fixpoint insert_by_size (c : out_cluster) (cs : list out_cluster) : list out_cluster :=
  match cs with
  | [] => [c]
  | d :: t => if size d <? size c then c :: cs else d :: insert_by_size c t
  end.

Definition sort_by_size_desc (cs : list out_cluster) : list out_cluster :=
  fold_left (fun acc c => insert_by_size c acc) cs [].

Section Service.
(** [embedding_model.encode] on one sentence. *)
Variable encode : pystr -> list Q.
(** [sklearn.metrics.pairwise.cosine_similarity] on one pair of vectors. *)
Variable cosine_similarity : list Q -> list Q -> Q.
(** [AgglomerativeClustering(n_clusters=None, distance_threshold=t,
    metric="cosine", linkage="average").fit(X).labels_]; [None]: fit raises. *)
Variable fit : list (list Q) -> Q -> option (list Z).

(** _vectorize_stories *)
Definition _vectorize_stories (st : store) : list (list Q) :=
  map (fun x => encode (what x)) st.

(** The body of the [for label, cluster_items in clustered_stories.items()]
    loop for one group: the output cluster and the store after the pops. *)
Definition process_cluster (embeddings : list (list Q)) (st : store)
    (label : Z) (cluster_items : list nat) : option (out_cluster * store) :=
  match omap (py_index st) cluster_items with
  | None => None
  | Some item_indices =>
      match omap (fun p => embeddings !! p) item_indices with
      | None => None
      | Some cluster_embeddings =>
          let centroid := np_mean cluster_embeddings in
          let similarities := map (fun e => cosine_similarity e centroid) cluster_embeddings in
          let representative_idx := argmax similarities in
          match cluster_items !! representative_idx,
                omap (fun l => option_map source (st !! l)) cluster_items with
          | Some representative, Some srcs =>
              let st' := fold_left (fun s l => alter pop_full_sentence l s) cluster_items st in
              Some ({| cluster_id := label; representative_story := representative;
                       stories := cluster_items; size := length cluster_items;
                       sources := sorted_set srcs |}, st')
          | _, _ => None
          end
      end
  end.

Fixpoint process_clusters (embeddings : list (list Q)) (st : store)
    (groups : list (Z * list nat)) : option (list out_cluster * store) :=
  match groups with
  | [] => Some ([], st)
  | (label, items) :: t =>
      match items with
      | [] => process_clusters embeddings st t           (* if not cluster_items: continue *)
      | _ =>
          match process_cluster embeddings st label items with
          | None => None
          | Some (c, st') =>
              match process_clusters embeddings st' t with
              | None => None
              | Some (cs, st'') => Some (c :: cs, st'')
              end
          end
      end
  end.

(** cluster_and_summarize_stories, from the fetched stories on: the
    returned clusters (as locations) and the final store the locations
    point into; [None] when a library call raises. *)
Definition cluster_and_summarize_stories (st : store) (distance_threshold : Q)
  : option (list out_cluster * store) :=
  match st with
  | [] => Some ([], st)
  | _ =>
      let embeddings := _vectorize_stories st in
      match fit embeddings distance_threshold with
      | None => None
      | Some labels =>
          match group_by_label labels [] (seq 0 (length st)) with
          | None => None
          | Some groups =>
              match process_clusters embeddings st groups with
              | None => None
              | Some (output_clusters, st') =>
                  Some (firstn 10 (sort_by_size_desc output_clusters), st')
              end
          end
      end
  end.

End Service.
End Cluster.

(* ------------------------------------------------------------------ *)
(** ** Concrete inputs for the clustering service

    Stand-ins for the sentence encoder: each sentence is mapped to a unit
    vector, so that the dot product of two embeddings is their cosine
    similarity, and the cosine distance used by the clustering is
    [1 - dot]. *)
Module ClusterExample.
Import PyText PyLib Cluster.

Definition dot (u v : list Q) : Q :=
  fold_right Qplus 0%Q (map (fun '(a, b) => Qmult a b) (combine u v)).

(** [AgglomerativeClustering(metric="cosine", linkage="average")] on unit vectors. *)
Definition fit_cosine (X : list (list Q)) (t : Q) : option (list Z) :=
  Sklearn.fit_labels (fun u v => Qminus 1 (dot u v)) X t.

Definition mk_story (id what_ source_ : pystr) : story :=
  {| _id := id; who := s "user"; what := what_; why := None;
     full_sentence := Some (s "As a user, I want to " ++ what_);
     similarity_score := 1%Q; source := source_; source_id := s "src-1";
     project_id := s "p1" |}.

(** Eleven stories with pairwise orthogonal embeddings: the [i]-th
    sentence is [i] letters long and encoded as the [i]-th basis vector. *)
Definition basis (n i : nat) : list Q :=
  map (fun j => if j =? i then 1%Q else 0%Q) (seq 0 n).

Definition encode11 (x : pystr) : list Q := basis 11 (length x).

Definition stories11 : store :=
  map (fun i => mk_story (s "id" ++ str_of_nat i) (repeat "a"%char i) (s "review")) (seq 0 11).

(** Three stories: two close sentences (cosine distance 2/5) and one far
    from both. *)
Definition table3 : dict (list Q) :=
  [(s "export report", [1%Q; 0%Q]);
   (s "export the report", [(3#5)%Q; (4#5)%Q]);
   (s "delete account", [0%Q; (-1)%Q])].

Definition encode3 (x : pystr) : list Q :=
  match dict_get table3 x with Some v => v | None => [0%Q; 0%Q] end.

Definition stories3 : store :=
  [mk_story (s "id0") (s "export report") (s "review");
   mk_story (s "id1") (s "export the report") (s "news");
   mk_story (s "id2") (s "delete account") (s "tweet")].

End ClusterExample.

(* ------------------------------------------------------------------ *)
(** ** aspect_identifier.py: identify_who_aspect

    A spaCy token is reduced to the four attributes the function reads.
    [wn.synsets(word)] followed by [.lexname()] is a parameter
    [lexnames]; the iteration order of a Python [set] of strings, which
    depends on the string hashes (randomised per process), is a parameter
    [set_iter] mapping the set's elements in insertion order to the order
    in which [list(...)] lists them. *)
Module Aspect.
Import PyText PyLib.

Record token := {
  text : pystr;
  dep_ : pystr;
  ent_type_ : pystr;
  pos_ : pystr
}.

Definition target_dependencies : list pystr := [s "nsubj"; s "nsubjpass"; s "dobj"; s "pobj"].
Definition target_lexnames : list pystr := [s "noun.person"; s "noun.group"; s "noun.artifact"].

(** [aspect_of_who.add(x)] on a set, its elements kept in insertion order. *)
Definition set_add (xs : list pystr) (x : pystr) : list pystr :=
  if mem x xs then xs else xs ++ [x].

Section Who.
Variable lexnames : pystr -> list pystr.
Variable set_iter : list pystr -> list pystr.

(** The three tests of step 2 on one token. *)
Definition qualifies (token : token) : bool :=
  let is_person_entity := mem (ent_type_ token) [s "PERSON"; s "ORG"; s "NORP"] in
  let is_a_pronoun := str_eqb (pos_ token) (s "PRON") in
  let is_who_category :=
    existsb (fun lexname => negb (bool_decide (lexname = [])) && mem lexname target_lexnames)
            (lexnames (lower (text token))) in
  is_person_entity || is_a_pronoun || is_who_category.

Definition identify_who_aspect (sent_span : list token) : pystr :=
  let subject_object_tokens :=
    List.filter (fun token => mem (dep_ token) target_dependencies) sent_span in
  let aspect_of_who :=
    fold_left (fun acc token => if qualifies token then set_add acc (text token) else acc)
              subject_object_tokens [] in
  match aspect_of_who with
  | [] => s "user"
  | _ => hd [] (set_iter aspect_of_who)
  end.

(** The function as the requirement describes it: the first qualifying
    token in scan order, ["user"] when there is none. *)
Definition who_first_in_scan_order (sent_span : list token) : pystr :=
  match List.find (fun token => mem (dep_ token) target_dependencies && qualifies token) sent_span with
  | Some token => text token
  | None => s "user"
  end.

End Who.

(** spaCy's parse of "She asked him.". *)
Definition she_asked_him : list token :=
  [{| text := s "She"; dep_ := s "nsubj"; ent_type_ := []; pos_ := s "PRON" |};
   {| text := s "asked"; dep_ := s "ROOT"; ent_type_ := []; pos_ := s "VERB" |};
   {| text := s "him"; dep_ := s "dobj"; ent_type_ := []; pos_ := s "PRON" |};
   {| text := s "."; dep_ := s "punct"; ent_type_ := []; pos_ := s "PUNCT" |}].

End Aspect.

(* ------------------------------------------------------------------ *)
(** ** user_story_extractor.py: extract_user_stories

    The spaCy-based per-source extractors, spaCy's [Doc.similarity] and
    [uuid.uuid4] are parameters; the rest of the public function is
    written out: the input check, the dispatch on [source], the
    software-context filter, the de-duplication and the construction of the
    [UserStoryModel]s (the same records are passed to [insert_many]). *)
Module Extractor.
Import PyText PyLib.

(** The Python values [content] can be; a list is given by its length,
    all its truthiness depends on. *)
Inductive pyval :=
| PyStr (x : pystr)
| PyNone
| PyBool (b : bool)
| PyInt (z : Z)
| PyList (len : nat).

(** Python truthiness, as used by [not content]. *)
Definition truthy (v : pyval) : bool :=
  match v with
  | PyStr x => negb (bool_decide (x = []))
  | PyNone => false
  | PyBool b => b
  | PyInt z => negb (Z.eqb z 0)
  | PyList len => negb (Nat.eqb len 0)
  end.

(** A candidate dict [{"who", "what", "why", "full_sentence"}] built by a
    per-source extractor. *)
Record raw_cand := {
  who : pystr;
  what : pystr;
  why : option pystr;
  full_sentence : pystr
}.

(** [{**c, "similarity": float(max_sim)}] *)
Record cand := {
  raw : raw_cand;
  similarity : Q
}.

Module UserStoryModel.
Record t := {
  _id : pystr;
  who : pystr;
  what : pystr;
  why : option pystr;
  full_sentence : option pystr;
  similarity_score : Q;
  source : pystr;
  source_id : pystr;
  project_id : pystr
}.
End UserStoryModel.

Inductive exn := ValueError (msg : pystr).

Inductive outcome :=
| Returned (models : list UserStoryModel.t)
| Raised (e : exn).

(** [(c["who"].lower(), c["what"].lower(), (c.get("why") or "").lower(),
    c["full_sentence"].lower())] *)
Definition dedupe_key (c : raw_cand) : pystr * pystr * pystr * pystr :=
  (lower (who c), lower (what c), lower (default [] (why c)), lower (full_sentence c)).

(** The de-duplication loop, [seen] as the list of keys met so far. *)
Fixpoint dedupe_loop (seen : list (pystr * pystr * pystr * pystr)) (cs : list cand) : list cand :=
  match cs with
  | [] => []
  | c :: t =>
      let key := dedupe_key (raw c) in
      if existsb (fun k => bool_decide (k = key)) seen then dedupe_loop seen t
      else c :: dedupe_loop (key :: seen) t
  end.

(** [enumerate]-style map, the index counting from [k]. *)
Fixpoint mapi_from {A B} (f : nat -> A -> B) (k : nat) (l : list A) : list B :=
  match l with
  | [] => []
  | x :: t => f k x :: mapi_from f (S k) t
  end.

Section Extract.
Variable _extract_from_review : pystr -> list raw_cand.
Variable _extract_from_news : pystr -> list raw_cand.
Variable _extract_from_tweet : pystr -> list raw_cand.
(** [nlp(what).similarity(nlp(keyword))] *)
Variable similarity_to : pystr -> pystr -> Q.
Variable software_functionality_dict : list pystr.
(** [str(uuid.uuid4())] at the [k]-th model built by the call. *)
Variable uuid4 : nat -> pystr.

Definition _filter_by_software_context (cands : list raw_cand) (threshold : Q) : list cand :=
  flat_map (fun c =>
    let max_sim :=
      fold_left (fun max_sim kd =>
                   let sim := similarity_to (what c) kd in
                   if Qlt_le_dec max_sim sim then sim else max_sim)
                software_functionality_dict 0%Q in
    if Qle_bool threshold max_sim then [{| raw := c; similarity := max_sim |}] else [])
  cands.

(** Step 1, the dispatch on [source]; [None] is the [raise ValueError]. *)
Definition candidates_for (source content : pystr) : option (list raw_cand) :=
  if str_eqb source (s "review") then Some (_extract_from_review content)
  else if str_eqb source (s "news") then Some (_extract_from_news content)
  else if str_eqb source (s "tweet") then Some (_extract_from_tweet content)
  else None.

Definition to_model (source source_id project_id : pystr) (k : nat) (c : cand) : UserStoryModel.t :=
  {| UserStoryModel._id := uuid4 k;
     UserStoryModel.who := who (raw c);
     UserStoryModel.what := what (raw c);
     UserStoryModel.why := why (raw c);
     UserStoryModel.full_sentence := Some (full_sentence (raw c));
     UserStoryModel.similarity_score := similarity c;
     UserStoryModel.source := source;
     UserStoryModel.source_id := source_id;
     UserStoryModel.project_id := project_id |}.

Definition extract_user_stories (source source_id : pystr) (content : pyval)
    (project_id : pystr) (min_similarity : Q) (dedupe : bool) : outcome :=
  if negb (truthy content) then Returned []
  else match content with
  | PyStr text =>
      match candidates_for source text with
      | None => Raised (ValueError (s "source must be one of: 'review' | 'news' | 'tweet'"))
      | Some candidates =>
          let filtered := _filter_by_software_context candidates min_similarity in
          let filtered := if dedupe then dedupe_loop [] filtered else filtered in
          match filtered with
          | [] => Returned []
          | _ => Returned (mapi_from (to_model source source_id project_id) 0 filtered)
          end
      end
  | _ => Returned []
  end.

End Extract.
End Extractor.

(* ------------------------------------------------------------------ *)
(** ** usecase_diagram_service.py: collecting use cases from the stories *)
Module Collect.
Import PyText PyLib Normalize UseCase.

(** A stored user story, as far as [_collect_from_stories] reads it:
    [None] when the key is absent or holds null. *)
Record udoc := { d_who : option pystr; d_what : option pystr; d_why : option pystr }.

(** [(x or dflt)] on an optional str: null and the empty string are falsy. *)
Definition or_default (v : option pystr) (dflt : pystr) : pystr :=
  match v with
  | Some ((_ :: _) as x) => x
  | _ => dflt
  end.

(** [set.add], the elements kept in insertion order. *)
Definition set_add {A} `{EqDecision A} (xs : list A) (x : A) : list A :=
  if bool_decide (x ∈ xs) then xs else xs ++ [x].

(** who = (s.get("who") or "user").strip() *)
Definition story_who (d : udoc) : pystr := strip is_space (or_default (d_who d) (s "user")).

(** what = (s.get("what") or <empty>).strip() *)
Definition story_what (d : udoc) : pystr := strip is_space (or_default (d_what d) []).

(** why = s.get("why") or None *)
Definition story_why (d : udoc) : option pystr :=
  match d_why d with
  | Some ((_ :: _) as w) => Some w
  | _ => None
  end.

(** actor_label = _ws_re.sub(" ", who).strip() or "user" *)
Definition actor_label_of (who : pystr) : pystr :=
  match strip is_space (ws_sub false who) with
  | [] => s "user"
  | a => a
  end.

Definition collect_state : Type :=
  dict usecase_entry * list pystr * list (pystr * pystr).

(** The body of the [for s in cursor] loop. *)
Definition collect_step (acc : collect_state) (d : udoc) : collect_state :=
  let '(usecase_map, actor_set, edges) := acc in
  let who := story_who d in
  let what := story_what d in
  let why := story_why d in
  match what with
  | [] => acc                                            (* if not what: continue *)
  | _ =>
      let actor_label := actor_label_of who in
      let actor_set := set_add actor_set actor_label in
      let key := _normalize_key what in
      let usecase_map :=
        match dict_get usecase_map key with
        | Some _ => usecase_map
        | None => dict_set usecase_map key {| label := what; sentences := []; whys := [] |}
        end in
      let usecase_map :=
        match why, dict_get usecase_map key with
        | Some w, Some e =>
            if mem w (whys e) then usecase_map
            else dict_set usecase_map key
                   {| label := label e; sentences := sentences e; whys := whys e ++ [w] |}
        | _, _ => usecase_map
        end in
      let edges := set_add edges (actor_label, key) in
      (usecase_map, actor_set, edges)
  end.

(** _collect_from_stories, over [user_stories_collection.find({"project_id": project_id})]
    in cursor order. *)
Definition _collect_from_stories (cursor : list udoc) : collect_state :=
  fold_left collect_step cursor ([], [], []).

Record diagrams_result := {
  diagrams_puml : list pystr;
  diagrams_url : list pystr;
  stat_actors : nat;
  stat_usecases : nat;
  stat_edges : nat
}.

Section Create.
(** [PlantUML(url=PLANTUML_SERVER).get_url]. *)
Variable get_url : pystr -> pystr.
(** The iteration order of a set of edges. *)
Variable edge_iter : list (pystr * pystr) -> list (pystr * pystr).

(** create_use_case_diagrams_by_project: the returned dict and the
    snapshot written by [use_cases_collection.insert_one] ([None]: nothing
    written); the outer [None] is an exception raised by the rendering. *)
Definition create_use_case_diagrams_by_project (project_id : pystr) (cursor : list udoc)
  : option (diagrams_result * option diagrams_result) :=
  let '(usecase_map, actor_set, edges) := _collect_from_stories cursor in
  match usecase_map with
  | [] => Some ({| diagrams_puml := []; diagrams_url := [];
                   stat_actors := 0; stat_usecases := 0; stat_edges := 0 |}, None)
  | _ =>
      match _render_puml_chunks MAX_USECASES_PER_DIAGRAM project_id usecase_map actor_set
              (edge_iter edges) with
      | None => None
      | Some puml_list =>
          let urls := map get_url puml_list in
          let r := {| diagrams_puml := puml_list; diagrams_url := urls;
                      stat_actors := length actor_set; stat_usecases := length usecase_map;
                      stat_edges := length edges |} in
          Some (r, Some r)
      end
  end.

End Create.
End Collect.

(** ** clustering_service.py: use-case diagrams from the clusters *)
Module ClusterDiagram.
Import PyText PyLib Normalize UseCase Cluster Collect.

Definition backslash : ascii := "092"%char.
Definition newline : ascii := "010"%char.

(** [x.replace('"', '\\"')] *)
Fixpoint escape_dq (x : pystr) : pystr :=
  match x with
  | [] => []
  | c :: t => if ascii_dec c dq then backslash :: dq :: escape_dq t else c :: escape_dq t
  end.

(** [x.replace("\n", " ")] *)
Definition replace_nl (x : pystr) : pystr :=
  map (fun c => if ascii_dec c newline then " "%char else c) x.

(** safe_label = label.replace('"', '\\"').replace("\n", " ") *)
Definition safe_label (x : pystr) : pystr := replace_nl (escape_dq x).

(** [f"{z}"] for an int. *)
Definition str_of_Z (z : Z) : pystr :=
  if (z <? 0)%Z then "-"%char :: str_of_nat (Z.to_nat (- z)) else str_of_nat (Z.to_nat z).

(** The lines of the diagrams, kept apart from their text. *)
Inductive cline :=
  | CStart
  | CDirection
  | CTitle (title : pystr)
  | CBlank
  | CActor (safe alias : pystr)
  | CUseCase (safe alias : pystr)
  | CNote (alias : pystr) (cluster_id : Z) (cluster_size : nat)
  | CEdge (a u : pystr)
  | CEnd.

Definition cline_text (l : cline) : pystr :=
  match l with
  | CStart => s "@startuml"
  | CDirection => s "left to right direction"
  | CTitle t => s "title " ++ t
  | CBlank => []
  | CActor sl al => s "actor " ++ [dq] ++ sl ++ [dq] ++ s " as " ++ al
  | CUseCase sl al => s "usecase " ++ [dq] ++ sl ++ [dq] ++ s " as " ++ al
  | CNote al cid n =>
      s "note right of " ++ al ++ s " : Cluster #" ++ str_of_Z cid ++ s " ("
        ++ str_of_nat n ++ s " stories)"
  | CEdge a u => a ++ s " --> " ++ u
  | CEnd => s "@enduml"
  end.

(** Python's [<] on pairs of str: lexicographic. *)
Definition pair_ltb (p q : pystr * pystr) : bool :=
  str_ltb (fst p) (fst q) || (str_eqb (fst p) (fst q) && str_ltb (snd p) (snd q)).

Fixpoint insert_pair (p : pystr * pystr) (ps : list (pystr * pystr)) : list (pystr * pystr) :=
  match ps with
  | [] => [p]
  | q :: t => if pair_ltb p q then p :: ps else q :: insert_pair p t
  end.

(** [sorted(edges)] on a set of pairs. *)
Definition sort_pairs (ps : list (pystr * pystr)) : list (pystr * pystr) :=
  fold_right insert_pair [] ps.

(** for k in keys: d[k] = _alias(prefix, idx); idx += 1 *)
Fixpoint assign_aliases (prefix : pystr) (d : dict pystr) (idx : nat) (keys : list pystr)
  : dict pystr :=
  match keys with
  | [] => d
  | k :: t => assign_aliases prefix (dict_set d k (_alias prefix idx)) (S idx) t
  end.

(** The [# Actors] loop: one line per actor, in sorted order. *)
Definition actor_lines (actors_list : list pystr) : list cline :=
  map (fun '(i, a) => CActor (safe_label a) (_alias (s "A") i)) (enumerate_from 1 actors_list).

(** The [# Edges] loop ([None]: a KeyError on an alias dict). *)
Definition edge_lines (actor_alias uc_alias : dict pystr) (edges : list (pystr * pystr))
  : option (list cline) :=
  omap (fun '(a, k) =>
          match dict_get actor_alias a, dict_get uc_alias k with
          | Some x, Some y => Some (CEdge x y)
          | _, _ => None
          end) (sort_pairs edges).

(** The diagram of create_usecase_diagram_from_cluster. *)
Definition cluster_lines (cluster_id : Z) (usecase_map : dict usecase_entry)
    (actor_set : list pystr) (edges : list (pystr * pystr)) : option (list cline) :=
  let actors_list := sorted_set actor_set in
  let actor_alias := assign_aliases (s "A") [] 1 actors_list in
  let uc_alias := assign_aliases (s "U") [] 1 (dict_keys usecase_map) in
  let uc_lines := map (fun '(i, (_, e)) => CUseCase (safe_label (label e)) (_alias (s "U") i))
                      (enumerate_from 1 usecase_map) in
  match edge_lines actor_alias uc_alias edges with
  | None => None
  | Some el =>
      Some ([CStart; CDirection;
             CTitle (s "Cluster " ++ str_of_Z cluster_id ++ s " - Use Case Diagram"); CBlank]
            ++ actor_lines actors_list ++ [CBlank] ++ uc_lines ++ [CBlank] ++ el ++ [CEnd])
  end.

(** A story of the clustering result as the loops read it ([who] and
    [what] are always stored). *)
Definition udoc_of (x : story) : udoc :=
  {| d_who := Some (who x); d_what := Some (what x); d_why := why x |}.

(** The [# Add representative story first] block, on empty collections. *)
Definition rep_state (rep : udoc) : collect_state :=
  let rep_who := story_who rep in
  let rep_what := story_what rep in
  let rep_why := story_why rep in
  match rep_what with
  | [] => ([], [], [])
  | _ =>
      let actor_label := actor_label_of rep_who in
      let key := _normalize_key rep_what in
      (dict_set [] key {| label := s "[REPRESENTATIVE] " ++ rep_what; sentences := [];
                          whys := match rep_why with Some w => [w] | None => [] end |},
       set_add [] actor_label, set_add [] (actor_label, key))
  end.

(** for c in result["clusters"]: if c["cluster_id"] == cluster_id: ... break *)
Fixpoint find_cluster (cid : Z) (cs : list out_cluster) : option out_cluster :=
  match cs with
  | [] => None
  | c :: t => if Z.eqb (cluster_id c) cid then Some c else find_cluster cid t
  end.

Definition empty_result : diagrams_result :=
  {| diagrams_puml := []; diagrams_url := []; stat_actors := 0; stat_usecases := 0;
     stat_edges := 0 |}.

(** An entry of the map of cluster_and_generate_usecases. *)
Record gentry := {
  g_label : pystr;
  g_whys : list pystr;
  g_cluster_id : Z;
  g_cluster_size : nat
}.

Definition gen_state : Type := dict gentry * list pystr * list (pystr * pystr).

(** The body of the [for cluster in clustering_result["clusters"]] loop,
    with the cluster's representative story. *)
Definition gen_step (acc : gen_state) (cr : out_cluster * udoc) : gen_state :=
  let '(usecase_map, actor_set, edges) := acc in
  let '(cluster, rep_story) := cr in
  let rep_who := story_who rep_story in
  let rep_what := story_what rep_story in
  let rep_why := story_why rep_story in
  match rep_what with
  | [] => acc
  | _ =>
      let actor_label := actor_label_of rep_who in
      let actor_set := set_add actor_set actor_label in
      let key := _normalize_key rep_what in
      let usecase_map :=
        match dict_get usecase_map key with
        | Some _ => usecase_map
        | None => dict_set usecase_map key
                    {| g_label := rep_what; g_whys := [];
                       g_cluster_id := cluster_id cluster; g_cluster_size := size cluster |}
        end in
      let usecase_map :=
        match rep_why, dict_get usecase_map key with
        | Some w, Some e =>
            if mem w (g_whys e) then usecase_map
            else dict_set usecase_map key
                   {| g_label := g_label e; g_whys := g_whys e ++ [w];
                      g_cluster_id := g_cluster_id e; g_cluster_size := g_cluster_size e |}
        | _, _ => usecase_map
        end in
      let edges := set_add edges (actor_label, key) in
      (usecase_map, actor_set, edges)
  end.

(** The diagram of cluster_and_generate_usecases. *)
Definition gen_lines (usecase_map : dict gentry) (actor_set : list pystr)
    (edges : list (pystr * pystr)) : option (list cline) :=
  let actors_list := sorted_set actor_set in
  let actor_alias := assign_aliases (s "A") [] 1 actors_list in
  let uc_alias := assign_aliases (s "U") [] 1 (dict_keys usecase_map) in
  let uc_lines :=
    concat (map (fun '(i, (_, e)) =>
                   [CUseCase (safe_label (g_label e)) (_alias (s "U") i);
                    CNote (_alias (s "U") i) (g_cluster_id e) (g_cluster_size e)])
                (enumerate_from 1 usecase_map)) in
  match edge_lines actor_alias uc_alias edges with
  | None => None
  | Some el =>
      Some ([CStart; CDirection;
             CTitle (s "Use Case Diagram - Top 10 Representative User Stories"); CBlank]
            ++ actor_lines actors_list ++ [CBlank] ++ uc_lines ++ [CBlank] ++ el ++ [CEnd])
  end.

(** The result dict; [clusters_represented] is absent from the stats of
    the empty result ([None]). *)
Record gen_result := {
  gen_clusters : list out_cluster;
  gen_diagram : diagrams_result;
  clusters_represented : option nat
}.

Section Service.
Variable encode : pystr -> list Q.
Variable cosine_similarity : list Q -> list Q -> Q.
Variable fit : list (list Q) -> Q -> option (list Z).
(** [PlantUML(url=PLANTUML_SERVER).get_url]. *)
Variable get_url : pystr -> pystr.

(** create_usecase_diagram_from_cluster, on the stories of the project;
    [None]: an exception. *)
Definition create_usecase_diagram_from_cluster (st : store) (distance_threshold : Q)
    (cid : Z) : option diagrams_result :=
  match cluster_and_summarize_stories encode cosine_similarity fit st distance_threshold with
  | None => None
  | Some (clusters, st') =>
      match clusters with
      | [] => Some empty_result
      | _ =>
          match find_cluster cid clusters with
          | None => Some empty_result
          | Some cluster =>
              match st' !! representative_story cluster,
                    omap (fun l => st' !! l) (stories cluster) with
              | Some rep, Some items =>
                  let '(usecase_map, actor_set, edges) :=
                    fold_left collect_step (map udoc_of items) (rep_state (udoc_of rep)) in
                  match cluster_lines cid usecase_map actor_set edges with
                  | None => None
                  | Some ls =>
                      let puml := join_nl (map cline_text ls) in
                      Some {| diagrams_puml := [puml]; diagrams_url := [get_url puml];
                              stat_actors := length actor_set;
                              stat_usecases := length usecase_map;
                              stat_edges := length edges |}
                  end
              | _, _ => None
              end
          end
      end
  end.

(** cluster_and_generate_usecases, on the stories of the project. *)
Definition cluster_and_generate_usecases (st : store) (distance_threshold : Q)
  : option gen_result :=
  match cluster_and_summarize_stories encode cosine_similarity fit st distance_threshold with
  | None => None
  | Some (clusters, st') =>
      match clusters with
      | [] => Some {| gen_clusters := []; gen_diagram := empty_result;
                      clusters_represented := None |}
      | _ =>
          match omap (fun c => option_map (fun r => (c, udoc_of r))
                                          (st' !! representative_story c)) clusters with
          | None => None
          | Some reps =>
              let '(usecase_map, actor_set, edges) := fold_left gen_step reps ([], [], []) in
              match gen_lines usecase_map actor_set edges with
              | None => None
              | Some ls =>
                  let puml := join_nl (map cline_text ls) in
                  Some {| gen_clusters := clusters;
                          gen_diagram := {| diagrams_puml := [puml]; diagrams_url := [get_url puml];
                                            stat_actors := length actor_set;
                                            stat_usecases := length usecase_map;
                                            stat_edges := length edges |};
                          clusters_represented := Some (length clusters) |}
              end
          end
      end
  end.

End Service.
End ClusterDiagram.

(* ------------------------------------------------------------------ *)
(** ** aspect_identifier.py: the WHAT and WHY aspects

    spaCy's parse is the parameter [nlp]: the tokens of the text in
    document order, each with its attributes and those of its
    [token.children] and of its [token.subtree] (in document order, the
    token itself included).  [Doc.similarity] between the parses of two
    texts is the parameter [similarity], and the keyword list of
    dictionaries/default_dict.py the parameter
    [software_functionality_dict]. *)
Module AspectMore.
Import PyText PyLib.

(** The attributes of a spaCy token read by the code; [t_i] is [token.i]. *)
Record node := { t_i : nat; text : pystr; pos_ : pystr; dep_ : pystr }.

Record tok := { node_of : node; children : list node; subtree : list node }.

(** [" ".join(xs)] *)
Fixpoint join_sp (xs : list pystr) : pystr :=
  match xs with
  | [] => []
  | [x] => x
  | x :: t => x ++ " "%char :: join_sp t
  end.

(** [str.split()] without separator: the maximal runs of non-whitespace
    characters; [cur] is the current word, reversed. *)
Fixpoint split_aux (cur : pystr) (x : pystr) : list pystr :=
  match x with
  | [] => match cur with [] => [] | _ => [rev cur] end
  | c :: t =>
      if is_space c
      then match cur with [] => split_aux [] t | _ => rev cur :: split_aux [] t end
      else split_aux (c :: cur) t
  end.

Definition py_split (x : pystr) : list pystr := split_aux [] x.

(** The characters of [text.strip(".,;:!?")]: codes 46, 44, 59, 58, 33, 63. *)
Definition is_clean_punct (c : ascii) : bool :=
  let n := nat_of_ascii c in
  (n =? 46) || (n =? 44) || (n =? 59) || (n =? 58) || (n =? 33) || (n =? 63).

(** def _clean_up_text(text):
        text = re.sub(r"\s+", " ", text).strip()
        text = text.strip(".,;:!?")
        return text *)
Definition _clean_up_text (text : pystr) : pystr :=
  strip is_clean_punct (strip is_space (ws_sub false text)).

(** The loop [seen = set(); for x in xs: if x_lower not in seen: ...] of
    both aspect functions, [key] giving the text of an item. *)
Fixpoint dedupe_lower {A} (key : A -> pystr) (seen : list pystr) (xs : list A) : list A :=
  match xs with
  | [] => []
  | x :: t =>
      if mem (lower (key x)) seen then dedupe_lower key seen t
      else x :: dedupe_lower key (lower (key x) :: seen) t
  end.

(** [candidates.sort(key=len)]: a stable insertion sort. *)
Fixpoint insert_by_len (x : pystr) (xs : list pystr) : list pystr :=
  match xs with
  | [] => [x]
  | y :: t => if length x <? length y then x :: xs else y :: insert_by_len x t
  end.

Definition sort_by_len (xs : list pystr) : list pystr :=
  fold_left (fun acc x => insert_by_len x acc) xs [].

Definition why_dependencies : list pystr := [s "advcl"; s "xcomp"; s "ccomp"].

(** The [for token in doc] loop of identify_why_aspect, with its [break]
    after the first clause of two or more words. *)
Fixpoint why_candidates (doc : list tok) : list pystr :=
  match doc with
  | [] => []
  | token :: t =>
      if mem (dep_ (node_of token)) why_dependencies then
        let purpose_clause := join_sp (map text (subtree token)) in
        let cleaned_clause := _clean_up_text purpose_clause in
        if 2 <=? length (py_split cleaned_clause) then [cleaned_clause]
        else why_candidates t
      else why_candidates t
  end.

Definition main_dependencies : list pystr := [s "ROOT"; s "relcl"; s "ccomp"].
Definition phrase_dependencies : list pystr :=
  [s "dobj"; s "attr"; s "acomp"; s "prt"; s "advmod"].
Definition pattern_dependencies : list pystr := [s "dobj"; s "pobj"; s "attr"].

(** [phrase_tokens.sort(key=lambda t: t.i)]: a stable insertion sort. *)
Fixpoint insert_by_i (x : node) (xs : list node) : list node :=
  match xs with
  | [] => [x]
  | y :: t => if t_i x <? t_i y then x :: xs else y :: insert_by_i x t
  end.

Definition sort_by_i (xs : list node) : list node :=
  fold_left (fun acc x => insert_by_i x acc) xs [].

(** def _find_main_verb_phrase(doc) -> Optional[str] *)
Fixpoint _find_main_verb_phrase (doc : list tok) : option pystr :=
  match doc with
  | [] => None
  | token :: t =>
      if str_eqb (pos_ (node_of token)) (s "VERB")
         && mem (dep_ (node_of token)) main_dependencies then
        let phrase_tokens :=
          node_of token :: List.filter (fun child => mem (dep_ child) phrase_dependencies)
                                       (children token) in
        if 1 <? length phrase_tokens
        then Some (join_sp (map text (sort_by_i phrase_tokens)))
        else Some (text (node_of token))
      else _find_main_verb_phrase t
  end.

(** def _find_verb_noun_patterns(doc) -> List[str] *)
Definition _find_verb_noun_patterns (doc : list tok) : list pystr :=
  flat_map (fun token =>
    if str_eqb (pos_ (node_of token)) (s "VERB") then
      flat_map (fun child =>
        if str_eqb (pos_ child) (s "NOUN") && mem (dep_ child) pattern_dependencies
        then [text (node_of token) ++ " "%char :: text child] else [])
        (children token)
    else []) doc.

(** An entry [{"text", "priority", "kind"}] of identify_what_aspect. *)
Record what_item := { w_text : pystr; w_priority : pystr; w_kind : pystr }.

(** [priority_order.get(p, 2)] with [priority_order = {"pattern": 0, "general": 1}]. *)
Definition priority_rank (p : pystr) : nat :=
  if str_eqb p (s "pattern") then 0 else if str_eqb p (s "general") then 1 else 2.

(** The sort key [(priority_order.get(...), -len(x["text"]))] of [a] is
    smaller than that of [b]. *)
Definition key_ltb (a b : what_item) : bool :=
  (priority_rank (w_priority a) <? priority_rank (w_priority b))
  || ((priority_rank (w_priority a) =? priority_rank (w_priority b))
      && (length (w_text b) <? length (w_text a))).

(** [final_list.sort(key=...)]: a stable insertion sort. *)
Fixpoint insert_item (x : what_item) (xs : list what_item) : list what_item :=
  match xs with
  | [] => [x]
  | y :: t => if key_ltb x y then x :: xs else y :: insert_item x t
  end.

Definition sort_items (xs : list what_item) : list what_item :=
  fold_left (fun acc x => insert_item x acc) xs [].

Section Parse.
Variable nlp : pystr -> list tok.
(** [nlp(a).similarity(nlp(b))] *)
Variable similarity : pystr -> pystr -> Q.
Variable software_functionality_dict : list pystr.

(** def _check_if_phrase_is_software_related(phrase, min_similarity=0.5) -> bool *)
Definition _check_if_phrase_is_software_related (phrase : pystr) (min_similarity : Q) : bool :=
  let max_sim :=
    fold_left (fun max_sim kd =>
                 let sim := similarity phrase kd in
                 if Qlt_le_dec max_sim sim then sim else max_sim)
              software_functionality_dict 0%Q in
  Qle_bool min_similarity max_sim.

(** def identify_what_aspect(text, min_similarity=0.5) -> List[Dict] *)
Definition identify_what_aspect (text : pystr) (min_similarity : Q) : list what_item :=
  let doc := nlp text in
  let action := _find_main_verb_phrase doc in
  let all_candidates :=
    match action with
    | Some a => match a with [] => [] | _ => [(a, s "general")] end
    | None => []
    end ++ map (fun pattern => (pattern, s "pattern")) (_find_verb_noun_patterns doc) in
  let final_list :=
    map (fun '(t, p) =>
           let is_relevant := _check_if_phrase_is_software_related t min_similarity in
           {| w_text := t; w_priority := p;
              w_kind := if is_relevant then s "software-related" else s "general" |})
        all_candidates in
  dedupe_lower w_text [] (sort_items final_list).

(** def identify_why_aspect(text) -> List[str] *)
Definition identify_why_aspect (text : pystr) : list pystr :=
  dedupe_lower (fun x => x) [] (sort_by_len (why_candidates (nlp text))).

End Parse.
End AspectMore.

(* ------------------------------------------------------------------ *)
(** ** user_story_extractor.py: [_extract_why] and [_who_from_tweet_sentence]

    The regular expressions of these functions, run by a backtracking
    matcher with the semantics of Python's [re]: [search] tries the start
    positions from left to right; at each, alternatives are tried in
    order and greedy repetitions try the longest run first, backing off
    one iteration at a time; the first successful path is the match. *)
Module Regex.
Import PyText.

(** [\w] of a [str] pattern on code points 0..255: [str.isalnum()] or
    the underscore, i.e. 0-9, A-Z, a-z, _, the letters ª µ º, the
    digits ² ³ ¹, the numerics ¼ ½ ¾, and the Latin-1 letters 0xC0..0xFF
    except 0xD7 and 0xF7. *)
Definition is_word (c : ascii) : bool :=
  let n := nat_of_ascii c in
  ((48 <=? n) && (n <=? 57)) || ((65 <=? n) && (n <=? 90)) || (n =? 95)
  || ((97 <=? n) && (n <=? 122))
  || (n =? 170) || (n =? 178) || (n =? 179) || (n =? 181) || (n =? 185) || (n =? 186)
  || ((188 <=? n) && (n <=? 190))
  || ((192 <=? n) && (n <=? 255) && negb (n =? 215) && negb (n =? 247)).

(** [.] without [re.DOTALL]: any character but the newline. *)
Definition is_not_newline (c : ascii) : bool := negb (nat_of_ascii c =? 10).

(** A letter of a pattern compiled with [re.I]: on code points 0..255
    the only characters that match an ASCII letter case-insensitively
    are its two cases. *)
Definition ci (l : ascii) (c : ascii) : bool := Ascii.eqb (py_lower_char c) l.

Inductive regex :=
| RChar (p : ascii -> bool)      (* one character satisfying p *)
| REps                           (* the empty pattern *)
| RBound                         (* \b *)
| RNotAfter (p : ascii -> bool)  (* (?<!...) for a one-character class *)
| RSeq (r1 r2 : regex)
| RAlt (r1 r2 : regex)           (* r1|r2, r1 tried first *)
| RStar (r : regex)              (* greedy r* *)
| RGroup (r : regex).            (* the one capturing group *)

Definition RPlus (r : regex) : regex := RSeq r (RStar r).
Definition ROpt (r : regex) : regex := RAlt r REps.

(** Greedy [r{1,n}]: one [r], then up to [n - 1] more, each further one
    tried before stopping. *)
Fixpoint RUpTo (n : nat) (r : regex) : regex :=
  match n with
  | 0 => REps
  | S n' => ROpt (RSeq r (RUpTo n' r))
  end.
Definition RRange1 (n : nat) (r : regex) : regex := RSeq r (RUpTo (n - 1) r).

(** A literal of ASCII letters and spaces under [re.I]. *)
Fixpoint RLit (l : list ascii) : regex :=
  match l with
  | [] => REps
  | c :: t => RSeq (RChar (if Ascii.eqb c " "%char then Ascii.eqb c else ci c)) (RLit t)
  end.

(** The matcher state: previous character, remaining input, position,
    and the span of the capturing group once it has matched. *)
Record mstate := { prev : option ascii; rest : pystr; pos : nat; grp : option (nat * nat) }.

Definition word_before (st : mstate) : bool :=
  match prev st with Some c => is_word c | None => false end.
Definition word_after (st : mstate) : bool :=
  match rest st with c :: _ => is_word c | [] => false end.

(** Greedy repetition: one more iteration of the body [f], as long as it
    consumed input, is tried before the continuation [k]; [n] bounds the
    number of iterations by the input left. *)
Fixpoint star (n : nat) (f : (mstate -> option mstate) -> mstate -> option mstate)
    (k : mstate -> option mstate) (st : mstate) : option mstate :=
  match n with
  | 0 => k st
  | S n' =>
      match f (fun st' => if length (rest st') <? length (rest st) then star n' f k st' else None) st with
      | Some x => Some x
      | None => k st
      end
  end.

(** [mtch r k st]: match [r] at [st], then the continuation [k]. *)
Fixpoint mtch (r : regex) (k : mstate -> option mstate) (st : mstate) : option mstate :=
  match r with
  | RChar p =>
      match rest st with
      | c :: t => if p c then k {| prev := Some c; rest := t; pos := S (pos st); grp := grp st |}
                  else None
      | [] => None
      end
  | REps => k st
  | RBound => if xorb (word_before st) (word_after st) then k st else None
  | RNotAfter p =>
      if match prev st with Some c => p c | None => false end then None else k st
  | RSeq r1 r2 => mtch r1 (mtch r2 k) st
  | RAlt r1 r2 =>
      match mtch r1 k st with
      | Some x => Some x
      | None => mtch r2 k st
      end
  | RStar r1 => star (S (length (rest st))) (mtch r1) k st
  | RGroup r1 =>
      mtch r1 (fun st' => k {| prev := prev st'; rest := rest st'; pos := pos st';
                               grp := Some (pos st, pos st') |}) st
  end.

Fixpoint search_from (r : regex) (pv : option ascii) (x : pystr) (i : nat) : option mstate :=
  match mtch r Some {| prev := pv; rest := x; pos := i; grp := None |} with
  | Some st => Some st
  | None =>
      match x with
      | [] => None
      | c :: t => search_from r (Some c) t (S i)
      end
  end.

(** [rx.search(x)] *)
Definition search (r : regex) (x : pystr) : option mstate := search_from r None x 0.

(** [m.group(...)] of the capturing group, a slice of the searched text. *)
Definition group_text (x : pystr) (m : mstate) : pystr :=
  match grp m with
  | Some (b, e) => firstn (e - b) (skipn b x)
  | None => []
  end.

Definition is_w := RChar is_word.
Definition is_s := RChar is_space.

(** [_SO_THAT_RE = re.compile(r"\bso that\b\s+(?P<why>.+)", flags=re.I)] *)
Definition _SO_THAT_RE : regex :=
  RSeq RBound (RSeq (RLit (s "so that")) (RSeq RBound
    (RSeq (RPlus is_s) (RGroup (RPlus (RChar is_not_newline)))))).

(** [_BECAUSE_RE = re.compile(r"\bbecause\b\s+(?P<why>.+)", flags=re.I)] *)
Definition _BECAUSE_RE : regex :=
  RSeq RBound (RSeq (RLit (s "because")) (RSeq RBound
    (RSeq (RPlus is_s) (RGroup (RPlus (RChar is_not_newline)))))).

(** [_SO_I_CAN_RE = re.compile(r"\bso (?:I|we) can\b\s+(?P<why>.+)", flags=re.I)] *)
Definition _SO_I_CAN_RE : regex :=
  RSeq RBound (RSeq (RLit (s "so ")) (RSeq (RAlt (RLit (s "i")) (RLit (s "we")))
    (RSeq (RLit (s " can")) (RSeq RBound
      (RSeq (RPlus is_s) (RGroup (RPlus (RChar is_not_newline)))))))).

(** [_TO_VERB_RE], compiled with [re.I]: the text [\bto\s+] followed by
    the group [why] made of one to eight repetitions (greedy) of [\w+]
    followed by [\s] repeated any number of times (greedy). *)
Definition _TO_VERB_RE : regex :=
  RSeq RBound (RSeq (RLit (s "to")) (RSeq (RPlus is_s)
    (RGroup (RRange1 8 (RSeq (RPlus is_w) (RStar is_s)))))).

(** The characters of [.rstrip(".!?;,:")]: codes 46, 33, 63, 59, 44, 58. *)
Definition is_why_punct (c : ascii) : bool :=
  let n := nat_of_ascii c in
  (n =? 46) || (n =? 33) || (n =? 63) || (n =? 59) || (n =? 44) || (n =? 58).

(** def _extract_why(sentence_text) -> Optional[str] *)
Definition _extract_why (sentence_text : pystr) : option pystr :=
  let s0 := strip is_space sentence_text in
  let fix go (rxs : list regex) : option pystr :=
    match rxs with
    | [] => None
    | rx :: t =>
        match search rx s0 with
        | Some m =>
            let why := rstrip is_why_punct (strip is_space (group_text s0 m)) in
            Some (firstn 200 why)
        | None => go t
        end
    end in
  go [_SO_THAT_RE; _SO_I_CAN_RE; _BECAUSE_RE; _TO_VERB_RE].

(** [re.search(r"(?<!\w)@(\w+)", raw_text)] *)
Definition mention_re : regex :=
  RSeq (RNotAfter is_word) (RSeq (RChar (Ascii.eqb "@"%char)) (RGroup (RPlus is_w))).

(** The attribute [lower_] of the tokens of a sentence span. *)
Record sent_span := { lower_s : list pystr }.

(** def _who_from_tweet_sentence(sent_span, raw_text) -> str *)
Definition _who_from_tweet_sentence (sent : sent_span) (raw_text : pystr) : pystr :=
  match search mention_re raw_text with
  | Some m => "@"%char :: group_text raw_text m
  | None =>
      if existsb (fun t => PyLib.mem t [s "i"; s "we"]) (lower_s sent) then s "user"
      else s "user"
  end.

End Regex.

(* ================================================================== *)
(** * Proofs *)

(* ------------------------------------------------------------------ *)
(** ** Facts about the Python text primitives *)
Module PyTextFacts.
Import PyText.

Ltac all_chars c := destruct c as [[] [] [] [] [] [] [] []]; reflexivity.

Lemma is_space_lower c : is_space (py_lower_char c) = is_space c.
Proof. all_chars c. Qed.

Lemma lower_space_fixed c : is_space c = true -> py_lower_char c = c.
Proof.
  destruct c as [[] [] [] [] [] [] [] []]; intros H;
    vm_compute in H; first [reflexivity | discriminate].
Qed.

Lemma lower_char_idem c : py_lower_char (py_lower_char c) = py_lower_char c.
Proof. all_chars c. Qed.

Lemma lower_idem x : lower (lower x) = lower x.
Proof.
  unfold lower. rewrite map_map.
  apply map_ext. intros c. apply lower_char_idem.
Qed.

Lemma head_map {A B} (f : A -> B) (x : list A) :
  head (map f x) = option_map f (head x).
Proof. destruct x; reflexivity. Qed.

Lemma head_Some_In {A} (x : list A) c : head x = Some c -> In c x.
Proof. destruct x; simpl; [discriminate | intros [= ->]; auto]. Qed.

(** Both ends of a list avoid [p]. *)
Definition ends_not (p : ascii -> bool) (x : pystr) : Prop :=
  (forall c, head x = Some c -> p c = false) /\
  (forall c, head (rev x) = Some c -> p c = false).

Lemma lstrip_head p x c : head (lstrip p x) = Some c -> p c = false.
Proof.
  induction x as [|d t IH]; simpl; [discriminate|].
  destruct (p d) eqn:E; [exact IH|]. simpl. intros [= <-]. exact E.
Qed.

Lemma lstrip_suffix p x : exists pre, x = pre ++ lstrip p x.
Proof.
  induction x as [|d t [pre IH]]; simpl; [exists []; reflexivity|].
  destruct (p d).
  - exists (d :: pre). simpl. congruence.
  - exists []. reflexivity.
Qed.

Lemma lstrip_id p x : (forall c, head x = Some c -> p c = false) -> lstrip p x = x.
Proof.
  destruct x as [|d t]; simpl; [reflexivity|].
  intros H. rewrite (H d eq_refl). reflexivity.
Qed.

Lemma strip_id p x : ends_not p x -> strip p x = x.
Proof.
  intros [Hh Hl]. unfold strip, rstrip.
  rewrite (lstrip_id p x Hh), (lstrip_id p (rev x) Hl), rev_involutive.
  reflexivity.
Qed.

Lemma strip_ends p x : ends_not p (strip p x).
Proof.
  unfold strip, rstrip. set (y := lstrip p x). split.
  - intros c Hc. destruct (lstrip_suffix p (rev y)) as [pre Hpre].
    apply (lstrip_head p x). fold y.
    assert (Hy : y = rev (lstrip p (rev y)) ++ rev pre).
    { rewrite <- rev_app_distr, <- Hpre, rev_involutive. reflexivity. }
    rewrite Hy. destruct (rev (lstrip p (rev y))); simpl in *; congruence.
  - rewrite rev_involutive. apply lstrip_head.
Qed.

(** State of the whitespace scanner after a prefix. *)
Fixpoint run_after (b : bool) (x : pystr) : bool :=
  match x with
  | [] => b
  | c :: t => run_after (is_space c) t
  end.

Lemma ws_sub_app b x y :
  ws_sub b (x ++ y) = ws_sub b x ++ ws_sub (run_after b x) y.
Proof.
  revert b. induction x as [|c t IH]; intros b; simpl; [reflexivity|].
  destruct (is_space c) eqn:E; [destruct b|]; simpl; rewrite IH; reflexivity.
Qed.

Lemma run_after_snoc b x c : run_after b (x ++ [c]) = is_space c.
Proof. revert b. induction x; intros b; simpl; auto. Qed.

Lemma run_after_true b x :
  run_after b x = true -> x = [] \/ exists e, head (rev x) = Some e /\ is_space e = true.
Proof.
  destruct x as [|c t] using rev_ind; [auto|].
  rewrite run_after_snoc, rev_app_distr. simpl. intros H. right. eauto.
Qed.

(** A list in the image of [ws_sub]: whitespace only as single spaces. *)
Fixpoint collapsed (b : bool) (x : pystr) : bool :=
  match x with
  | [] => true
  | c :: t =>
      if is_space c then negb b && (if ascii_dec c " " then true else false)
                         && collapsed true t
      else collapsed false t
  end.

Lemma ws_sub_collapsed b x : collapsed b (ws_sub b x) = true.
Proof.
  revert b. induction x as [|c t IH]; intros b; simpl; [reflexivity|].
  destruct (is_space c) eqn:E; [destruct b|]; simpl; rewrite ?E; auto.
Qed.

Lemma collapsed_ws_sub b x : collapsed b x = true -> ws_sub b x = x.
Proof.
  revert b. induction x as [|c t IH]; intros b; simpl; [reflexivity|].
  destruct (is_space c) eqn:E.
  - destruct b; simpl; [discriminate|].
    destruct (ascii_dec c " "); simpl; [|discriminate].
    intros H. subst. rewrite IH; auto.
  - intros H. rewrite IH; auto.
Qed.

Lemma collapsed_lower b x : collapsed b (lower x) = collapsed b x.
Proof.
  revert b. induction x as [|c t IH]; intros b; simpl; [reflexivity|].
  rewrite is_space_lower. destruct (is_space c) eqn:E.
  - rewrite (lower_space_fixed c E), IH. reflexivity.
  - apply IH.
Qed.

Lemma collapsed_space b x d : collapsed b x = true -> In d x -> is_space d = true -> d = " "%char.
Proof.
  revert b. induction x as [|c t IH]; intros b; simpl; [tauto|].
  destruct (is_space c) eqn:E.
  - destruct (ascii_dec c " "); [|rewrite andb_false_r; discriminate].
    rewrite andb_true_iff. intros [_ H] [<- | Hin]; eauto.
  - intros H [<- | Hin]; [congruence | eauto].
Qed.

Lemma ws_sub_head x d :
  head (ws_sub false x) = Some d -> is_space d = false -> head x = Some d.
Proof.
  destruct x as [|c t]; simpl; [discriminate|].
  destruct (is_space c) eqn:E; simpl; intros [= <-];
    [intros H; vm_compute in H; discriminate | auto].
Qed.

Lemma ws_sub_last b x d :
  head (rev (ws_sub b x)) = Some d -> is_space d = false -> head (rev x) = Some d.
Proof.
  revert d. induction x as [|c x IH] using rev_ind; intros d; simpl; [discriminate|].
  rewrite ws_sub_app, !rev_app_distr. simpl.
  destruct (is_space c) eqn:E; simpl.
  - destruct (run_after b x) eqn:R; simpl.
    + intros H Hd. destruct (run_after_true b x R) as [-> | [e [He Hs]]].
      * simpl in H. discriminate.
      * specialize (IH d H Hd). congruence.
    + intros [= <-] H. vm_compute in H. discriminate.
  - intros [= <-] _. reflexivity.
Qed.

End PyTextFacts.

(* ------------------------------------------------------------------ *)
(** ** _normalize_key *)
Module NormalizeFacts.
Import PyText PyTextFacts Normalize.

Lemma strip_char_lower c : is_strip_char (py_lower_char c) = is_strip_char c.
Proof. all_chars c. Qed.

Lemma lstrip_lower p x :
  (forall c, p (py_lower_char c) = p c) -> lstrip p (lower x) = lower (lstrip p x).
Proof.
  intros Hp. induction x as [|c t IH]; simpl; [reflexivity|].
  rewrite Hp. destruct (p c); [exact IH | reflexivity].
Qed.

Lemma strip_lower p x :
  (forall c, p (py_lower_char c) = p c) -> strip p (lower x) = lower (strip p x).
Proof.
  intros Hp. unfold strip, rstrip.
  rewrite (lstrip_lower p x Hp). unfold lower at 1. rewrite <- map_rev.
  fold (lower (rev (lstrip p x))).
  rewrite (lstrip_lower p _ Hp). unfold lower. rewrite map_rev. reflexivity.
Qed.

Lemma ws_sub_lower b x : ws_sub b (lower x) = lower (ws_sub b x).
Proof.
  revert b. induction x as [|c t IH]; intros b; simpl; [reflexivity|].
  rewrite is_space_lower. destruct (is_space c) eqn:E; [destruct b|];
    simpl; rewrite IH; reflexivity.
Qed.

(** The normal form of any input: stripped of whitespace and quote
    characters at both ends (before the run collapse), collapsed, lower. *)
Lemma normalize_shape x :
  x <> [] ->
  exists p, ends_not is_strip_char p /\
            _normalize_key x = lower (ws_sub false p).
Proof.
  destruct x as [|c t]; [congruence|]. intros _.
  exists (strip is_strip_char (strip is_space (c :: t))).
  split; [apply strip_ends | reflexivity].
Qed.

Lemma normalize_key_cons c t :
  _normalize_key (c :: t) =
  lower (ws_sub false (strip is_strip_char (strip is_space (c :: t)))).
Proof. reflexivity. Qed.

Lemma normalize_key_lower x : _normalize_key (lower x) = _normalize_key x.
Proof.
  destruct x as [|c t]; [reflexivity|].
  change (lower (c :: t)) with (py_lower_char c :: lower t).
  rewrite !normalize_key_cons.
  change (py_lower_char c :: lower t) with (lower (c :: t)).
  rewrite (strip_lower is_space _ is_space_lower),
          (strip_lower is_strip_char _ strip_char_lower),
          ws_sub_lower, lower_idem.
  reflexivity.
Qed.

(** A normal form that neither starts nor ends with a space is a fixed
    point of [_normalize_key]. *)
Lemma normalize_key_fixed x :
  (forall c, head (_normalize_key x) = Some c -> c <> " "%char) ->
  (forall c, head (rev (_normalize_key x)) = Some c -> c <> " "%char) ->
  _normalize_key (_normalize_key x) = _normalize_key x.
Proof.
  intros Hh Hl. destruct x as [|c0 t0]; [reflexivity|].
  destruct (normalize_shape (c0 :: t0) ltac:(discriminate)) as [p [[Pp Pl] Hn]].
  rewrite Hn in *. remember (ws_sub false p) as w eqn:Hw.
  remember (lower w) as n eqn:Hnw.
  assert (Hcol : collapsed false n = true).
  { subst n w. rewrite collapsed_lower. apply ws_sub_collapsed. }
  assert (Hsp : forall d, In d n -> d <> " "%char -> is_space d = false).
  { intros d Hin Hd. destruct (is_space d) eqn:E; [|reflexivity].
    exfalso. apply Hd. exact (collapsed_space false n d Hcol Hin E). }
  assert (Hns : ends_not is_space n).
  { split; intros c Hc.
    - apply Hsp; [apply head_Some_In; exact Hc | apply Hh; exact Hc].
    - apply Hsp; [apply in_rev, head_Some_In; exact Hc | apply Hl; exact Hc]. }
  assert (Hnp : ends_not is_strip_char n).
  { destruct Hns as [Hs1 Hs2]. split; intros c Hc.
    - pose proof (Hs1 c Hc) as Hcs. rewrite Hnw in Hc. unfold lower in Hc.
      rewrite head_map in Hc. destruct (head w) as [d|] eqn:Hd; [|discriminate].
      simpl in Hc. injection Hc as <-. rewrite strip_char_lower.
      rewrite is_space_lower in Hcs. rewrite Hw in Hd.
      apply Pp. exact (ws_sub_head p d Hd Hcs).
    - pose proof (Hs2 c Hc) as Hcs. rewrite Hnw in Hc. unfold lower in Hc.
      rewrite <- map_rev, head_map in Hc.
      destruct (head (rev w)) as [d|] eqn:Hd; [|discriminate].
      simpl in Hc. injection Hc as <-. rewrite strip_char_lower.
      rewrite is_space_lower in Hcs. rewrite Hw in Hd.
      apply Pl. exact (ws_sub_last false p d Hd Hcs). }
  assert (E : lower (ws_sub false (strip is_strip_char (strip is_space n))) = n).
  { rewrite (strip_id _ _ Hns), (strip_id _ _ Hnp), (collapsed_ws_sub _ _ Hcol).
    subst n. apply lower_idem. }
  destruct n as [|c1 t1]; [reflexivity|]. rewrite normalize_key_cons. exact E.
Qed.

Lemma space_is_space : is_space " "%char = true.
Proof. reflexivity. Qed.

Lemma strip_char_not_space c : is_strip_char c = true -> is_space c = false.
Proof. destruct c as [[] [] [] [] [] [] [] []]; vm_compute; congruence. Qed.

Lemma lstrip_space_ws_sub b x : lstrip is_space (ws_sub b x) = ws_sub false (lstrip is_space x).
Proof.
  revert b. induction x as [|c t IH]; intros b; [reflexivity|].
  cbn [ws_sub lstrip]. destruct (is_space c) eqn:E.
  - destruct b; [apply IH|]. cbn [lstrip]. rewrite space_is_space. apply IH.
  - cbn [lstrip ws_sub]. rewrite E. reflexivity.
Qed.

Lemma rstrip_snoc p y c :
  rstrip p (y ++ [c]) = if p c then rstrip p y else y ++ [c].
Proof.
  unfold rstrip. rewrite rev_app_distr. cbn. destruct (p c); [reflexivity|].
  cbn. rewrite rev_involutive. reflexivity.
Qed.

Lemma ws_sub_one b c :
  ws_sub b [c] = if is_space c then (if b then [] else [" "%char]) else [c].
Proof. simpl. destruct (is_space c), b; reflexivity. Qed.

Lemma rstrip_space_ws_sub b x : rstrip is_space (ws_sub b x) = ws_sub b (rstrip is_space x).
Proof.
  induction x as [|c x IH] using rev_ind; [reflexivity|].
  rewrite ws_sub_app, ws_sub_one, (rstrip_snoc is_space x c).
  destruct (is_space c) eqn:E.
  - destruct (run_after b x).
    + rewrite app_nil_r. exact IH.
    + rewrite rstrip_snoc, space_is_space. exact IH.
  - rewrite rstrip_snoc, E, ws_sub_app, ws_sub_one, E. reflexivity.
Qed.

Lemma strip_space_ws_sub x : strip is_space (ws_sub false x) = ws_sub false (strip is_space x).
Proof. unfold strip. rewrite lstrip_space_ws_sub, rstrip_space_ws_sub. reflexivity. Qed.

Lemma ws_sub_run_end b y :
  run_after b y = true -> ws_sub b y = [] \/ head (rev (ws_sub b y)) = Some " "%char.
Proof.
  induction y as [|d y IH] using rev_ind; [intros _; left; reflexivity|].
  rewrite run_after_snoc, ws_sub_app, ws_sub_one. intros Hd. rewrite Hd.
  destruct (run_after b y) eqn:R.
  - rewrite app_nil_r. apply IH. reflexivity.
  - right. rewrite rev_app_distr. reflexivity.
Qed.

Section StripChars.
Variable q : ascii -> bool.
Hypothesis Hq : forall c, q c = true -> is_space c = false.

Lemma q_space : q " "%char = false.
Proof. destruct (q " "%char) eqn:E; [|reflexivity]. apply Hq in E. discriminate. Qed.

Lemma lstrip_q_ws_sub y : lstrip q (ws_sub false y) = ws_sub false (lstrip q y).
Proof.
  induction y as [|c t IH]; [reflexivity|].
  cbn [ws_sub]. destruct (is_space c) eqn:E.
  - cbn [lstrip]. rewrite q_space.
    assert (Hc : q c = false) by (destruct (q c) eqn:Eq; [apply Hq in Eq; congruence | reflexivity]).
    rewrite Hc. cbn [ws_sub]. rewrite E. reflexivity.
  - cbn [lstrip]. destruct (q c); [exact IH|]. cbn [ws_sub]. rewrite E. reflexivity.
Qed.

Lemma rstrip_q_ws_sub b y : rstrip q (ws_sub b y) = ws_sub b (rstrip q y).
Proof.
  induction y as [|c y IH] using rev_ind; [reflexivity|].
  rewrite ws_sub_app, ws_sub_one, (rstrip_snoc q y c).
  destruct (q c) eqn:Eq.
  - rewrite (Hq c Eq), rstrip_snoc, Eq. exact IH.
  - rewrite ws_sub_app, ws_sub_one. destruct (is_space c) eqn:E.
    + destruct (run_after b y) eqn:R.
      * rewrite !app_nil_r. destruct (ws_sub_run_end b y R) as [H0 | Hl].
        -- rewrite H0. reflexivity.
        -- unfold rstrip. destruct (rev (ws_sub b y)) as [|e r] eqn:Er; [discriminate|].
           cbn in Hl. injection Hl as ->. cbn [lstrip]. rewrite q_space.
           rewrite <- Er, rev_involutive. reflexivity.
      * rewrite rstrip_snoc, q_space. reflexivity.
    + rewrite rstrip_snoc, Eq. reflexivity.
Qed.

Lemma ws_sub_strip_q y :
  ws_sub false (strip q (ws_sub false y)) = ws_sub false (strip q y).
Proof.
  unfold strip. rewrite lstrip_q_ws_sub, rstrip_q_ws_sub.
  apply collapsed_ws_sub, ws_sub_collapsed.
Qed.

End StripChars.

Lemma ws_sub_cons_ne b c t : ws_sub b (c :: t) <> [] \/ (is_space c = true /\ b = true).
Proof. simpl. destruct (is_space c), b; auto; left; discriminate. Qed.

(** [_normalize_key] only sees the text up to its runs of whitespace. *)
Lemma normalize_key_ws_sub x : _normalize_key (ws_sub false x) = _normalize_key x.
Proof.
  destruct x as [|c t]; [reflexivity|].
  destruct (ws_sub false (c :: t)) as [|d u] eqn:Ew.
  { destruct (ws_sub_cons_ne false c t) as [H | [_ H]]; [contradiction | discriminate]. }
  rewrite !normalize_key_cons, <- Ew, strip_space_ws_sub.
  rewrite (ws_sub_strip_q is_strip_char strip_char_not_space). reflexivity.
Qed.

Lemma length_ws_sub b x : length (ws_sub b x) <= length x.
Proof.
  revert b. induction x as [|c t IH]; intros b; simpl; [lia|].
  pose proof (IH true). pose proof (IH false).
  destruct (is_space c), b; simpl; lia.
Qed.

Lemma strip_slice p x : exists pre post, x = pre ++ strip p x ++ post.
Proof.
  destruct (lstrip_suffix p x) as [pre Hpre].
  destruct (lstrip_suffix p (rev (lstrip p x))) as [pre' Hpre'].
  exists pre, (rev pre'). unfold strip, rstrip.
  rewrite <- rev_app_distr, <- Hpre', rev_involutive. exact Hpre.
Qed.

Lemma length_strip p x : length (strip p x) <= length x.
Proof.
  destruct (strip_slice p x) as (pre & post & H).
  rewrite H at 2. rewrite !length_app. lia.
Qed.

(** Stripping shortens a text that starts or ends with a stripped character. *)
Lemma length_strip_lt p x c :
  (head x = Some c \/ head (rev x) = Some c) -> p c = true -> length (strip p x) < length x.
Proof.
  intros Hc Hp. destruct (strip_slice p x) as (pre & post & H).
  destruct pre as [|a pre]; [destruct post as [|b post]|].
  - rewrite app_nil_r in H. simpl in H. destruct (strip_ends p x) as [H1 H2].
    rewrite <- H in H1, H2. destruct Hc as [Hc | Hc]; [rewrite (H1 c Hc) in Hp | rewrite (H2 c Hc) in Hp];
      discriminate.
  - rewrite H at 2. rewrite !length_app. simpl. lia.
  - rewrite H at 2. rewrite !length_app. simpl. lia.
Qed.

Lemma length_normalize_key_lt x c :
  (head x = Some c \/ head (rev x) = Some c) -> is_space c = true ->
  length (_normalize_key x) < length x.
Proof.
  intros Hc Hs. destruct x as [|d u]; [destruct Hc as [Hc | Hc]; discriminate|].
  rewrite normalize_key_cons. unfold lower. rewrite length_map.
  pose proof (length_ws_sub false (strip is_strip_char (strip is_space (d :: u)))).
  pose proof (length_strip is_strip_char (strip is_space (d :: u))).
  pose proof (length_strip_lt is_space (d :: u) c Hc Hs). lia.
Qed.

(** C4, as the code has it: the key of "a (" is "a " (the space before
    the stripped bracket stays), whose key is "a"; in general
    [_normalize_key] is idempotent on [x] exactly when the key of [x]
    neither starts nor ends with a space.  It is case-insensitive and
    depends only on the text up to its runs of whitespace. *)
Theorem normalize_key_end_space_bug :
  _normalize_key (s "a (") = s "a " /\ _normalize_key (s "a ") = s "a" /\
  (forall x, _normalize_key (_normalize_key x) = _normalize_key x <->
     (forall c, head (_normalize_key x) = Some c -> c <> " "%char) /\
     (forall c, head (rev (_normalize_key x)) = Some c -> c <> " "%char)) /\
  (forall x, _normalize_key (lower x) = _normalize_key x) /\
  (forall x, _normalize_key (ws_sub false x) = _normalize_key x) /\
  _normalize_key (s "Sync  Data") = _normalize_key (s "sync data").
Proof.
  split; [vm_compute; reflexivity|]. split; [vm_compute; reflexivity|].
  split.
  { intros x. split.
    - intros Hid. split; intros c Hc ->.
      + pose proof (length_normalize_key_lt (_normalize_key x) " "%char (or_introl Hc) space_is_space).
        rewrite Hid in H. lia.
      + pose proof (length_normalize_key_lt (_normalize_key x) " "%char (or_intror Hc) space_is_space).
        rewrite Hid in H. lia.
    - intros [Hh Hl]. exact (normalize_key_fixed x Hh Hl). }
  split; [exact normalize_key_lower|]. split; [exact normalize_key_ws_sub|].
  vm_compute. reflexivity.
Qed.
End NormalizeFacts.

(* ------------------------------------------------------------------ *)
(** ** Python helpers *)
Module PyLibFacts.
Import PyText PyLib.

Lemma str_eqb_true x y : str_eqb x y = true <-> x = y.
Proof. unfold str_eqb. apply bool_decide_eq_true. Qed.

Lemma mem_In x xs : mem x xs = true <-> In x xs.
Proof.
  unfold mem. rewrite existsb_exists. split.
  - intros [y [Hy E]]. apply str_eqb_true in E. subst. exact Hy.
  - intros H. exists x. split; [exact H | apply str_eqb_true; reflexivity].
Qed.

Lemma dict_get_In {V} (d : dict V) k v : dict_get d k = Some v -> In (k, v) d.
Proof.
  induction d as [|[k' v'] t IH]; simpl; [discriminate|].
  destruct (str_eqb k k') eqn:E.
  - apply str_eqb_true in E. intros [= <-]. subst. left. reflexivity.
  - intros H. right. apply IH, H.
Qed.

Lemma dict_get_keys {V} (d : dict V) k : In k (dict_keys d) -> is_Some (dict_get d k).
Proof.
  induction d as [|[k' v'] t IH]; simpl; [tauto|].
  destruct (str_eqb k k') eqn:E; [eexists; reflexivity|].
  intros [-> | H]; [|apply IH, H].
  exfalso. assert (str_eqb k k = true) by (apply str_eqb_true; reflexivity). congruence.
Qed.

Lemma dict_get_set_eq {V} (d : dict V) k v : dict_get (dict_set d k v) k = Some v.
Proof.
  induction d as [|[k' v'] t IH]; simpl.
  - assert (str_eqb k k = true) by (apply str_eqb_true; reflexivity). rewrite H. reflexivity.
  - destruct (str_eqb k k') eqn:E; simpl; rewrite ?E; [reflexivity | exact IH].
Qed.

Lemma dict_get_set_some {V} (d : dict V) k k' v :
  is_Some (dict_get d k) -> is_Some (dict_get (dict_set d k' v) k).
Proof.
  induction d as [|[k1 v1] t IH]; simpl; [intros [? ?]; discriminate|].
  destruct (str_eqb k' k1); simpl; destruct (str_eqb k k1); auto; eexists; reflexivity.
Qed.

Lemma omap_Forall2 {A B} (f : A -> option B) xs ys :
  omap f xs = Some ys <-> Forall2 (fun x y => f x = Some y) xs ys.
Proof.
  revert ys. induction xs as [|x t IH]; intros ys; simpl.
  - split; [intros [= <-]; constructor | intros H; inversion H; reflexivity].
  - destruct (f x) as [y|] eqn:Ef.
    + destruct (omap f t) as [ys'|] eqn:Et.
      * split.
        -- intros [= <-]. constructor; [exact Ef | apply IH; reflexivity].
        -- intros H. inversion H as [|? y' ? ys'' Hy Hys]; subst.
           apply IH in Hys. congruence.
      * split; [discriminate|]. intros H. inversion H as [|? y' ? ys'' Hy Hys]; subst.
        apply IH in Hys. congruence.
    + split; [discriminate|]. intros H. inversion H; subst. congruence.
Qed.

Lemma omap_total {A B} (f : A -> option B) xs :
  (forall x, In x xs -> is_Some (f x)) -> is_Some (omap f xs).
Proof.
  induction xs as [|x t IH]; simpl; intros H; [eexists; reflexivity|].
  destruct (H x (or_introl eq_refl)) as [y ->].
  destruct IH as [ys ->]; [intros; apply H; auto|]. eexists; reflexivity.
Qed.

Lemma omap_In {A B} (f : A -> option B) xs ys y :
  omap f xs = Some ys -> In y ys -> exists x, In x xs /\ f x = Some y.
Proof.
  rewrite omap_Forall2. intros H. induction H as [|x y' t ys' Hf _ IH]; simpl; [tauto|].
  intros [<- | Hin]; [eauto|]. destruct (IH Hin) as [x' [? ?]]; eauto.
Qed.

Lemma firstn_add_skipn {A} n m (l : list A) :
  firstn (n + m) l = firstn n l ++ firstn m (skipn n l).
Proof.
  revert l. induction n as [|n IH]; intros l; simpl; [reflexivity|].
  destruct l; simpl; [destruct m; reflexivity | f_equal; apply IH].
Qed.

(** The slices [l[j*k : j*k+k]] for [j = s .. s+m-1] cover [l[s*k : (s+m)*k]]. *)
Lemma concat_slices {A} (l : list A) k s m :
  concat (map (fun j => firstn k (skipn (j * k) l)) (seq s m))
  = firstn (m * k) (skipn (s * k) l).
Proof.
  revert s. induction m as [|m IH]; intros s; simpl; [reflexivity|].
  rewrite IH, firstn_add_skipn, skipn_skipn.
  replace (k + s * k) with (S s * k) by lia. reflexivity.
Qed.

End PyLibFacts.

(* ------------------------------------------------------------------ *)
(** ** Chunked rendering *)
Module UseCaseFacts.
Import PyText PyLib PyLibFacts UseCase.

Lemma chunk_spec {A} (l : list A) k :
  0 < k ->
  exists chunks, _chunk l k = Some chunks /\
    length chunks = (length l + k - 1) / k /\
    concat chunks = l /\
    Forall (fun c => length c <= k) chunks.
Proof.
  intros Hk. unfold _chunk. destruct (k =? 0) eqn:E; [apply Nat.eqb_eq in E; lia|].
  eexists; split; [reflexivity|]. unfold py_range0. rewrite map_map.
  set (n := length l).
  set (m := if 0 <? n then (n - 1) / k + 1 else 0).
  assert (Hm : m = (n + k - 1) / k).
  { unfold m. destruct (0 <? n) eqn:En.
    - apply Nat.ltb_lt in En. replace (n + k - 1) with (n - 1 + 1 * k) by lia.
      rewrite Nat.div_add by lia. reflexivity.
    - apply Nat.ltb_ge in En. replace (n + k - 1) with (k - 1) by lia.
      symmetry. apply Nat.div_small. lia. }
  assert (Hcover : n <= m * k).
  { unfold m. destruct (0 <? n) eqn:En; [|apply Nat.ltb_ge in En; lia].
    pose proof (Nat.mul_succ_div_gt (n - 1) k ltac:(lia)). nia. }
  split; [rewrite length_map, length_seq; exact Hm|]. split.
  - rewrite concat_slices. simpl. apply firstn_all2. exact Hcover.
  - apply List.Forall_forall. intros c Hc. apply in_map_iff in Hc as [j [<- _]].
    apply firstn_le_length.
Qed.

Lemma assign_uc_some ckeys d i k :
  In k ckeys \/ is_Some (dict_get d k) -> is_Some (dict_get (assign_uc d i ckeys) k).
Proof.
  revert d i. induction ckeys as [|k' t IH]; intros d i; simpl.
  - intros [[] | H]; exact H.
  - intros H. apply IH. destruct H as [[-> | Hin] | Hs]; auto.
    + right. rewrite dict_get_set_eq. eexists; reflexivity.
    + right. apply dict_get_set_some, Hs.
Qed.

Lemma assign_actors_spec ce d acc i :
  (forall a, In a acc -> is_Some (dict_get d a)) ->
  (forall a, In a (snd (assign_actors d acc i ce)) ->
     is_Some (dict_get (fst (assign_actors d acc i ce)) a) /\
     (In a acc \/ exists key, In (a, key) ce)) /\
  (forall a key, In (a, key) ce -> is_Some (dict_get (fst (assign_actors d acc i ce)) a)) /\
  (forall a, is_Some (dict_get d a) -> is_Some (dict_get (fst (assign_actors d acc i ce)) a)).
Proof.
  revert d acc i. induction ce as [|[a0 k0] t IH]; intros d acc i Hacc; simpl.
  - split; [intros a Ha; split; auto|]. split; [tauto | auto].
  - destruct (dict_get d a0) as [v|] eqn:Ed.
    + destruct (IH d acc i Hacc) as [H1 [H2 H3]]. split; [|split].
      * intros a Ha. destruct (H1 a Ha) as [Hs [Hin | [key Hk]]]; split; eauto.
      * intros a key [[= -> ->] | Hk]; [apply H3; rewrite Ed; eexists; reflexivity | eauto].
      * exact H3.
    + set (d' := dict_set d a0 (_alias (s "A") i)).
      assert (Hacc' : forall a, In a (acc ++ [a0]) -> is_Some (dict_get d' a)).
      { intros a Ha. apply in_app_or in Ha as [Ha | [<- | []]].
        - apply dict_get_set_some, Hacc, Ha.
        - unfold d'. rewrite dict_get_set_eq. eexists; reflexivity. }
      destruct (IH d' (acc ++ [a0]) (S i) Hacc') as [H1 [H2 H3]]. split; [|split].
      * intros a Ha. destruct (H1 a Ha) as [Hs [Hin | [key Hk]]]; split; auto.
        -- apply in_app_or in Hin as [Hin | [<- | []]]; [left; exact Hin|].
           right. exists k0. left. reflexivity.
        -- right. exists key. right. exact Hk.
      * intros a key [[= -> ->] | Hk]; [|eauto].
        apply H3. unfold d'. rewrite dict_get_set_eq. eexists; reflexivity.
      * intros a Ha. apply H3, dict_get_set_some, Ha.
Qed.

Definition is_usecase_line (l : puml_line) : bool :=
  match l with LUseCase _ _ => true | _ => false end.

Lemma filter_none {A} (f : A -> bool) l : (forall x, In x l -> f x = false) -> List.filter f l = [].
Proof.
  induction l as [|x t IH]; simpl; intros H; [reflexivity|].
  rewrite H by auto. apply IH. auto.
Qed.

Lemma filter_all {A} (f : A -> bool) l : (forall x, In x l -> f x = true) -> List.filter f l = l.
Proof.
  induction l as [|x t IH]; simpl; intros H; [reflexivity|].
  rewrite H by auto. f_equal. apply IH. auto.
Qed.

Lemma in_lines y p c n la lu le :
  In y ([LStart; LDirection; LTitle p c n] ++ la ++ lu ++ le ++ [LEnd]) ->
  y = LStart \/ y = LDirection \/ (exists p c n, y = LTitle p c n) \/
  In y la \/ In y lu \/ In y le \/ y = LEnd.
Proof.
  simpl. rewrite !in_app_iff. simpl.
  intros [H | [H | [H | [H | [H | [H | [H | []]]]]]]]; subst; eauto 10.
Qed.

(** What one rendered chunk declares: edges only for its own use cases,
    actors only when incident to such an edge, one use-case line per key
    of the chunk, each labelled from the use-case map. *)
Lemma chunk_lines_spec pid (um : dict usecase_entry) edges n ci ckeys :
  (forall k, In k ckeys -> In k (dict_keys um)) ->
  exists ls, chunk_lines pid um edges n ci ckeys = Some ls /\
    (forall a u, In (LEdge a u) ls ->
       exists actor key, In (actor, key) edges /\ In key ckeys /\
         dict_get (fst (assign_actors [] [] 1 (chunk_edges_of edges ckeys))) actor = Some a /\
         dict_get (assign_uc [] 1 ckeys) key = Some u) /\
    (forall a al, In (LActor a al) ls -> exists key, In (a, key) edges /\ In key ckeys) /\
    (forall lbl al, In (LUseCase lbl al) ls ->
       exists key e, In key ckeys /\ dict_get um key = Some e /\ lbl = label e) /\
    length (List.filter is_usecase_line ls) = length ckeys.
Proof.
  intros Hkeys. unfold chunk_lines.
  set (ce := chunk_edges_of edges ckeys). set (uc := assign_uc [] 1 ckeys).
  destruct (assign_actors_spec ce [] [] 1 ltac:(simpl; tauto)) as [A1 [A2 _]].
  destruct (assign_actors [] [] 1 ce) as [aa aic] eqn:Ea. simpl in A1, A2.
  assert (Hce : forall e, In e ce -> In e edges /\ In (snd e) ckeys).
  { intros e He. unfold ce, chunk_edges_of in He. apply List.filter_In in He as [He Hm].
    apply mem_In in Hm. auto. }
  destruct (omap_total (fun a => option_map (LActor a) (dict_get aa a)) aic) as [la Hla].
  { intros a Ha. destruct (proj1 (A1 a Ha)) as [v ->]. eexists; reflexivity. }
  destruct (omap_total (fun k => match dict_get uc k, dict_get um k with
                       | Some al, Some e => Some (LUseCase (label e) al)
                       | _, _ => None end) ckeys) as [lu Hlu].
  { intros k Hk. destruct (assign_uc_some ckeys [] 1 k (or_introl Hk)) as [al Hal].
    destruct (dict_get_keys um k (Hkeys k Hk)) as [e He].
    fold uc in Hal. rewrite Hal, He. eexists; reflexivity. }
  destruct (omap_total (fun e => match dict_get aa (fst e), dict_get uc (snd e) with
                       | Some a, Some u => Some (LEdge a u)
                       | _, _ => None end) ce) as [le Hle].
  { intros e He. destruct (A2 (fst e) (snd e) ltac:(destruct e; exact He)) as [a Ha].
    destruct (assign_uc_some ckeys [] 1 (snd e) (or_introl (proj2 (Hce e He)))) as [u Hu].
    fold uc in Hu. rewrite Ha, Hu. eexists; reflexivity. }
  rewrite Hla, Hlu, Hle. eexists. split; [reflexivity|].
  assert (Sla : forall y, In y la -> exists a al, y = LActor a al /\ In a aic).
  { intros y Hy. destruct (omap_In _ _ _ _ Hla Hy) as [a [Ha Hf]].
    destruct (dict_get aa a); simpl in Hf; [|discriminate]. injection Hf as <-. eauto. }
  assert (Slu : forall y, In y lu ->
            exists k e al, y = LUseCase (label e) al /\ In k ckeys /\ dict_get um k = Some e).
  { intros y Hy. destruct (omap_In _ _ _ _ Hlu Hy) as [k [Hk Hf]].
    destruct (dict_get uc k), (dict_get um k) eqn:E; try discriminate.
    injection Hf as <-. eauto 6. }
  assert (Sle : forall y, In y le ->
            exists e a u, y = LEdge a u /\ In e ce /\ dict_get aa (fst e) = Some a
                          /\ dict_get uc (snd e) = Some u).
  { intros y Hy. destruct (omap_In _ _ _ _ Hle Hy) as [e [He Hf]].
    destruct (dict_get aa (fst e)) eqn:E1, (dict_get uc (snd e)) eqn:E2; try discriminate.
    injection Hf as <-. eauto 8. }
  split; [|split; [|split]].
  - intros a u Hin.
    destruct (in_lines _ _ _ _ _ _ _ Hin) as [? | [? | [[? [? [? ?]]] | [H | [H | [H | ?]]]]]];
      try discriminate.
    + destruct (Sla _ H) as [? [? [? _]]]. discriminate.
    + destruct (Slu _ H) as [? [? [? [? _]]]]. discriminate.
    + destruct (Sle _ H) as [[actor key] [a' [u' [[= <- <-] [He [Ha Hu]]]]]].
      destruct (Hce _ He) as [He' Hk]. exists actor, key. simpl. auto.
  - intros a al Hin.
    destruct (in_lines _ _ _ _ _ _ _ Hin) as [? | [? | [[? [? [? ?]]] | [H | [H | [H | ?]]]]]];
      try discriminate.
    + destruct (Sla _ H) as [a' [al' [[= <- <-] Ha]]].
      destruct (A1 a Ha) as [_ [[] | [key Hk]]].
      destruct (Hce _ Hk) as [He Hk']. eauto.
    + destruct (Slu _ H) as [? [? [? [? _]]]]. discriminate.
    + destruct (Sle _ H) as [? [? [? [? _]]]]. discriminate.
  - intros lbl al Hin.
    destruct (in_lines _ _ _ _ _ _ _ Hin) as [? | [? | [[? [? [? ?]]] | [H | [H | [H | ?]]]]]];
      try discriminate.
    + destruct (Sla _ H) as [? [? [? _]]]. discriminate.
    + destruct (Slu _ H) as [k [e [al' [[= -> ->] [Hk He]]]]]. eauto.
    + destruct (Sle _ H) as [? [? [? [? _]]]]. discriminate.
  - simpl. rewrite !List.filter_app.
    rewrite (filter_none _ la), (filter_all _ lu), (filter_none _ le); simpl.
    + rewrite app_nil_r. apply omap_Forall2 in Hlu. symmetry. eapply Forall2_length, Hlu.
    + intros y Hy. destruct (Sle _ Hy) as [? [? [? [-> _]]]]. reflexivity.
    + intros y Hy. destruct (Slu _ Hy) as [? [? [? [-> _]]]]. reflexivity.
    + intros y Hy. destruct (Sla _ Hy) as [? [? [-> _]]]. reflexivity.
Qed.

Lemma enumerate_from_lookup {A} (xs : list A) s i x :
  xs !! i = Some x -> enumerate_from s xs !! i = Some (s + i, x).
Proof.
  revert s i. induction xs as [|y t IH]; intros s i; [discriminate|].
  destruct i as [|i]; simpl.
  - intros [= ->]. rewrite Nat.add_0_r. reflexivity.
  - intros H. rewrite (IH (S s) i H). f_equal. f_equal. lia.
Qed.

Lemma enumerate_from_In {A} (xs : list A) s ci x :
  In (ci, x) (enumerate_from s xs) -> In x xs.
Proof.
  revert s. induction xs as [|y t IH]; intros s; simpl; [tauto|].
  intros [[= _ ->] | H]; [auto | right; eapply IH, H].
Qed.

Lemma length_enumerate_from {A} (xs : list A) s : length (enumerate_from s xs) = length xs.
Proof. revert s. induction xs; intros s; simpl; auto. Qed.

(** C8: with chunk size [k > 0] and [n] use-case keys, the keys are cut
    into ceil(n/k) ordered chunks of at most [k] keys each, one diagram is
    rendered per chunk, and each diagram declares only the edges whose
    use case lies in its chunk, only actors incident to such an edge, and
    exactly one use-case line per key of its chunk. *)
Theorem render_chunks_bound (k : nat) (pid : pystr) (um : dict usecase_entry)
    (actor_set : list pystr) (edges : list (pystr * pystr)) :
  0 < k ->
  exists chunks Ls,
    _chunk (dict_keys um) k = Some chunks /\
    length chunks = (length (dict_keys um) + k - 1) / k /\
    concat chunks = dict_keys um /\
    render_chunk_lines k pid um edges = Some Ls /\
    _render_puml_chunks k pid um actor_set edges
      = Some (map (fun ls => join_nl (map line_text ls)) Ls) /\
    length Ls = length chunks /\
    forall i ckeys ls, chunks !! i = Some ckeys -> Ls !! i = Some ls ->
      length ckeys <= k /\
      (forall a u, In (LEdge a u) ls ->
         exists actor key, In (actor, key) edges /\ In key ckeys /\
           dict_get (fst (assign_actors [] [] 1 (chunk_edges_of edges ckeys))) actor = Some a /\
           dict_get (assign_uc [] 1 ckeys) key = Some u) /\
      (forall a al, In (LActor a al) ls -> exists key, In (a, key) edges /\ In key ckeys) /\
      (forall lbl al, In (LUseCase lbl al) ls ->
         exists key e, In key ckeys /\ dict_get um key = Some e /\ lbl = label e) /\
      length (List.filter is_usecase_line ls) = length ckeys.
Proof.
  intros Hk. destruct (chunk_spec (dict_keys um) k Hk) as [chunks [Hc [Hlen [Hcat Hle]]]].
  set (g := fun '(ci, ckeys) =>
              chunk_lines pid um edges (length chunks) ci ckeys : option (list puml_line)).
  assert (Hsub : forall ck, In ck chunks -> forall key, In key ck -> In key (dict_keys um)).
  { intros ck Hck key Hkey. rewrite <- Hcat. apply in_concat. eauto. }
  destruct (omap_total g (enumerate_from 1 chunks)) as [Ls HLs].
  { intros [ci ck] Hin. destruct (chunk_lines_spec pid um edges (length chunks) ci ck
      (Hsub ck (enumerate_from_In _ _ _ _ Hin))) as [ls [E _]].
    simpl. rewrite E. eexists; reflexivity. }
  assert (HR : render_chunk_lines k pid um edges = Some Ls).
  { unfold render_chunk_lines. rewrite Hc. exact HLs. }
  apply omap_Forall2 in HLs.
  exists chunks, Ls. split; [exact Hc|]. split; [exact Hlen|]. split; [exact Hcat|].
  split; [exact HR|]. split; [unfold _render_puml_chunks; rewrite HR; reflexivity|].
  split; [rewrite <- (Forall2_length _ _ _ HLs); apply length_enumerate_from|].
  intros i ckeys ls Hi Hl.
  pose proof (Forall2_lookup_lr _ _ _ _ _ _ HLs (enumerate_from_lookup chunks 1 i ckeys Hi) Hl)
    as Hg. simpl in Hg.
  destruct (chunk_lines_spec pid um edges (length chunks) (S i) ckeys
              (Hsub ckeys (proj1 (list_elem_of_In _ _) (list_elem_of_lookup_2 _ _ _ Hi))))
    as [ls' [E P]].
  rewrite E in Hg. injection Hg as <-.
  split; [exact (Forall_lookup_1 _ _ _ _ Hle Hi) | exact P].
Qed.

Lemma render_chunks_bound_witness :
  0 < MAX_USECASES_PER_DIAGRAM /\
  exists chunks Ls,
    _chunk (dict_keys [(s "export reports", Build_usecase_entry (s "Export reports") [] [])])
      MAX_USECASES_PER_DIAGRAM = Some chunks /\
    render_chunk_lines MAX_USECASES_PER_DIAGRAM (s "p1")
      [(s "export reports", Build_usecase_entry (s "Export reports") [] [])]
      [(s "admin", s "export reports")] = Some Ls.
Proof.
  assert (Hk : 0 < MAX_USECASES_PER_DIAGRAM) by (unfold MAX_USECASES_PER_DIAGRAM; lia).
  split; [exact Hk|].
  destruct (render_chunks_bound MAX_USECASES_PER_DIAGRAM (s "p1")
              [(s "export reports", Build_usecase_entry (s "Export reports") [] [])]
              [s "admin"] [(s "admin", s "export reports")] Hk)
    as [chunks [Ls [H1 [_ [_ [H4 _]]]]]].
  exists chunks, Ls. split; [exact H1 | exact H4].
Defined.

End UseCaseFacts.

(* ------------------------------------------------------------------ *)
(** ** cluster_and_summarize_stories *)
Module ClusterFacts.
Import PyText PyLib PyLibFacts Cluster.

(** *** Grouping by label *)

Lemma group_add_perm groups label i :
  concat (map snd (group_add groups label i)) ≡ₚ concat (map snd groups) ++ [i].
Proof.
  induction groups as [|[l items] t IH]; simpl; [reflexivity|].
  destruct (Z.eqb l label); simpl.
  - rewrite <- !app_assoc. apply Permutation_app_head.
    apply Permutation_app_comm.
  - rewrite IH, app_assoc. reflexivity.
Qed.

Lemma group_by_label_perm labels groups locs groups' :
  group_by_label labels groups locs = Some groups' ->
  concat (map snd groups') ≡ₚ concat (map snd groups) ++ locs.
Proof.
  revert groups. induction locs as [|i t IH]; intros groups; simpl.
  - intros [= <-]. rewrite app_nil_r. reflexivity.
  - destruct (labels !! i) as [l|]; [|discriminate]. intros H.
    rewrite (IH _ H), group_add_perm, <- app_assoc. reflexivity.
Qed.

(** *** Popping [full_sentence] *)

Lemma pop_idem v : pop_full_sentence (pop_full_sentence v) = pop_full_sentence v.
Proof. destruct v; reflexivity. Qed.

Lemma pop_id v : _id (pop_full_sentence v) = _id v.
Proof. destruct v; reflexivity. Qed.

Lemma pops_lookup (items : list nat) (st : store) l :
  (In l items ->
   fold_left (fun s l => alter pop_full_sentence l s) items st !! l = pop_full_sentence <$> st !! l) /\
  (~ In l items ->
   fold_left (fun s l => alter pop_full_sentence l s) items st !! l = st !! l).
Proof.
  unfold store in *.
  revert st. induction items as [|x t IH]; intros st; simpl; [split; tauto|].
  destruct (IH (alter pop_full_sentence x st)) as [IH1 IH2].
  destruct (decide (x = l)) as [->|Hne].
  - split; [|tauto]. intros _.
    destruct (in_dec Nat.eq_dec l t) as [Hin|Hn].
    + rewrite (IH1 Hin), list_lookup_alter_eq.
      destruct (st !! l); simpl; [rewrite pop_idem|]; reflexivity.
    + rewrite (IH2 Hn), list_lookup_alter_eq. reflexivity.
  - rewrite list_lookup_alter_ne in IH1, IH2 by exact Hne. split.
    + intros [H | H]; [congruence | auto].
    + intros H. apply IH2. tauto.
Qed.

Lemma pops_length (items : list nat) (st : store) :
  length (fold_left (fun s l => alter pop_full_sentence l s) items st) = length st.
Proof.
  revert st. induction items as [|x t IH]; intros st; simpl; [reflexivity|].
  rewrite IH. apply length_alter.
Qed.

(** *** Lists, lookups and [omap] *)

Lemma lookup_map_opt {A B} (f : A -> B) (l : list A) i : map f l !! i = f <$> l !! i.
Proof. revert i. induction l as [|x t IH]; intros [|i]; simpl; auto. Qed.

Lemma omap_map_eq {A B C} (f : A -> option B) (g : B -> option C) (h : A -> C) xs ys zs :
  omap f xs = Some ys -> omap g ys = Some zs ->
  (forall x y z, In x xs -> f x = Some y -> g y = Some z -> z = h x) -> zs = map h xs.
Proof.
  revert ys zs. induction xs as [|x t IH]; intros ys zs; simpl.
  - intros [= <-]. simpl. intros [= <-]. reflexivity.
  - destruct (f x) as [y|] eqn:Ef; [|discriminate].
    destruct (omap f t) as [ys'|] eqn:Et; [|discriminate]. intros [= <-]. simpl.
    destruct (g y) as [z|] eqn:Eg; [|discriminate].
    destruct (omap g ys') as [zs'|] eqn:Eg2; [|discriminate]. intros [= <-] H.
    f_equal; [eapply H; [left; reflexivity | exact Ef | exact Eg]|].
    eapply IH; [reflexivity | exact Eg2 |].
    intros x' y' z' Hx. apply H. right; exact Hx.
Qed.

(** *** [stories.index(item)] *)

Lemma find_first_true f ps p : find_first f ps = Some p -> f p = true /\ In p ps.
Proof.
  induction ps as [|q t IH]; simpl; [discriminate|].
  destruct (f q) eqn:E; [intros [= <-]; auto|]. intros H. destruct (IH H); auto.
Qed.

Lemma py_index_spec st loc p :
  py_index st loc = Some p -> st !! p = st !! loc /\ is_Some (st !! loc).
Proof.
  unfold py_index. destruct (st !! loc) as [v|] eqn:E; [|discriminate].
  intros H. apply find_first_true in H as [H _]. apply bool_decide_eq_true in H.
  split; [exact H | eexists; reflexivity].
Qed.

(** *** [np.argmax] *)

Lemma argmax_from_spec (xs : list Q) t : forall i best bv,
  drop i xs = t -> best < i -> xs !! best = Some bv ->
  (forall j x, j < i -> xs !! j = Some x -> Qle x bv) ->
  (forall j x, j < best -> xs !! j = Some x -> Qlt x bv) ->
  exists v, xs !! argmax_from i best bv t = Some v /\
    (forall j x, xs !! j = Some x -> Qle x v) /\
    (forall j x, j < argmax_from i best bv t -> xs !! j = Some x -> Qlt x v).
Proof.
  induction t as [|y t IH]; intros i best bv Hd Hb Hbv Hle Hlt; simpl.
  - exists bv. split; [exact Hbv|]. split; [|exact Hlt].
    intros j x Hj. destruct (decide (j < i)) as [Hji|Hji]; [eauto|].
    assert (length xs <= i).
    { apply (f_equal length) in Hd. rewrite length_drop in Hd. simpl in Hd. lia. }
    apply lookup_lt_Some in Hj. lia.
  - assert (Hy : xs !! i = Some y).
    { pose proof (lookup_drop xs i 0) as E. rewrite Hd, Nat.add_0_r in E.
      simpl in E. congruence. }
    assert (Hd' : drop (S i) xs = t).
    { replace (S i) with (i + 1) by lia. rewrite <- drop_drop, Hd. reflexivity. }
    destruct (Qlt_le_dec bv y) as [Hy'|Hy'].
    + apply IH; auto.
      * intros j x Hj Hx. destruct (decide (j = i)) as [->|Hne].
        -- rewrite Hy in Hx. injection Hx as ->. apply Qle_refl.
        -- apply Qlt_le_weak. apply Qle_lt_trans with bv; [apply (Hle j); auto; lia | exact Hy'].
      * intros j x Hj Hx. apply Qle_lt_trans with bv; [apply (Hle j); auto; lia | exact Hy'].
    + apply IH; auto.
      intros j x Hj Hx. destruct (decide (j = i)) as [->|Hne].
      * rewrite Hy in Hx. injection Hx as ->. exact Hy'.
      * apply (Hle j); auto. lia.
Qed.

Lemma argmax_spec (xs : list Q) :
  xs <> [] ->
  exists v, xs !! argmax xs = Some v /\
    (forall j x, xs !! j = Some x -> Qle x v) /\
    (forall j x, j < argmax xs -> xs !! j = Some x -> Qlt x v).
Proof.
  destruct xs as [|x t]; [congruence|]. intros _. unfold argmax.
  apply argmax_from_spec; auto.
  - intros j y Hj Hy. assert (j = 0) as -> by lia. injection Hy as ->. apply Qle_refl.
  - intros j y Hj. lia.
Qed.

(** *** [output_clusters.sort(key=size, reverse=True)] *)

Definition size_ge (a b : out_cluster) : Prop := size b <= size a.

Lemma insert_by_size_perm c cs : insert_by_size c cs ≡ₚ c :: cs.
Proof.
  induction cs as [|d t IH]; simpl; [reflexivity|].
  destruct (size d <? size c); [reflexivity|].
  rewrite IH. apply perm_swap.
Qed.

Lemma sort_by_size_desc_perm cs : sort_by_size_desc cs ≡ₚ cs.
Proof.
  unfold sort_by_size_desc.
  assert (H : forall acc, fold_left (fun acc c => insert_by_size c acc) cs acc ≡ₚ cs ++ acc).
  { induction cs as [|c t IH]; intros acc; simpl; [reflexivity|].
    rewrite IH, insert_by_size_perm. symmetry. apply Permutation_middle. }
  rewrite H, app_nil_r. reflexivity.
Qed.

Lemma insert_by_size_sorted c cs :
  Sorted size_ge cs -> Sorted size_ge (insert_by_size c cs).
Proof.
  induction cs as [|d t IH]; simpl; intros H; [repeat constructor|].
  destruct (size d <? size c) eqn:E.
  - apply Nat.ltb_lt in E. constructor; [exact H|]. constructor. unfold size_ge. lia.
  - apply Nat.ltb_ge in E. apply Sorted_inv in H as [Ht Hh].
    constructor; [apply IH, Ht|].
    destruct t as [|e t']; simpl.
    + constructor. unfold size_ge. lia.
    + destruct (size e <? size c); constructor; unfold size_ge; [lia|].
      inversion Hh; assumption.
Qed.

Lemma sort_by_size_desc_sorted cs : Sorted size_ge (sort_by_size_desc cs).
Proof.
  unfold sort_by_size_desc.
  assert (H : forall acc, Sorted size_ge acc ->
            Sorted size_ge (fold_left (fun acc c => insert_by_size c acc) cs acc)).
  { induction cs as [|c t IH]; intros acc Hacc; simpl; [exact Hacc|].
    apply IH, insert_by_size_sorted, Hacc. }
  apply H. constructor.
Qed.

Lemma firstn_sorted {A} (R : A -> A -> Prop) n l : Sorted R l -> Sorted R (firstn n l).
Proof.
  revert n. induction l as [|x t IH]; intros [|n] H; simpl; [constructor..|].
  apply Sorted_inv in H as [Ht Hh]. constructor; [apply IH, Ht|].
  destruct t as [|y t']; destruct n; simpl; constructor. inversion Hh; assumption.
Qed.

(** *** The loop over the groups *)

Lemma pops_what (items : list nat) (st : store) l :
  option_map what (fold_left (fun s l => alter pop_full_sentence l s) items st !! l)
  = option_map what (st !! l).
Proof.
  destruct (pops_lookup items st l) as [H1 H2].
  destruct (in_dec Nat.eq_dec l items) as [Hin|Hn].
  - rewrite (H1 Hin). destruct (st !! l); reflexivity.
  - rewrite (H2 Hn). reflexivity.
Qed.

(** *** Disjoint members *)

Lemma NoDup_concat_disjoint {A} (L : list (list A)) i j a b x :
  NoDup (concat L) -> i <> j -> L !! i = Some a -> L !! j = Some b -> In x a -> ~ In x b.
Proof.
  revert i j. induction L as [|y t IH]; intros i j Hnd Hij Ha Hb Hx; [discriminate|].
  simpl in Hnd. apply NoDup_app in Hnd as [Hy [Hdis Ht]].
  assert (Hin : forall k c, t !! k = Some c -> In x c -> In x (concat t)).
  { intros k c Hk Hc. apply in_concat. exists c. split; [|exact Hc].
    apply list_elem_of_In. eapply list_elem_of_lookup_2. exact Hk. }
  destruct i as [|i]; destruct j as [|j]; simpl in Ha, Hb.
  - congruence.
  - injection Ha as <-. intros Hxb. apply (Hdis x); apply list_elem_of_In; [exact Hx|].
    eapply Hin; eauto.
  - injection Hb as <-. intros Hxb. apply (Hdis x); apply list_elem_of_In; [exact Hxb|].
    eapply Hin; eauto.
  - apply (IH i j Ht); [lia | exact Ha | exact Hb | exact Hx].
Qed.

Lemma concat_map_perm {A B} (f : A -> list B) l l' :
  l ≡ₚ l' -> concat (map f l) ≡ₚ concat (map f l').
Proof. intros H. rewrite <- !flat_map_concat_map. apply Permutation_flat_map, H. Qed.

Lemma concat_map_firstn_skipn {A B} (f : A -> list B) n l :
  concat (map f l) = concat (map f (firstn n l)) ++ concat (map f (skipn n l)).
Proof. rewrite <- concat_app, <- map_app, firstn_skipn. reflexivity. Qed.

Section Service.
Variable encode : pystr -> list Q.
Variable cosine_similarity : list Q -> list Q -> Q.

Lemma process_cluster_spec st0 st label items c st' :
  (forall l, option_map what (st !! l) = option_map what (st0 !! l)) ->
  process_cluster cosine_similarity (_vectorize_stories encode st0) st label items = Some (c, st') ->
  cluster_id c = label /\ stories c = items /\ size c = length items /\
  In (representative_story c) items /\
  (let embs := map (fun l => nth l (_vectorize_stories encode st0) []) items in
   let sims := map (fun e => cosine_similarity e (np_mean embs)) embs in
   exists k v, items !! k = Some (representative_story c) /\ sims !! k = Some v /\
     (forall j x, sims !! j = Some x -> Qle x v) /\
     (forall j x, j < k -> sims !! j = Some x -> Qlt x v)) /\
  st' = fold_left (fun s l => alter pop_full_sentence l s) items st.
Proof.
  intros Hw. unfold process_cluster.
  destruct (omap (py_index st) items) as [idxs|] eqn:Ei; [|discriminate].
  destruct (omap (fun p => _vectorize_stories encode st0 !! p) idxs) as [cembs|] eqn:Ee;
    [|discriminate].
  assert (Hc : cembs = map (fun l => nth l (_vectorize_stories encode st0) []) items).
  { eapply omap_map_eq; [exact Ei | exact Ee|].
    intros l p e _ Hp He. apply py_index_spec in Hp as [Hp [v Hv]].
    unfold _vectorize_stories in *. rewrite lookup_map_opt in He.
    pose proof (Hw p) as Hwp. pose proof (Hw l) as Hwl.
    rewrite Hp, Hv in Hwp. rewrite Hv in Hwl.
    destruct (st0 !! p) as [w|] eqn:Ep; [|discriminate].
    destruct (st0 !! l) as [w'|] eqn:El; [|discriminate].
    unfold store in *. rewrite Ep in He. simpl in He, Hwp, Hwl. injection He as <-.
    rewrite (nth_lookup_Some _ _ _ (encode (what w'))); [congruence|].
    rewrite lookup_map_opt, El. reflexivity. }
  subst cembs.
  set (embs := map (fun l => nth l (_vectorize_stories encode st0) []) items).
  set (sims := map (fun e => cosine_similarity e (np_mean embs)) embs).
  destruct (items !! argmax sims) as [rep|] eqn:Er; [|discriminate].
  destruct (omap (fun l => option_map source (st !! l)) items) as [srcs|]; [|discriminate].
  intros [= <- <-]. simpl.
  split; [reflexivity|]. split; [reflexivity|]. split; [reflexivity|].
  split; [eapply list_elem_of_In, list_elem_of_lookup_2; exact Er|].
  split; [|reflexivity].
  assert (Hne : sims <> []).
  { intros E. apply lookup_lt_Some in Er.
    assert (length sims = length items) by (unfold sims, embs; rewrite !length_map; reflexivity).
    rewrite E in *. simpl in *. lia. }
  destruct (argmax_spec sims Hne) as [v [Hv [Hle Hlt]]].
  exists (argmax sims), v. auto.
Qed.

Lemma process_clusters_spec st0 st groups cs st' :
  (forall l, option_map what (st !! l) = option_map what (st0 !! l)) ->
  process_clusters cosine_similarity (_vectorize_stories encode st0) st groups = Some (cs, st') ->
  concat (map stories cs) = concat (map snd groups) /\
  Forall (fun c =>
    size c = length (stories c) /\ In (representative_story c) (stories c) /\
    In (cluster_id c, stories c) groups /\
    (let embs := map (fun l => nth l (_vectorize_stories encode st0) []) (stories c) in
     let sims := map (fun e => cosine_similarity e (np_mean embs)) embs in
     exists k v, stories c !! k = Some (representative_story c) /\ sims !! k = Some v /\
       (forall j x, sims !! j = Some x -> Qle x v) /\
       (forall j x, j < k -> sims !! j = Some x -> Qlt x v))) cs /\
  (forall l, (In l (concat (map snd groups)) -> st' !! l = pop_full_sentence <$> st !! l) /\
             (~ In l (concat (map snd groups)) -> st' !! l = st !! l)).
Proof.
  revert st cs. induction groups as [|[label items] t IH]; intros st cs Hw; simpl.
  - intros [= <- <-]. simpl. split; [reflexivity|]. split; [constructor|]. tauto.
  - destruct items as [|i items'] eqn:Eit.
    + intros H. destruct (IH st cs Hw H) as [H1 [H2 H3]].
      split; [exact H1|]. split.
      * eapply Forall_impl; [exact H2|]. simpl. intros c [? [? [? ?]]]; tauto.
      * exact H3.
    + rewrite <- Eit.
      destruct (process_cluster cosine_similarity (_vectorize_stories encode st0) st label items)
        as [[c st1]|] eqn:Ep; [|discriminate].
      destruct (process_clusters cosine_similarity (_vectorize_stories encode st0) st1 t)
        as [[cs' st2]|] eqn:Eps; [|discriminate].
      intros [= <- <-].
      destruct (process_cluster_spec _ _ _ _ _ _ Hw Ep) as [Hid [Hst [Hsz [Hrep [Hsim ->]]]]].
      assert (Hw1 : forall l, option_map what
                (fold_left (fun s l => alter pop_full_sentence l s) items st !! l)
                = option_map what (st0 !! l)).
      { intros l. rewrite pops_what. apply Hw. }
      destruct (IH _ _ Hw1 Eps) as [H1 [H2 H3]].
      split; [simpl; rewrite H1, Hst; reflexivity|]. split.
      * constructor.
        -- rewrite Hst, Hsz, Hid. split; [reflexivity|]. split; [exact Hrep|].
           split; [left; reflexivity | exact Hsim].
        -- eapply Forall_impl; [exact H2|]. simpl. intros c' [? [? [? ?]]]; tauto.
      * intros l. destruct (H3 l) as [H3a H3b].
        destruct (pops_lookup items st l) as [P1 P2]. split.
        -- intros Hl. apply in_app_iff in Hl.
           destruct (in_dec Nat.eq_dec l (concat (map snd t))) as [Ht|Ht].
           ++ rewrite (H3a Ht). destruct (in_dec Nat.eq_dec l items) as [Hi|Hi].
              ** rewrite (P1 Hi). destruct (st !! l); simpl; [rewrite pop_idem|]; reflexivity.
              ** rewrite (P2 Hi). reflexivity.
           ++ rewrite (H3b Ht). apply P1. tauto.
        -- intros Hl. rewrite in_app_iff in Hl. rewrite (H3b ltac:(tauto)). apply P2. tauto.
Qed.

(** *** The whole service *)

Variable fit : list (list Q) -> Q -> option (list Z).

Lemma cluster_and_summarize_spec st t cs st' :
  cluster_and_summarize_stories encode cosine_similarity fit st t = Some (cs, st') ->
  exists all,
    cs = firstn 10 (sort_by_size_desc all) /\
    concat (map stories all) ≡ₚ seq 0 (length st) /\
    Forall (fun c =>
      size c = length (stories c) /\ In (representative_story c) (stories c) /\
      (let embs := map (fun l => nth l (_vectorize_stories encode st) []) (stories c) in
       let sims := map (fun e => cosine_similarity e (np_mean embs)) embs in
       exists k v, stories c !! k = Some (representative_story c) /\ sims !! k = Some v /\
         (forall j x, sims !! j = Some x -> Qle x v) /\
         (forall j x, j < k -> sims !! j = Some x -> Qlt x v))) all /\
    (forall l, st' !! l = pop_full_sentence <$> st !! l).
Proof.
  unfold cluster_and_summarize_stories. destruct st as [|v0 vs] eqn:Est.
  - intros [= <- <-]. exists []. simpl. split; [reflexivity|]. split; [reflexivity|].
    split; [constructor|]. intros [|l]; reflexivity.
  - rewrite <- Est.
    destruct (fit (_vectorize_stories encode st) t) as [labels|]; [|discriminate].
    destruct (group_by_label labels [] (seq 0 (length st))) as [groups|] eqn:Eg;
      [|discriminate].
    destruct (process_clusters cosine_similarity (_vectorize_stories encode st) st groups)
      as [[all st1]|] eqn:Ep; [|discriminate].
    intros [= <- <-].
    apply group_by_label_perm in Eg. simpl in Eg.
    destruct (process_clusters_spec st st groups all st1 (fun l => eq_refl) Ep)
      as [H1 [H2 H3]].
    exists all. split; [reflexivity|]. rewrite H1. split; [exact Eg|]. split.
    + eapply Forall_impl; [exact H2|]. simpl. intros c [? [? [? ?]]]; tauto.
    + intros l. destruct (H3 l) as [H3a H3b].
      destruct (in_dec Nat.eq_dec l (concat (map snd groups))) as [Hin|Hn].
      * apply H3a, Hin.
      * rewrite (H3b Hn).
        assert (Hl : length st <= l).
        { destruct (decide (l < length st)) as [Hlt|]; [|lia].
          exfalso. apply Hn. eapply Permutation_in; [symmetry; exact Eg|].
          apply in_seq. lia. }
        unfold store in *. rewrite (lookup_ge_None_2 st l Hl). reflexivity.
Qed.

(** C1 (corrected).  The list returned by [cluster_and_summarize_stories]
    is sorted by descending [size], but it is not the whole sorted list of
    the clusters formed: the function itself keeps the first ten, the
    clusters ranked eleventh and beyond are dropped inside the clustering
    call.  Precisely: for the list [all] of clusters formed (one per label,
    together covering every input record), the result is
    [firstn 10] of the stable descending-size sort of [all]. *)
Theorem cluster_result_sorted_top10 st t cs st' :
  cluster_and_summarize_stories encode cosine_similarity fit st t = Some (cs, st') ->
  exists all,
    concat (map stories all) ≡ₚ seq 0 (length st) /\
    Forall (fun c => size c = length (stories c)) all /\
    sort_by_size_desc all ≡ₚ all /\
    Sorted (fun a b => size b <= size a) (sort_by_size_desc all) /\
    cs = firstn 10 (sort_by_size_desc all) /\
    Sorted (fun a b => size b <= size a) cs /\
    length cs = Nat.min 10 (length all).
Proof.
  intros H. destruct (cluster_and_summarize_spec _ _ _ _ H) as [all [Hcs [Hp [Hf _]]]].
  exists all. split; [exact Hp|]. split.
  { eapply Forall_impl; [exact Hf|]. simpl. tauto. }
  split; [apply sort_by_size_desc_perm|].
  split; [apply sort_by_size_desc_sorted|].
  split; [exact Hcs|]. split.
  - rewrite Hcs. apply firstn_sorted, sort_by_size_desc_sorted.
  - rewrite Hcs, length_firstn, (Permutation_length (sort_by_size_desc_perm all)).
    reflexivity.
Qed.

(** C2 (corrected).  The clusters returned by [cluster_and_summarize_stories]
    are pairwise disjoint, have no repeated member, hold only input records
    and have [size] equal to their number of members.  The clusters formed
    ([all]) are non-empty and partition the records, and the result is the
    first ten of them by descending size, so the returned clusters cover
    every input record if and only if at most ten clusters are formed. *)
Theorem cluster_partition_upto_ten st t cs st' :
  cluster_and_summarize_stories encode cosine_similarity fit st t = Some (cs, st') ->
  NoDup (concat (map stories cs)) /\
  (forall i j ci cj l, i <> j -> cs !! i = Some ci -> cs !! j = Some cj ->
     In l (stories ci) -> ~ In l (stories cj)) /\
  Forall (fun c => size c = length (stories c) /\ Forall (fun l => l < length st) (stories c)) cs /\
  exists all,
    cs = firstn 10 (sort_by_size_desc all) /\
    concat (map stories all) ≡ₚ seq 0 (length st) /\
    Forall (fun c => stories c <> []) all /\
    (concat (map stories cs) ≡ₚ seq 0 (length st) <-> length all <= 10).
Proof.
  intros H. destruct (cluster_and_summarize_spec _ _ _ _ H) as [all [Hcs [Hp [Hf _]]]].
  assert (Hsp : concat (map stories (sort_by_size_desc all)) ≡ₚ seq 0 (length st)).
  { rewrite (concat_map_perm stories _ _ (sort_by_size_desc_perm all)). exact Hp. }
  pose proof (concat_map_firstn_skipn stories 10 (sort_by_size_desc all)) as Hsplit.
  rewrite <- Hcs in Hsplit.
  assert (Hnd : NoDup (concat (map stories cs))).
  { assert (Hall : NoDup (concat (map stories (sort_by_size_desc all)))).
    { apply NoDup_ListNoDup.
      eapply Permutation_NoDup; [symmetry; exact Hsp | apply seq_NoDup]. }
    rewrite Hsplit in Hall. apply NoDup_app in Hall. tauto. }
  assert (Hin : forall c, In c cs -> In c all).
  { intros c Hc. eapply Permutation_in; [apply sort_by_size_desc_perm|].
    rewrite <- (firstn_skipn 10 (sort_by_size_desc all)), <- Hcs.
    apply in_app_iff. left; exact Hc. }
  split; [exact Hnd|]. split.
  { intros i j ci cj l Hij Hi Hj Hl.
    eapply (NoDup_concat_disjoint (map stories cs) i j); [exact Hnd | exact Hij | | | exact Hl].
    - rewrite lookup_map_opt, Hi. reflexivity.
    - rewrite lookup_map_opt, Hj. reflexivity. }
  split.
  { apply List.Forall_forall. intros c Hc.
    rewrite List.Forall_forall in Hf. destruct (Hf c (Hin c Hc)) as [Hsz _].
    split; [exact Hsz|]. apply List.Forall_forall. intros l Hl.
    assert (Hl' : In l (seq 0 (length st))).
    { eapply Permutation_in; [exact Hsp|]. rewrite Hsplit. apply in_app_iff. left.
      apply in_concat. exists (stories c). split; [apply in_map, Hc | exact Hl]. }
    apply in_seq in Hl'. lia. }
  exists all. split; [exact Hcs|]. split; [exact Hp|].
  assert (Hne : Forall (fun c => stories c <> []) all).
  { eapply Forall_impl; [exact Hf|]. simpl. intros c [_ [Hrep _]] E.
    rewrite E in Hrep. exact Hrep. }
  split; [exact Hne|]. split.
  - intros Hcov. destruct (Nat.le_gt_cases (length all) 10) as [Hle | Hgt]; [exact Hle|].
    exfalso.
    destruct (skipn 10 (sort_by_size_desc all)) as [|c' rest'] eqn:Esk.
    { apply (f_equal (@length _)) in Esk. rewrite length_skipn in Esk. simpl in Esk.
      rewrite (Permutation_length (sort_by_size_desc_perm all)) in Esk. lia. }
    assert (Hc' : In c' all).
    { eapply Permutation_in; [apply sort_by_size_desc_perm|].
      rewrite <- (firstn_skipn 10 (sort_by_size_desc all)), Esk.
      apply in_app_iff. right. left. reflexivity. }
    rewrite List.Forall_forall in Hne.
    destruct (stories c') as [|l ls] eqn:Ec'; [exact (Hne c' Hc' Ec')|].
    assert (Hl2 : In l (concat (map stories (c' :: rest')))).
    { simpl. rewrite Ec'. apply in_app_iff. left. left. reflexivity. }
    assert (Hl1 : In l (concat (map stories cs))).
    { eapply Permutation_in; [symmetry; exact Hcov|].
      eapply Permutation_in; [exact Hsp|]. rewrite Hsplit. apply in_app_iff. right. exact Hl2. }
    assert (Hall : NoDup (concat (map stories (sort_by_size_desc all)))).
    { apply NoDup_ListNoDup.
      eapply Permutation_NoDup; [symmetry; exact Hsp | apply seq_NoDup]. }
    rewrite Hsplit in Hall. apply NoDup_app in Hall as [_ [Hdis _]].
    apply (Hdis l); apply list_elem_of_In; assumption.
  - intros Hle. rewrite Hcs, firstn_all2; [exact Hsp|].
    rewrite (Permutation_length (sort_by_size_desc_perm all)). lia.
Qed.

(** C6.  For every cluster returned by [cluster_and_summarize_stories],
    the representative is one of its members, at a position [k] whose
    cosine similarity to the centroid (the mean of the members'
    embeddings) is at least that of every member and strictly greater than
    that of every member before position [k]: a most similar member, the
    first one on ties. *)
Theorem cluster_representative_closest st t cs st' :
  cluster_and_summarize_stories encode cosine_similarity fit st t = Some (cs, st') ->
  forall c, In c cs ->
    In (representative_story c) (stories c) /\
    (let embs := map (fun l => nth l (_vectorize_stories encode st) []) (stories c) in
     let sims := map (fun e => cosine_similarity e (np_mean embs)) embs in
     exists k v, stories c !! k = Some (representative_story c) /\ sims !! k = Some v /\
       (forall j x, sims !! j = Some x -> Qle x v) /\
       (forall j x, j < k -> sims !! j = Some x -> Qlt x v)).
Proof.
  intros H c Hc. destruct (cluster_and_summarize_spec _ _ _ _ H) as [all [Hcs [_ [Hf _]]]].
  assert (Hin : In c all).
  { eapply Permutation_in; [apply sort_by_size_desc_perm|].
    rewrite <- (firstn_skipn 10 (sort_by_size_desc all)), <- Hcs.
    apply in_app_iff. left; exact Hc. }
  rewrite List.Forall_forall in Hf. destruct (Hf c Hin) as [_ [Hrep Hsim]].
  split; [exact Hrep | exact Hsim].
Qed.

(** C10.  After [cluster_and_summarize_stories], every member of every
    returned cluster, the representative included (it is a member, the
    same record), is the input record with [full_sentence] removed and
    all its other fields unchanged. *)
Theorem cluster_members_popped st t cs st' :
  cluster_and_summarize_stories encode cosine_similarity fit st t = Some (cs, st') ->
  forall c, In c cs ->
    In (representative_story c) (stories c) /\
    forall l, In l (stories c) ->
      exists v, st !! l = Some v /\ st' !! l = Some (pop_full_sentence v) /\
        full_sentence (pop_full_sentence v) = None /\
        pop_full_sentence v = {| _id := _id v; who := who v; what := what v; why := why v;
          full_sentence := None; similarity_score := similarity_score v;
          source := source v; source_id := source_id v; project_id := project_id v |}.
Proof.
  intros H c Hc. destruct (cluster_and_summarize_spec _ _ _ _ H) as [all [Hcs [Hp [Hf Hst]]]].
  assert (Hin : In c all).
  { eapply Permutation_in; [apply sort_by_size_desc_perm|].
    rewrite <- (firstn_skipn 10 (sort_by_size_desc all)), <- Hcs.
    apply in_app_iff. left; exact Hc. }
  rewrite List.Forall_forall in Hf. destruct (Hf c Hin) as [_ [Hrep _]].
  split; [exact Hrep|]. intros l Hl.
  assert (Hlt : l < length st).
  { assert (Hl' : In l (seq 0 (length st))).
    { eapply Permutation_in; [exact Hp|].
      apply in_concat. exists (stories c). split; [apply in_map, Hin | exact Hl]. }
    apply in_seq in Hl'. lia. }
  unfold store in *.
  destruct (lookup_lt_is_Some_2 st l Hlt) as [v Hv].
  exists v. rewrite Hst, Hv. auto.
Qed.

End Service.

(** *** Concrete runs *)

Section Examples.
Import ClusterExample.

(** C1, counterexample to "no truncation inside the clustering call":
    eleven stories with pairwise orthogonal embeddings (cosine distance 1)
    and the default threshold 0.5 are given eleven labels, one cluster each,
    but [cluster_and_summarize_stories] returns only ten clusters. *)
Lemma cluster_drops_clusters_past_ten :
  fit_cosine (_vectorize_stories encode11 stories11) (1#2) = Some (map Z.of_nat (seq 0 11)) /\
  exists cs st',
    cluster_and_summarize_stories encode11 dot fit_cosine stories11 (1#2) = Some (cs, st') /\
    length cs = 10.
Proof.
  split; [vm_compute; reflexivity|].
  eexists _, _. split; [cbv; reflexivity|]. reflexivity.
Qed.

(** C2, counterexample to "every input record belongs to a returned
    cluster": on the same eleven stories, the record at position 10 is in
    none of the returned clusters. *)
Lemma cluster_record_in_no_cluster :
  exists cs st',
    cluster_and_summarize_stories encode11 dot fit_cosine stories11 (1#2) = Some (cs, st') /\
    10 < length stories11 /\
    forall c, In c cs -> ~ In 10 (stories c).
Proof.
  eexists _, _. split; [cbv; reflexivity|]. split; [vm_compute; lia|].
  intros c Hc. simpl in Hc.
  repeat (destruct Hc as [<- | Hc]; [simpl; lia|]). destruct Hc.
Qed.

Lemma cluster_result_sorted_top10_witness :
  exists cs st',
    cluster_and_summarize_stories encode3 dot fit_cosine stories3 (1#2) = Some (cs, st') /\
    exists all,
      concat (map stories all) ≡ₚ seq 0 (length stories3) /\
      Forall (fun c => size c = length (stories c)) all /\
      sort_by_size_desc all ≡ₚ all /\
      Sorted (fun a b => size b <= size a) (sort_by_size_desc all) /\
      cs = firstn 10 (sort_by_size_desc all) /\
      Sorted (fun a b => size b <= size a) cs /\
      length cs = Nat.min 10 (length all).
Proof.
  eexists _, _. split; [cbv; reflexivity|].
  eapply (cluster_result_sorted_top10 encode3 dot fit_cosine stories3 (1#2)).
  reflexivity.
Defined.

Lemma cluster_partition_upto_ten_witness :
  exists cs st',
    cluster_and_summarize_stories encode3 dot fit_cosine stories3 (1#2) = Some (cs, st') /\
    NoDup (concat (map stories cs)) /\
    (forall i j ci cj l, i <> j -> cs !! i = Some ci -> cs !! j = Some cj ->
       In l (stories ci) -> ~ In l (stories cj)) /\
    Forall (fun c => size c = length (stories c) /\
                     Forall (fun l => l < length stories3) (stories c)) cs /\
    exists all,
      cs = firstn 10 (sort_by_size_desc all) /\
      concat (map stories all) ≡ₚ seq 0 (length stories3) /\
      Forall (fun c => stories c <> []) all /\
      (concat (map stories cs) ≡ₚ seq 0 (length stories3) <-> length all <= 10).
Proof.
  eexists _, _. split; [cbv; reflexivity|].
  eapply (cluster_partition_upto_ten encode3 dot fit_cosine stories3 (1#2)).
  reflexivity.
Defined.

Lemma cluster_representative_closest_witness :
  exists cs st',
    cluster_and_summarize_stories encode3 dot fit_cosine stories3 (1#2) = Some (cs, st') /\
    forall c, In c cs ->
      In (representative_story c) (stories c) /\
      (let embs := map (fun l => nth l (_vectorize_stories encode3 stories3) []) (stories c) in
       let sims := map (fun e => dot e (np_mean embs)) embs in
       exists k v, stories c !! k = Some (representative_story c) /\ sims !! k = Some v /\
         (forall j x, sims !! j = Some x -> Qle x v) /\
         (forall j x, j < k -> sims !! j = Some x -> Qlt x v)).
Proof.
  eexists _, _. split; [cbv; reflexivity|].
  eapply (cluster_representative_closest encode3 dot fit_cosine stories3 (1#2)).
  reflexivity.
Defined.

Lemma cluster_members_popped_witness :
  exists cs st',
    cluster_and_summarize_stories encode3 dot fit_cosine stories3 (1#2) = Some (cs, st') /\
    forall c, In c cs ->
      In (representative_story c) (stories c) /\
      forall l, In l (stories c) ->
        exists v, stories3 !! l = Some v /\ st' !! l = Some (pop_full_sentence v) /\
          full_sentence (pop_full_sentence v) = None /\
          pop_full_sentence v = {| _id := _id v; who := who v; what := what v; why := why v;
            full_sentence := None; similarity_score := similarity_score v;
            source := source v; source_id := source_id v; project_id := project_id v |}.
Proof.
  eexists _, _. split; [cbv; reflexivity|].
  eapply (cluster_members_popped encode3 dot fit_cosine stories3 (1#2)).
  reflexivity.
Defined.

End Examples.

End ClusterFacts.

(* ------------------------------------------------------------------ *)
(** ** Facts about the agglomerative clustering model *)

Module SklearnFacts.
Import ClusterExample.
Import Sklearn.

Lemma index_pairs_spec m i j : In (i, j) (index_pairs m) -> i < j < m.
Proof.
  unfold index_pairs. rewrite in_flat_map. intros [i' [Hi Hin]].
  apply in_map_iff in Hin as [j' [[= <- <-] Hj]].
  apply in_seq in Hi. apply in_seq in Hj. lia.
Qed.

Lemma index_pairs_nonempty m : 2 <= m -> index_pairs m <> [].
Proof.
  intros Hm E. assert (H : In (0, 1) (index_pairs m)).
  { unfold index_pairs. apply in_flat_map. exists 0. split; [apply in_seq; lia|].
    apply in_map_iff. exists 1. split; [reflexivity | apply in_seq; lia]. }
  rewrite E in H. destruct H.
Qed.

Section Linkage.
Variable dist : list Q -> list Q -> Q.
Variable X : list (list Q).

Lemma best_pair_fold m active ps : forall acc,
  (forall i j, In (i, j) ps -> i < j < m) ->
  (acc = None \/ exists i j d, acc = Some (i, j, d) /\ i < j < m) ->
  (ps <> [] \/ acc <> None) ->
  exists i j d,
    fold_left (fun acc '(i, j) =>
      let d := avg_dist dist X (nth i active []) (nth j active []) in
      match acc with
      | Some (_, _, d0) => if Qlt_le_dec d d0 then Some (i, j, d) else acc
      | None => Some (i, j, d)
      end) ps acc = Some (i, j, d) /\ i < j < m.
Proof.
  induction ps as [|[i j] t IH]; intros acc Hps Hacc Hne; simpl.
  - destruct Hacc as [-> | H]; [destruct Hne as [Hne|Hne]; congruence | exact H].
  - apply IH.
    + intros i' j' H. apply Hps. right; exact H.
    + right. assert (Hij : i < j < m) by (apply Hps; left; reflexivity).
      destruct Hacc as [-> | [i0 [j0 [d0 [-> H0]]]]]; [eauto|].
      destruct (Qlt_le_dec _ d0); eauto.
    + right. destruct Hacc as [-> | [i0 [j0 [d0 [-> H0]]]]]; [discriminate|].
      destruct (Qlt_le_dec _ d0); discriminate.
Qed.

Lemma best_pair_spec active :
  2 <= length active ->
  exists i j d, best_pair dist X active = Some (i, j, d) /\ i < j < length active.
Proof.
  intros Hm. unfold best_pair. apply best_pair_fold.
  - apply index_pairs_spec.
  - left; reflexivity.
  - left. apply index_pairs_nonempty, Hm.
Qed.

Lemma length_filter_fst {A B} (h : A -> bool) (L : list (A * B)) :
  length (List.filter (fun p => h (fst p)) L) = length (List.filter h (map fst L)).
Proof. induction L as [|[a b] t IH]; simpl; [reflexivity|]. destruct (h a); simpl; auto. Qed.

Lemma map_fst_combine_seq {B} k (l : list B) : map fst (combine (seq k (length l)) l) = seq k (length l).
Proof. revert k. induction l as [|x t IH]; intros k; simpl; [reflexivity|]. f_equal. apply IH. Qed.

Lemma length_filter_two i j m :
  i <> j ->
  length (List.filter (fun x => negb ((x =? i) || (x =? j))) (seq 0 m))
  = m - (if i <? m then 1 else 0) - (if j <? m then 1 else 0).
Proof.
  intros Hij. induction m as [|m IH]; [reflexivity|].
  rewrite seq_S, List.filter_app, length_app, IH. simpl.
  destruct (Nat.eqb_spec m i), (Nat.eqb_spec m j), (Nat.ltb_spec i m), (Nat.ltb_spec j m),
    (Nat.ltb_spec i (S m)), (Nat.ltb_spec j (S m)); simpl; lia.
Qed.

Lemma merge_step_length active :
  2 <= length active ->
  exists a' d, merge_step dist X active = Some (a', d) /\ length a' = length active - 1.
Proof.
  intros Hm. destruct (best_pair_spec active Hm) as [i [j [d [Hb Hij]]]].
  unfold merge_step. rewrite Hb. eexists _, _. split; [reflexivity|].
  rewrite length_app, length_map. simpl.
  rewrite (length_filter_fst (fun x => negb ((x =? i) || (x =? j)))).
  rewrite map_fst_combine_seq, length_filter_two by lia.
  destruct (Nat.ltb_spec i (length active)), (Nat.ltb_spec j (length active)); lia.
Qed.

Lemma run_merges_length m : forall active,
  1 <= length active -> m <= length active - 1 ->
  length (run_merges dist X m active) = length active - m.
Proof.
  induction m as [|m IH]; intros active H1 Hm; simpl; [lia|].
  destruct (merge_step_length active ltac:(lia)) as [a' [d [-> Hl]]].
  rewrite IH; lia.
Qed.

Lemma merge_distances_length fuel : forall active,
  fuel <= length active - 1 -> length (merge_distances dist X fuel active) = fuel.
Proof.
  induction fuel as [|f IH]; intros active Hf; simpl; [reflexivity|].
  destruct (merge_step_length active ltac:(lia)) as [a' [d [-> Hl]]].
  simpl. rewrite IH; lia.
Qed.

Lemma length_leaves : length (leaves X) = length X.
Proof. unfold leaves. rewrite length_map, length_seq. reflexivity. Qed.

Lemma length_distances_ : length (distances_ dist X) = length X - 1.
Proof. unfold distances_. apply merge_distances_length. rewrite length_leaves. lia. Qed.

Lemma n_clusters_bound t : 1 <= length X -> 1 <= n_clusters_ dist X t <= length X.
Proof.
  intros H. unfold n_clusters_.
  pose proof (List.filter_length_le (fun d => Qle_bool t d) (distances_ dist X)) as Hf.
  rewrite length_distances_ in Hf. lia.
Qed.

Lemma length_clusters_at t :
  1 <= length X -> length (clusters_at dist X t) = n_clusters_ dist X t.
Proof.
  intros H. pose proof (n_clusters_bound t H). unfold clusters_at.
  rewrite run_merges_length; rewrite length_leaves; lia.
Qed.

Lemma count_ge_antitone (t1 t2 : Q) ds :
  Qle t1 t2 ->
  length (List.filter (fun d => Qle_bool t2 d) ds) <= length (List.filter (fun d => Qle_bool t1 d) ds).
Proof.
  intros Ht. induction ds as [|d ds IH]; simpl; [lia|].
  destruct (Qle_bool t2 d) eqn:E2; destruct (Qle_bool t1 d) eqn:E1; simpl; try lia.
  apply Qle_bool_iff in E2. assert (Qle t1 d) by (eapply Qle_trans; eauto).
  apply Qle_bool_iff in H. congruence.
Qed.

(** C9.  On a fixed set of at least two samples, [fit] succeeds at every
    threshold, the number of clusters it forms is [n_clusters_], and a
    larger threshold never gives more clusters. *)
Theorem n_clusters_antitone (t1 t2 : Q) :
  2 <= length X -> Qlt t1 t2 ->
  is_Some (fit_labels dist X t1) /\ is_Some (fit_labels dist X t2) /\
  length (clusters_at dist X t1) = n_clusters_ dist X t1 /\
  length (clusters_at dist X t2) = n_clusters_ dist X t2 /\
  length (clusters_at dist X t2) <= length (clusters_at dist X t1).
Proof.
  intros HX Ht.
  assert (Hfit : forall t, is_Some (fit_labels dist X t)).
  { intros t. unfold fit_labels. destruct (Nat.ltb_spec (length X) 2); [lia|].
    eexists; reflexivity. }
  split; [apply Hfit|]. split; [apply Hfit|].
  rewrite !length_clusters_at by lia.
  split; [reflexivity|]. split; [reflexivity|].
  unfold n_clusters_. apply Nat.add_le_mono_r, count_ge_antitone, Qlt_le_weak, Ht.
Qed.

End Linkage.

Lemma n_clusters_antitone_witness :
  (2 <= length (Cluster._vectorize_stories encode3 stories3) /\ Qlt (1#4) 1) /\
  is_Some (fit_labels (fun u v => Qminus 1 (dot u v)) (Cluster._vectorize_stories encode3 stories3) (1#4)) /\
  is_Some (fit_labels (fun u v => Qminus 1 (dot u v)) (Cluster._vectorize_stories encode3 stories3) 1) /\
  length (clusters_at (fun u v => Qminus 1 (dot u v)) (Cluster._vectorize_stories encode3 stories3) (1#4))
    = n_clusters_ (fun u v => Qminus 1 (dot u v)) (Cluster._vectorize_stories encode3 stories3) (1#4) /\
  length (clusters_at (fun u v => Qminus 1 (dot u v)) (Cluster._vectorize_stories encode3 stories3) 1)
    = n_clusters_ (fun u v => Qminus 1 (dot u v)) (Cluster._vectorize_stories encode3 stories3) 1 /\
  length (clusters_at (fun u v => Qminus 1 (dot u v)) (Cluster._vectorize_stories encode3 stories3) 1)
    <= length (clusters_at (fun u v => Qminus 1 (dot u v)) (Cluster._vectorize_stories encode3 stories3) (1#4)).
Proof.
  split; [split; [vm_compute; lia | reflexivity]|].
  apply n_clusters_antitone; [vm_compute; lia | reflexivity].
Defined.

End SklearnFacts.

(* ------------------------------------------------------------------ *)
(** ** Facts about identify_who_aspect *)

Module AspectFacts.
Import PyText PyLib PyLibFacts Aspect.

Lemma set_add_In xs x y : In y (set_add xs x) <-> In y xs \/ y = x.
Proof.
  unfold set_add. destruct (mem x xs) eqn:E.
  - apply mem_In in E. split; [tauto|]. intros [H | ->]; [exact H | exact E].
  - rewrite in_app_iff. simpl. split; intros [H | H].
    + left; exact H.
    + right. destruct H as [H | []]. symmetry; exact H.
    + left; exact H.
    + right; left. symmetry; exact H.
Qed.

Section Who.
Variable lexnames : pystr -> list pystr.
Variable set_iter : list pystr -> list pystr.
Hypothesis set_iter_perm : forall xs, set_iter xs ≡ₚ xs.

Lemma who_fold_In toks acc y :
  In y (fold_left (fun acc token => if qualifies lexnames token then set_add acc (text token) else acc)
          toks acc) <->
  In y acc \/ exists token, In token toks /\ qualifies lexnames token = true /\ text token = y.
Proof.
  revert acc. induction toks as [|tk t IH]; intros acc; simpl.
  - split; [tauto|]. intros [H | [tk [[] _]]]. exact H.
  - rewrite IH. destruct (qualifies lexnames tk) eqn:Eq.
    + rewrite set_add_In. split.
      * intros [[H | E] | [tk' [H1 H2]]]; [tauto | subst; right; exists tk; auto | right; eauto].
      * intros [H | [tk' [[E | H1] [H2 H3]]]]; [tauto | subst; left; right; reflexivity | eauto].
    + split.
      * intros [H | [tk' [H1 H2]]]; [tauto | right; eauto].
      * intros [H | [tk' [[E | H1] [H2 H3]]]]; [tauto | subst; congruence | eauto].
Qed.

(** What the code does guarantee: the result is the text of some
    qualifying subject/object token, or ["user"] when there is none. *)
Lemma identify_who_candidate toks :
  (identify_who_aspect lexnames set_iter toks = s "user" /\
   forall tk, In tk toks -> mem (dep_ tk) target_dependencies = true ->
     qualifies lexnames tk = false) \/
  exists tk, In tk toks /\ mem (dep_ tk) target_dependencies = true /\
    qualifies lexnames tk = true /\ identify_who_aspect lexnames set_iter toks = text tk.
Proof.
  unfold identify_who_aspect.
  set (acc := fold_left _ _ []).
  assert (Hacc : forall y, In y acc <-> exists tk, In tk toks /\
              mem (dep_ tk) target_dependencies = true /\ qualifies lexnames tk = true /\ text tk = y).
  { intros y. unfold acc. rewrite who_fold_In. split.
    - intros [[] | [tk [H1 H2]]]. apply List.filter_In in H1. exists tk. tauto.
    - intros [tk [H1 [H2 H3]]]. right. exists tk. rewrite List.filter_In. tauto. }
  destruct acc as [|y ys] eqn:Ea.
  - left. split; [reflexivity|]. intros tk H1 H2.
    destruct (qualifies lexnames tk) eqn:Eq; [|reflexivity].
    exfalso. apply (proj2 (Hacc (text tk))). exists tk. auto.
  - right. pose proof (set_iter_perm (y :: ys)) as Hp.
    destruct (set_iter (y :: ys)) as [|z zs] eqn:Es.
    + apply Permutation_nil in Hp. discriminate.
    + simpl. assert (Hz : In z (y :: ys)) by (eapply Permutation_in; [exact Hp | left; reflexivity]).
      apply Hacc in Hz as [tk [H1 [H2 [H3 H4]]]]. exists tk. auto.
Qed.

End Who.

(** C3 (code bug).  On spaCy's parse of "She asked him.", both "She"
    (nsubj) and "him" (dobj) are pronouns and qualify; the first in scan
    order is "She".  The code returns [list(aspect_of_who)[0]], the first
    element in the set's hash order, and an iteration order that lists
    "him" first makes it return "him". *)
Theorem identify_who_not_first_match (lexnames : pystr -> list pystr) :
  who_first_in_scan_order lexnames she_asked_him = s "She" /\
  exists set_iter : list pystr -> list pystr,
    (forall xs, set_iter xs ≡ₚ xs) /\
    identify_who_aspect lexnames set_iter she_asked_him = s "him".
Proof.
  split; [reflexivity|].
  exists (@rev pystr). split; [intros xs; symmetry; apply Permutation_rev | reflexivity].
Qed.

End AspectFacts.

(* ------------------------------------------------------------------ *)
(** ** Facts about extract_user_stories *)

Module ExtractorFacts.
Import PyText PyLib PyLibFacts Extractor.

Lemma existsb_key_In (seen : list (pystr * pystr * pystr * pystr)) key :
  existsb (fun k => bool_decide (k = key)) seen = true <-> In key seen.
Proof.
  rewrite existsb_exists. split.
  - intros [k [Hk Hb]]. apply bool_decide_eq_true in Hb. subst. exact Hk.
  - intros H. exists key. split; [exact H | apply bool_decide_eq_true; reflexivity].
Qed.

Definition has_key (K : pystr * pystr * pystr * pystr) (c : cand) : bool :=
  bool_decide (dedupe_key (raw c) = K).

Lemma dedupe_seen K seen cs :
  In K seen -> List.filter (has_key K) (dedupe_loop seen cs) = [].
Proof.
  revert seen. induction cs as [|c t IH]; intros seen HK; simpl; [reflexivity|].
  destruct (existsb _ seen) eqn:E; [apply IH, HK|].
  simpl. unfold has_key at 1. rewrite bool_decide_eq_false_2.
  - apply IH. right; exact HK.
  - intros Hc. subst K. apply existsb_key_In in HK. congruence.
Qed.

Lemma dedupe_first K seen cs :
  ~ In K seen ->
  List.filter (has_key K) (dedupe_loop seen cs) =
  match List.find (has_key K) cs with Some c => [c] | None => [] end.
Proof.
  revert seen. induction cs as [|c t IH]; intros seen HK; simpl; [reflexivity|].
  destruct (has_key K c) eqn:Ec.
  - unfold has_key in Ec. apply bool_decide_eq_true in Ec.
    destruct (existsb _ seen) eqn:E.
    + apply existsb_key_In in E. congruence.
    + simpl. unfold has_key at 1. rewrite bool_decide_eq_true_2 by exact Ec.
      rewrite dedupe_seen; [reflexivity | left; exact Ec].
  - destruct (existsb _ seen) eqn:E; [apply IH, HK|].
    simpl. rewrite Ec. apply IH. intros [H | H]; [|contradiction].
    unfold has_key in Ec. rewrite H in Ec. rewrite bool_decide_eq_true_2 in Ec; congruence.
Qed.

Lemma filter_nil_lookup {A} (p : A -> bool) l k a :
  List.filter p l = [] -> l !! k = Some a -> p a = false.
Proof.
  revert k. induction l as [|x t IH]; intros k Hf Hk; [discriminate|].
  simpl in Hf. destruct (p x) eqn:Ex; [discriminate|].
  destruct k as [|k]; simpl in Hk; [congruence | eapply IH; eauto].
Qed.

Lemma filter_single_lookup {A} (p : A -> bool) l c k1 a k2 b :
  List.filter p l = [c] -> l !! k1 = Some a -> p a = true -> l !! k2 = Some b -> p b = true ->
  k1 = k2 /\ a = c.
Proof.
  revert k1 k2. induction l as [|x t IH]; intros k1 k2 Hf H1 Ha H2 Hb; [discriminate|].
  simpl in Hf. destruct (p x) eqn:Ex.
  - injection Hf as -> Ht.
    destruct k1 as [|k1]; destruct k2 as [|k2]; simpl in H1, H2.
    + split; congruence.
    + rewrite (filter_nil_lookup p t k2 b Ht H2) in Hb. discriminate.
    + rewrite (filter_nil_lookup p t k1 a Ht H1) in Ha. discriminate.
    + rewrite (filter_nil_lookup p t k1 a Ht H1) in Ha. discriminate.
  - destruct k1 as [|k1]; simpl in H1; [congruence|].
    destruct k2 as [|k2]; simpl in H2; [congruence|].
    destruct (IH k1 k2 Hf H1 Ha H2 Hb) as [-> ->]. auto.
Qed.

Lemma filter_single_In {A} (p : A -> bool) l c :
  List.filter p l = [c] -> exists k, l !! k = Some c.
Proof.
  intros H. assert (Hc : In c (List.filter p l)) by (rewrite H; left; reflexivity).
  apply List.filter_In in Hc as [Hc _]. apply list_elem_of_In, list_elem_of_lookup_1 in Hc.
  exact Hc.
Qed.

Lemma find_first_index {A} (p : A -> bool) l c :
  List.find p l = Some c ->
  exists i0, l !! i0 = Some c /\ p c = true /\
    forall i' c', i' < i0 -> l !! i' = Some c' -> p c' = false.
Proof.
  induction l as [|x t IH]; simpl; [discriminate|].
  destruct (p x) eqn:Ex.
  - intros [= <-]. exists 0. split; [reflexivity|]. split; [exact Ex|]. intros i' c' Hi. lia.
  - intros H. destruct (IH H) as [i0 [H1 [H2 H3]]]. exists (S i0).
    split; [exact H1|]. split; [exact H2|].
    intros [|i'] c' Hi Hc; simpl in Hc; [congruence|]. apply (H3 i'); [lia | exact Hc].
Qed.

Lemma find_some_of_lookup {A} (p : A -> bool) l i c :
  l !! i = Some c -> p c = true -> exists c0, List.find p l = Some c0.
Proof.
  intros Hi Hp. destruct (List.find p l) as [c0|] eqn:E; [eauto|].
  apply list_elem_of_lookup_2, list_elem_of_In in Hi.
  rewrite (find_none p l E c Hi) in Hp. discriminate.
Qed.

Lemma mapi_from_lookup {A B} (f : nat -> A -> B) k l i :
  mapi_from f k l !! i = f (k + i) <$> l !! i.
Proof.
  revert k i. induction l as [|x t IH]; intros k [|i]; simpl; auto.
  - rewrite Nat.add_0_r. reflexivity.
  - rewrite IH. f_equal. f_equal. lia.
Qed.

Section Extract.
Variable _extract_from_review : pystr -> list raw_cand.
Variable _extract_from_news : pystr -> list raw_cand.
Variable _extract_from_tweet : pystr -> list raw_cand.
Variable similarity_to : pystr -> pystr -> Q.
Variable software_functionality_dict : list pystr.
Variable uuid4 : nat -> pystr.

Local Abbreviation extract := (extract_user_stories _extract_from_review _extract_from_news
  _extract_from_tweet similarity_to software_functionality_dict uuid4).
Local Abbreviation candidates_for' := (candidates_for _extract_from_review _extract_from_news _extract_from_tweet).
Local Abbreviation filter_ctx := (_filter_by_software_context similarity_to software_functionality_dict).

(** C5 (corrected).  Empty or non-string [content] gives the empty list
    for every [source], valid or not: the content check comes first.  A
    non-empty string with a [source] other than "review", "news" and
    "tweet" raises [ValueError("source must be one of: 'review' | 'news'
    | 'tweet'")], the built-in exception, not a distinct error type. *)
Theorem extract_input_checks source source_id content project_id min_similarity dedupe :
  ((content = PyStr [] \/ forall text, content <> PyStr text) ->
   extract source source_id content project_id min_similarity dedupe = Returned []) /\
  (forall text, content = PyStr text -> text <> [] ->
   ~ In source [s "review"; s "news"; s "tweet"] ->
   extract source source_id content project_id min_similarity dedupe
   = Raised (ValueError (s "source must be one of: 'review' | 'news' | 'tweet'"))).
Proof.
  unfold extract_user_stories. split.
  - intros [-> | Hns]; [reflexivity|].
    destruct content as [text| | | |]; [exfalso; apply (Hns text); reflexivity|..];
      destruct (negb _); reflexivity.
  - intros text -> Hne Hsrc. simpl.
    rewrite bool_decide_eq_false_2 by exact Hne. simpl.
    unfold candidates_for.
    destruct (str_eqb source (s "review")) eqn:E1;
      [apply str_eqb_true in E1; subst; exfalso; apply Hsrc; left; reflexivity|].
    destruct (str_eqb source (s "news")) eqn:E2;
      [apply str_eqb_true in E2; subst; exfalso; apply Hsrc; right; left; reflexivity|].
    destruct (str_eqb source (s "tweet")) eqn:E3;
      [apply str_eqb_true in E3; subst; exfalso; apply Hsrc; right; right; left; reflexivity|].
    reflexivity.
Qed.

(** C7.  With [dedupe=True], if two candidates that survive the
    software-context filter (positions [i < j]) have the same
    [(who, what, why, full_sentence)] up to case, the result holds exactly
    one record with that key, and it is built from the first surviving
    candidate with that key (at position [i0 <= i]; [c1] itself when no
    earlier candidate has the key). *)
Theorem dedupe_keeps_first source source_id text project_id min_similarity candidates i j c1 c2 :
  text <> [] ->
  candidates_for' source text = Some candidates ->
  filter_ctx candidates min_similarity !! i = Some c1 ->
  filter_ctx candidates min_similarity !! j = Some c2 ->
  i < j ->
  dedupe_key (raw c1) = dedupe_key (raw c2) ->
  exists ms k m i0 c0,
    extract source source_id (PyStr text) project_id min_similarity true = Returned ms /\
    ms !! k = Some m /\
    (forall k' m', ms !! k' = Some m' ->
       (lower (UserStoryModel.who m'), lower (UserStoryModel.what m'),
        lower (default [] (UserStoryModel.why m')),
        lower (default [] (UserStoryModel.full_sentence m'))) = dedupe_key (raw c1) ->
       k' = k) /\
    filter_ctx candidates min_similarity !! i0 = Some c0 /\ i0 <= i /\
    dedupe_key (raw c0) = dedupe_key (raw c1) /\
    (forall i' c', i' < i0 -> filter_ctx candidates min_similarity !! i' = Some c' ->
       dedupe_key (raw c') <> dedupe_key (raw c1)) /\
    UserStoryModel.who m = who (raw c0) /\ UserStoryModel.what m = what (raw c0) /\
    UserStoryModel.why m = why (raw c0) /\
    UserStoryModel.full_sentence m = Some (full_sentence (raw c0)) /\
    UserStoryModel.similarity_score m = similarity c0.
Proof.
  intros Hne Hc H1 H2 Hij Hkey.
  set (F := filter_ctx candidates min_similarity) in *.
  set (K := dedupe_key (raw c1)).
  assert (Hk1 : has_key K c1 = true) by (apply bool_decide_eq_true; reflexivity).
  destruct (find_some_of_lookup (has_key K) F i c1 H1 Hk1) as [c0 Hf].
  destruct (find_first_index (has_key K) F c0 Hf) as [i0 [Hi0 [Hk0 Hbefore]]].
  pose proof (dedupe_first K [] F ltac:(intros [])) as Hd. rewrite Hf in Hd.
  destruct (filter_single_In _ _ _ Hd) as [k Hk].
  set (D := dedupe_loop [] F) in *.
  set (ms := mapi_from (to_model uuid4 source source_id project_id) 0 D).
  assert (Hext : extract source source_id (PyStr text) project_id min_similarity true = Returned ms).
  { unfold extract_user_stories. simpl. rewrite bool_decide_eq_false_2 by exact Hne. simpl.
    rewrite Hc. fold F. fold D. destruct D; reflexivity. }
  exists ms, k, (to_model uuid4 source source_id project_id k c0), i0, c0.
  split; [exact Hext|].
  split; [unfold ms; rewrite mapi_from_lookup, Hk; reflexivity|].
  split.
  { intros k' m' Hm' Hkey'. unfold ms in Hm'. rewrite mapi_from_lookup in Hm'.
    destruct (D !! k') as [c'|] eqn:Ec'; [|discriminate]. injection Hm' as <-.
    assert (Hc'k : has_key K c' = true).
    { apply bool_decide_eq_true. simpl in Hkey'. exact Hkey'. }
    destruct (filter_single_lookup _ _ _ _ _ _ _ Hd Hk Hk0 Ec' Hc'k) as [-> _]. reflexivity. }
  split; [exact Hi0|]. split.
  { destruct (decide (i0 <= i)) as [|Hlt]; [assumption|].
    rewrite (Hbefore i c1 ltac:(lia) H1) in Hk1. discriminate. }
  split; [apply bool_decide_eq_true in Hk0; exact Hk0|].
  split.
  { intros i' c' Hi' Hc' E.
    assert (Hc'k : has_key K c' = true) by (apply bool_decide_eq_true; exact E).
    rewrite (Hbefore i' c' Hi' Hc') in Hc'k. discriminate. }
  simpl. auto.
Qed.

End Extract.

(** C5, counterexample: an unrecognised source with empty content raises
    nothing; the call returns the empty list (here with extractors that
    find nothing, but the extractors are never called). *)
Lemma extract_unknown_source_empty_content :
  extract_user_stories (fun _ => []) (fun _ => []) (fun _ => []) (fun _ _ => 1%Q) [] (fun _ => [])
    (s "blog") (s "src-1") (PyStr []) (s "p1") (7#10) true = Returned [].
Proof. reflexivity. Qed.

Lemma extract_input_checks_witness :
  extract_user_stories (fun _ => []) (fun _ => []) (fun _ => []) (fun _ _ => 1%Q) [] (fun _ => [])
    (s "blog") (s "src-1") (PyStr []) (s "p1") (7#10) true = Returned [] /\
  extract_user_stories (fun _ => []) (fun _ => []) (fun _ => []) (fun _ _ => 1%Q) [] (fun _ => [])
    (s "blog") (s "src-1") (PyStr (s "I want to export reports")) (s "p1") (7#10) true
  = Raised (ValueError (s "source must be one of: 'review' | 'news' | 'tweet'")).
Proof.
  split.
  - apply (proj1 (extract_input_checks (fun _ => []) (fun _ => []) (fun _ => []) (fun _ _ => 1%Q) []
            (fun _ => []) (s "blog") (s "src-1") (PyStr []) (s "p1") (7#10) true)).
    left; reflexivity.
  - apply (proj2 (extract_input_checks (fun _ => []) (fun _ => []) (fun _ => []) (fun _ _ => 1%Q) []
            (fun _ => []) (s "blog") (s "src-1") (PyStr (s "I want to export reports")) (s "p1")
            (7#10) true) (s "I want to export reports")); [reflexivity | discriminate |].
    simpl. intros H. repeat (destruct H as [H | H]; [discriminate H|]). exact H.
Defined.

(** Two review candidates that differ only in case. *)
Definition twin_candidates : list raw_cand :=
  [{| who := s "user"; what := s "export reports"; why := Some (s "share them");
      full_sentence := s "I want to export reports to share them." |};
   {| who := s "User"; what := s "Export Reports"; why := Some (s "Share them");
      full_sentence := s "I want to Export Reports to Share them." |}].

Lemma dedupe_keeps_first_witness :
  exists ms k m i0 c0,
    extract_user_stories (fun _ => twin_candidates) (fun _ => []) (fun _ => [])
      (fun _ _ => 1%Q) [s "export"] str_of_nat
      (s "review") (s "src-1") (PyStr (s "I want to export reports to share them.")) (s "p1")
      (7#10) true = Returned ms /\
    ms !! k = Some m /\
    (forall k' m', ms !! k' = Some m' ->
       (lower (UserStoryModel.who m'), lower (UserStoryModel.what m'),
        lower (default [] (UserStoryModel.why m')),
        lower (default [] (UserStoryModel.full_sentence m')))
       = dedupe_key (raw {| raw := nth 0 twin_candidates (Build_raw_cand [] [] None []);
                            similarity := 1%Q |}) ->
       k' = k) /\
    _filter_by_software_context (fun _ _ => 1%Q) [s "export"] twin_candidates (7#10) !! i0 = Some c0 /\
    i0 <= 0 /\
    dedupe_key (raw c0) = dedupe_key (raw {| raw := nth 0 twin_candidates (Build_raw_cand [] [] None []);
                                             similarity := 1%Q |}) /\
    (forall i' c', i' < i0 ->
       _filter_by_software_context (fun _ _ => 1%Q) [s "export"] twin_candidates (7#10) !! i' = Some c' ->
       dedupe_key (raw c') <> dedupe_key (raw {| raw := nth 0 twin_candidates (Build_raw_cand [] [] None []);
                                                 similarity := 1%Q |})) /\
    UserStoryModel.who m = who (raw c0) /\ UserStoryModel.what m = what (raw c0) /\
    UserStoryModel.why m = why (raw c0) /\
    UserStoryModel.full_sentence m = Some (full_sentence (raw c0)) /\
    UserStoryModel.similarity_score m = similarity c0.
Proof.
  apply (dedupe_keeps_first (fun _ => twin_candidates) (fun _ => []) (fun _ => [])
           (fun _ _ => 1%Q) [s "export"] str_of_nat
           (s "review") (s "src-1") (s "I want to export reports to share them.") (s "p1")
           (7#10) twin_candidates 0 1
           {| raw := nth 0 twin_candidates (Build_raw_cand [] [] None []); similarity := 1%Q |}
           {| raw := nth 1 twin_candidates (Build_raw_cand [] [] None []); similarity := 1%Q |}).
  - discriminate.
  - reflexivity.
  - reflexivity.
  - reflexivity.
  - lia.
  - vm_compute. reflexivity.
Defined.

End ExtractorFacts.

(* ------------------------------------------------------------------ *)
Module ExtractorMoreFacts.
Import PyText PyLib PyLibFacts Extractor.

Definition max_step (f : pystr -> Q) (max_sim : Q) (kd : pystr) : Q :=
  let sim := f kd in if Qlt_le_dec max_sim sim then sim else max_sim.

Lemma max_sim_fold (f : pystr -> Q) kws m0 :
  Qle m0 (fold_left (max_step f) kws m0) /\
  (forall kd, In kd kws -> Qle (f kd) (fold_left (max_step f) kws m0)) /\
  (fold_left (max_step f) kws m0 = m0 \/
   exists kd, In kd kws /\ fold_left (max_step f) kws m0 = f kd).
Proof.
  revert m0. induction kws as [|kd t IH]; intros m0; simpl.
  - split; [apply Qle_refl|]. split; [tauto | left; reflexivity].
  - assert (E : max_step f m0 kd = if Qlt_le_dec m0 (f kd) then f kd else m0) by reflexivity.
    rewrite E. destruct (Qlt_le_dec m0 (f kd)) as [Hlt|Hle].
    + destruct (IH (f kd)) as [H1 [H2 H3]]. split; [|split].
      * apply Qle_trans with (f kd); [apply Qlt_le_weak, Hlt | exact H1].
      * intros k [<- | Hk]; [exact H1 | apply H2, Hk].
      * destruct H3 as [-> | [k [Hk ->]]]; right; eauto.
    + destruct (IH m0) as [H1 [H2 H3]]. split; [exact H1|]. split.
      * intros k [<- | Hk]; [apply Qle_trans with m0; assumption | apply H2, Hk].
      * destruct H3 as [-> | [k [Hk ->]]]; [left; reflexivity | right; eauto].
Qed.

Lemma Qle_bool_true a b : Qle_bool a b = true <-> Qle a b.
Proof. apply Qle_bool_iff. Qed.

Lemma dedupe_loop_In seen cs c : In c (dedupe_loop seen cs) -> In c cs.
Proof.
  revert seen. induction cs as [|x t IH]; intros seen; simpl; [tauto|].
  destruct (existsb _ seen); [intros H; right; eapply IH, H|].
  intros [<- | H]; [left; reflexivity | right; eapply IH, H].
Qed.

Lemma dedupe_loop_unique seen cs :
  NoDup (map (fun c => dedupe_key (raw c)) (dedupe_loop seen cs)) /\
  (forall c, In c (dedupe_loop seen cs) -> ~ In (dedupe_key (raw c)) seen) /\
  (forall c, In c cs -> In (dedupe_key (raw c)) seen \/
     exists c', In c' (dedupe_loop seen cs) /\ dedupe_key (raw c') = dedupe_key (raw c)).
Proof.
  revert seen. induction cs as [|x t IH]; intros seen; simpl.
  - split; [constructor|]. split; tauto.
  - destruct (existsb (fun k => bool_decide (k = dedupe_key (raw x))) seen) eqn:E.
    + destruct (IH seen) as [H1 [H2 H3]]. split; [exact H1|]. split; [exact H2|].
      intros c [<- | Hc]; [|apply H3, Hc]. left.
      apply ExtractorFacts.existsb_key_In in E. exact E.
    + destruct (IH (dedupe_key (raw x) :: seen)) as [H1 [H2 H3]].
      assert (Hx : ~ In (dedupe_key (raw x)) seen).
      { intros Hin. apply ExtractorFacts.existsb_key_In in Hin. congruence. }
      split; [|split].
      * simpl. constructor; [|exact H1].
        intros Hin. apply list_elem_of_In, in_map_iff in Hin as [c [Hc Hin]].
        apply (H2 c Hin). left. symmetry. exact Hc.
      * intros c [<- | Hc]; [exact Hx|]. intros Hs. apply (H2 c Hc). right. exact Hs.
      * intros c [<- | Hc].
        -- right. exists x. split; [left|]; reflexivity.
        -- destruct (H3 c Hc) as [[Hk | Hk] | [c' [Hc' Hk]]].
           ++ right. exists x. split; [left; reflexivity | exact Hk].
           ++ left. exact Hk.
           ++ right. exists c'. split; [right; exact Hc' | exact Hk].
Qed.

Lemma mapi_from_In {A B} (f : nat -> A -> B) k l y :
  In y (mapi_from f k l) -> exists i x, l !! i = Some x /\ y = f (k + i) x.
Proof.
  intros H. apply list_elem_of_In, list_elem_of_lookup in H as [i Hi].
  rewrite ExtractorFacts.mapi_from_lookup in Hi.
  destruct (l !! i) as [x|] eqn:E; [|discriminate]. injection Hi as <-. eauto.
Qed.

Lemma length_mapi_from {A B} (f : nat -> A -> B) k l : length (mapi_from f k l) = length l.
Proof. revert k. induction l; intros k; simpl; auto. Qed.

Lemma map_mapi_from {A B C} (g : B -> C) (f : nat -> A -> B) k l :
  map g (mapi_from f k l) = mapi_from (fun i x => g (f i x)) k l.
Proof. revert k. induction l; intros k; simpl; f_equal; auto. Qed.

Lemma mapi_from_const {A B} (h : nat -> B) k (l : list A) :
  mapi_from (fun i _ => h i) k l = map h (seq k (length l)).
Proof. revert k. induction l; intros k; simpl; f_equal; auto. Qed.

(** The key a returned [UserStoryModel] would get from the de-duplication
    loop (its [full_sentence] is always set). *)
Definition model_key (m : UserStoryModel.t) : pystr * pystr * pystr * pystr :=
  (lower (UserStoryModel.who m), lower (UserStoryModel.what m),
   lower (default [] (UserStoryModel.why m)),
   lower (default [] (UserStoryModel.full_sentence m))).

Section Extract.
Variable _extract_from_review : pystr -> list raw_cand.
Variable _extract_from_news : pystr -> list raw_cand.
Variable _extract_from_tweet : pystr -> list raw_cand.
Variable similarity_to : pystr -> pystr -> Q.
Variable software_functionality_dict : list pystr.
Variable uuid4 : nat -> pystr.


(** X1 (extra).  [_filter_by_software_context] keeps, in order, exactly the
    candidates for which [threshold <= 0] or some keyword of the dictionary
    has similarity at least [threshold] to the candidate's [what]; the
    similarity it records is the maximum of 0 and the keyword similarities. *)
Theorem filter_by_software_context_spec cands threshold :
  map raw (_filter_by_software_context similarity_to software_functionality_dict cands threshold) =
    List.filter (fun c => Qle_bool threshold 0
                          || existsb (fun kd => Qle_bool threshold (similarity_to (what c) kd))
                                     software_functionality_dict) cands /\
  Forall (fun c' =>
    Qle threshold (similarity c') /\ Qle 0%Q (similarity c') /\
    (forall kd, In kd software_functionality_dict ->
       Qle (similarity_to (what (raw c')) kd) (similarity c')) /\
    (similarity c' = 0%Q \/ exists kd, In kd software_functionality_dict /\
                                     similarity c' = similarity_to (what (raw c')) kd))
    (_filter_by_software_context similarity_to software_functionality_dict cands threshold).
Proof.
  induction cands as [|c t [IH1 IH2]]; simpl; [split; constructor|].
  change (fold_left _ software_functionality_dict 0%Q)
    with (fold_left (max_step (similarity_to (what c))) software_functionality_dict 0%Q).
  destruct (max_sim_fold (similarity_to (what c)) software_functionality_dict 0%Q)
    as [M1 [M2 M3]].
  set (m := fold_left (max_step (similarity_to (what c))) software_functionality_dict 0%Q) in *.
  assert (Hiff : Qle_bool threshold m =
                 (Qle_bool threshold 0
                  || existsb (fun kd => Qle_bool threshold (similarity_to (what c) kd))
                             software_functionality_dict)).
  { apply eq_true_iff_eq. rewrite orb_true_iff, existsb_exists, !Qle_bool_true.
    split.
    - intros H. destruct M3 as [E | [kd [Hkd E]]]; [left; rewrite <- E; exact H|].
      right. exists kd. split; [exact Hkd|]. apply Qle_bool_true. rewrite <- E. exact H.
    - intros [H | [kd [Hkd H]]]; [apply Qle_trans with 0%Q; assumption|].
      apply Qle_bool_true in H. apply Qle_trans with (similarity_to (what c) kd); auto. }
  rewrite <- Hiff. destruct (Qle_bool threshold m) eqn:Ek; simpl.
  - split; [f_equal; exact IH1|]. constructor; [|exact IH2]. simpl.
    apply Qle_bool_true in Ek. auto.
  - split; [exact IH1 | exact IH2].
Qed.

Lemma extract_returned_cases source source_id content project_id min_similarity dedupe ms :
  extract_user_stories _extract_from_review _extract_from_news
    _extract_from_tweet similarity_to software_functionality_dict uuid4 source source_id content project_id min_similarity dedupe = Returned ms ->
  ms = [] \/
  exists text cands, content = PyStr text /\ text <> [] /\
    candidates_for _extract_from_review _extract_from_news _extract_from_tweet source text
      = Some cands /\
    ms = mapi_from (to_model uuid4 source source_id project_id) 0
           (if dedupe then dedupe_loop [] (_filter_by_software_context similarity_to software_functionality_dict cands min_similarity)
            else _filter_by_software_context similarity_to software_functionality_dict cands min_similarity).
Proof.
  unfold extract_user_stories.
  destruct (negb (truthy content)) eqn:Et; [intros [= <-]; left; reflexivity|].
  destruct content as [text| | | |]; try (intros [= <-]; left; reflexivity).
  simpl in Et. destruct (bool_decide (text = [])) eqn:Eb; [discriminate|].
  apply bool_decide_eq_false in Eb.
  destruct (candidates_for _ _ _ source text) as [cands|] eqn:Ec; [|discriminate].
  intros H. right. exists text, cands. split; [reflexivity|]. split; [exact Eb|].
  split; [exact Ec|].
  destruct (if dedupe then _ else _) as [|c0 t0]; injection H as <-; reflexivity.
Qed.

Lemma extract_string_case source source_id text project_id min_similarity dedupe cands :
  text <> [] ->
  candidates_for _extract_from_review _extract_from_news _extract_from_tweet source text
    = Some cands ->
  extract_user_stories _extract_from_review _extract_from_news
    _extract_from_tweet similarity_to software_functionality_dict uuid4 source source_id (PyStr text) project_id min_similarity dedupe =
  Returned (mapi_from (to_model uuid4 source source_id project_id) 0
              (if dedupe then dedupe_loop [] (_filter_by_software_context similarity_to software_functionality_dict cands min_similarity)
               else _filter_by_software_context similarity_to software_functionality_dict cands min_similarity)).
Proof.
  intros Hne Hc. unfold extract_user_stories. simpl.
  rewrite bool_decide_eq_false_2 by exact Hne. simpl. rewrite Hc.
  destruct (if dedupe then _ else _); reflexivity.
Qed.

(** X2 (extra).  every record returned by [extract_user_stories] carries the
    call's [source], [source_id] and [project_id], a [similarity_score] of
    at least [min_similarity], and a [full_sentence]; its id is the string
    of the [k]-th [uuid4()] drawn by the call, for the record at position
    [k]. *)
Theorem extract_models_fields source source_id content project_id min_similarity dedupe ms :
  extract_user_stories _extract_from_review _extract_from_news
    _extract_from_tweet similarity_to software_functionality_dict uuid4 source source_id content project_id min_similarity dedupe = Returned ms ->
  map UserStoryModel._id ms = map uuid4 (seq 0 (length ms)) /\
  Forall (fun m =>
    UserStoryModel.source m = source /\ UserStoryModel.source_id m = source_id /\
    UserStoryModel.project_id m = project_id /\
    Qle min_similarity (UserStoryModel.similarity_score m) /\
    is_Some (UserStoryModel.full_sentence m)) ms.
Proof.
  intros H. destruct (extract_returned_cases _ _ _ _ _ _ _ H) as [-> | [text [cands [_ [_ [_ ->]]]]]].
  { split; [reflexivity | constructor]. }
  set (F := if dedupe then _ else _).
  split.
  - rewrite map_mapi_from, length_mapi_from. simpl. apply mapi_from_const.
  - apply List.Forall_forall. intros m Hm. apply mapi_from_In in Hm as [i [c [Hc ->]]].
    assert (HcF : In c (_filter_by_software_context similarity_to software_functionality_dict cands min_similarity)).
    { apply list_elem_of_lookup_2, list_elem_of_In in Hc. unfold F in Hc.
      destruct dedupe; [eapply dedupe_loop_In, Hc | exact Hc]. }
    pose proof (proj2 (filter_by_software_context_spec cands min_similarity)) as HF.
    rewrite List.Forall_forall in HF. destruct (HF c HcF) as [Hs _].
    simpl. repeat split; auto.
Qed.

(** X3 (extra).  with [dedupe=True], no two returned records share the lowercased
    [(who, what, why, full_sentence)] key (a missing [why] read as the empty string), and every candidate that
    survives the software-context filter has its key among the returned
    records: the loop drops only repeats. *)
Theorem extract_dedupe_keys_unique source source_id text project_id min_similarity cands ms :
  text <> [] ->
  candidates_for _extract_from_review _extract_from_news _extract_from_tweet source text
    = Some cands ->
  extract_user_stories _extract_from_review _extract_from_news
    _extract_from_tweet similarity_to software_functionality_dict uuid4 source source_id (PyStr text) project_id min_similarity true = Returned ms ->
  NoDup (map model_key ms) /\
  forall c, In c (_filter_by_software_context similarity_to software_functionality_dict cands min_similarity) ->
    exists m, In m ms /\ model_key m = dedupe_key (raw c).
Proof.
  intros Hne Hc H. rewrite (extract_string_case _ _ _ _ _ true _ Hne Hc) in H.
  injection H as <-.
    destruct (dedupe_loop_unique [] (_filter_by_software_context similarity_to software_functionality_dict cands min_similarity)) as [U1 [_ U3]].
    assert (Hk : forall l k, map model_key (mapi_from (to_model uuid4 source source_id project_id) k l)
                 = map (fun c => dedupe_key (raw c)) l).
    { induction l as [|c t IH]; intros k; simpl; [reflexivity|]. rewrite IH. reflexivity. }
    rewrite Hk. split; [exact U1|].
    intros c Hin. destruct (U3 c Hin) as [[] | [c' [Hc' Hk']]].
    apply list_elem_of_In, list_elem_of_lookup in Hc' as [i Hi].
    exists (to_model uuid4 source source_id project_id i c'). split.
    + apply list_elem_of_In, list_elem_of_lookup. exists i.
      rewrite ExtractorFacts.mapi_from_lookup, Hi. reflexivity.
    + rewrite <- Hk'. reflexivity.
Qed.

End Extract.

(** A review yielding the same story twice (up to case) and one story
    outside the software vocabulary; similarity is 1 on a case-insensitive
    exact match with a keyword and 0 otherwise. *)
Definition review_candidates : list raw_cand :=
  [{| who := s "user"; what := s "export reports"; why := Some (s "share them");
      full_sentence := s "I want to export reports to share them." |};
   {| who := s "User"; what := s "Export Reports"; why := Some (s "Share them");
      full_sentence := s "I want to Export Reports to Share them." |};
   {| who := s "user"; what := s "like colors"; why := None;
      full_sentence := s "I like colors." |}].

Definition exact_similarity (w kd : pystr) : Q := if str_eqb (lower w) kd then 1%Q else 0%Q.

Lemma extract_models_fields_witness :
  exists ms,
    extract_user_stories (fun _ => review_candidates) (fun _ => []) (fun _ => [])
      exact_similarity [s "export reports"] str_of_nat
      (s "review") (s "src-1") (PyStr (s "I want to export reports.")) (s "p1")
      (7#10) false = Returned ms /\
    map UserStoryModel._id ms = map str_of_nat (seq 0 (length ms)) /\
    Forall (fun m =>
      UserStoryModel.source m = s "review" /\ UserStoryModel.source_id m = s "src-1" /\
      UserStoryModel.project_id m = s "p1" /\
      Qle (7#10) (UserStoryModel.similarity_score m) /\
      is_Some (UserStoryModel.full_sentence m)) ms.
Proof.
  eexists. split; [cbv; reflexivity|].
  eapply (extract_models_fields (fun _ => review_candidates) (fun _ => []) (fun _ => [])
            exact_similarity [s "export reports"] str_of_nat
            (s "review") (s "src-1") (PyStr (s "I want to export reports.")) (s "p1")
            (7#10) false).
  reflexivity.
Defined.

Lemma extract_dedupe_keys_unique_witness :
  exists cands ms,
    s "I want to export reports." <> [] /\
    candidates_for (fun _ => review_candidates) (fun _ => []) (fun _ => [])
      (s "review") (s "I want to export reports.") = Some cands /\
    extract_user_stories (fun _ => review_candidates) (fun _ => []) (fun _ => [])
      exact_similarity [s "export reports"] str_of_nat
      (s "review") (s "src-1") (PyStr (s "I want to export reports.")) (s "p1")
      (7#10) true = Returned ms /\
    NoDup (map model_key ms) /\
    forall c, In c (_filter_by_software_context exact_similarity [s "export reports"] cands (7#10)) ->
      exists m, In m ms /\ model_key m = dedupe_key (raw c).
Proof.
  eexists _, _. split; [discriminate|]. split; [cbv; reflexivity|]. split; [cbv; reflexivity|].
  eapply (extract_dedupe_keys_unique (fun _ => review_candidates) (fun _ => []) (fun _ => [])
            exact_similarity [s "export reports"] str_of_nat
            (s "review") (s "src-1") (s "I want to export reports.") (s "p1") (7#10)).
  - discriminate.
  - reflexivity.
  - reflexivity.
Defined.

End ExtractorMoreFacts.

(* ------------------------------------------------------------------ *)
Module ClusterMoreFacts.
Import PyText PyLib PyLibFacts Cluster ClusterFacts.

(** *** Python's [<] on [str] is a strict total order *)

Lemma str_ltb_irrefl x : str_ltb x x = false.
Proof.
  induction x as [|a t IH]; [reflexivity|]. simpl.
  rewrite Nat.ltb_irrefl. exact IH.
Qed.

Lemma ascii_nat_inj a b : nat_of_ascii a = nat_of_ascii b -> a = b.
Proof.
  intros H. rewrite <- (ascii_nat_embedding a), <- (ascii_nat_embedding b), H. reflexivity.
Qed.

Lemma str_ltb_trans x y z : str_ltb x y = true -> str_ltb y z = true -> str_ltb x z = true.
Proof.
  revert y z. induction x as [|a x IH]; intros [|b y] [|c z]; simpl; try discriminate; auto.
  intros H1 H2.
  destruct (Nat.ltb_spec (nat_of_ascii a) (nat_of_ascii b));
  destruct (Nat.ltb_spec (nat_of_ascii b) (nat_of_ascii a));
  destruct (Nat.ltb_spec (nat_of_ascii b) (nat_of_ascii c));
  destruct (Nat.ltb_spec (nat_of_ascii c) (nat_of_ascii b));
  destruct (Nat.ltb_spec (nat_of_ascii a) (nat_of_ascii c));
  destruct (Nat.ltb_spec (nat_of_ascii c) (nat_of_ascii a));
  try lia; try discriminate; auto.
  apply (IH y z H1 H2).
Qed.

Lemma str_ltb_total x y : x <> y -> str_ltb x y = true \/ str_ltb y x = true.
Proof.
  revert y. induction x as [|a x IH]; intros [|b y] Hne; simpl; auto; try congruence.
  destruct (nat_of_ascii a <? nat_of_ascii b) eqn:E1; [auto|].
  destruct (nat_of_ascii b <? nat_of_ascii a) eqn:E2; [auto|].
  rewrite Nat.ltb_ge in E1, E2. assert (a = b) as <- by (apply ascii_nat_inj; lia).
  apply IH. congruence.
Qed.

Lemma str_ltb_asym x y : str_ltb x y = true -> str_ltb y x = false.
Proof.
  intros H. destruct (str_ltb y x) eqn:E; [|reflexivity].
  pose proof (str_ltb_trans _ _ _ H E). rewrite str_ltb_irrefl in *. discriminate.
Qed.

Definition str_lt (x y : pystr) : Prop := str_ltb x y = true.

Lemma insert_str_In x xs y : In y (insert_str x xs) <-> y = x \/ In y xs.
Proof.
  induction xs as [|z t IH]; simpl; [intuition congruence|].
  destruct (str_ltb x z); simpl; [intuition congruence|]. rewrite IH. intuition congruence.
Qed.

Lemma insert_str_sorted x xs :
  ~ In x xs -> StronglySorted str_lt xs -> StronglySorted str_lt (insert_str x xs).
Proof.
  induction xs as [|z t IH]; intros Hn Hs; simpl.
  - repeat constructor.
  - apply StronglySorted_inv in Hs as [Ht Hz].
    destruct (str_ltb x z) eqn:E.
    + constructor; [constructor; assumption|].
      constructor; [exact E|]. eapply Forall_impl; [exact Hz|].
      intros w Hw. eapply str_ltb_trans; [exact E | exact Hw].
    + constructor; [apply IH; [intros H; apply Hn; right; exact H | exact Ht]|].
      apply List.Forall_forall. intros w Hw. apply insert_str_In in Hw as [-> | Hw].
      * destruct (str_ltb_total x z) as [H | H]; [intros ->; apply Hn; left; reflexivity| |exact H].
        congruence.
      * rewrite List.Forall_forall in Hz. apply Hz, Hw.
Qed.

Lemma fold_insert_str_spec xs :
  List.NoDup xs ->
  StronglySorted str_lt (fold_right insert_str [] xs) /\
  (forall y, In y (fold_right insert_str [] xs) <-> In y xs).
Proof.
  induction xs as [|x t IH]; intros Hnd; simpl.
  - split; [constructor | tauto].
  - inversion Hnd as [|? ? Hx Ht]; subst. destruct (IH Ht) as [H1 H2].
    split.
    + apply insert_str_sorted; [rewrite H2; exact Hx | exact H1].
    + intros y. rewrite insert_str_In, H2. intuition congruence.
Qed.

Lemma sorted_set_spec xs :
  StronglySorted str_lt (sorted_set xs) /\ (forall y, In y (sorted_set xs) <-> In y xs).
Proof.
  unfold sorted_set. destruct (fold_insert_str_spec (remove_dups xs)) as [H1 H2].
  { apply NoDup_ListNoDup, NoDup_remove_dups. }
  split; [exact H1|]. intros y. rewrite H2, <- !list_elem_of_In. apply elem_of_remove_dups.
Qed.

(** *** Sources survive the pops *)

Lemma pops_source (items : list nat) (st : store) l :
  option_map source (fold_left (fun s l => alter pop_full_sentence l s) items st !! l)
  = option_map source (st !! l).
Proof.
  destruct (pops_lookup items st l) as [H1 H2].
  destruct (in_dec Nat.eq_dec l items) as [Hin|Hn].
  - rewrite (H1 Hin). destruct (st !! l); reflexivity.
  - rewrite (H2 Hn). reflexivity.
Qed.

Lemma omap_ext {A B} (f g : A -> option B) xs :
  (forall x, In x xs -> f x = g x) -> omap f xs = omap g xs.
Proof.
  induction xs as [|x t IH]; intros H; simpl; [reflexivity|].
  rewrite (H x (or_introl eq_refl)), IH; [reflexivity|]. intros y Hy. apply H. right. exact Hy.
Qed.

Lemma omap_option_map_source (st : store) items srcs :
  omap (fun l => option_map source (st !! l)) items = Some srcs ->
  forall y, In y srcs <-> exists l v, In l items /\ st !! l = Some v /\ source v = y.
Proof.
  revert srcs. induction items as [|l t IH]; intros srcs; simpl.
  - intros [= <-]. intros y. split; [intros []|]. intros (? & ? & [] & _).
  - destruct (st !! l) as [v|] eqn:El; simpl; [|discriminate].
    destruct (omap _ t) as [srcs'|] eqn:Et; [|discriminate]. intros [= <-].
    intros y. simpl. rewrite (IH srcs' eq_refl). split.
    + intros [<- | (l' & v' & H1 & H2 & H3)]; [exists l, v; auto|]. exists l', v'. auto.
    + intros (l' & v' & [<- | H1] & H2 & H3).
      * left. rewrite El in H2. congruence.
      * right. eauto.
Qed.

Section Service.
Variable encode : pystr -> list Q.
Variable cosine_similarity : list Q -> list Q -> Q.
Variable fit : list (list Q) -> Q -> option (list Z).

Lemma process_cluster_sources embs (st0 st : store) label items c st' :
  (forall l, option_map source (st !! l) = option_map source (st0 !! l)) ->
  process_cluster cosine_similarity embs st label items = Some (c, st') ->
  (exists srcs, omap (fun l => option_map source (st0 !! l)) items = Some srcs /\
                sources c = sorted_set srcs) /\
  stories c = items /\ cluster_id c = label /\
  st' = fold_left (fun s l => alter pop_full_sentence l s) items st.
Proof.
  intros Hs. unfold process_cluster.
  destruct (omap (py_index st) items) as [idxs|]; [|discriminate].
  destruct (omap (fun p => embs !! p) idxs) as [cembs|]; [|discriminate].
  destruct (items !! _) as [rep|]; [|discriminate].
  destruct (omap (fun l => option_map source (st !! l)) items) as [srcs|] eqn:E; [|discriminate].
  intros [= <- <-]. simpl. split; [|auto].
  exists srcs. split; [|reflexivity]. rewrite <- E. symmetry. apply omap_ext. auto.
Qed.

Lemma process_clusters_sources embs (st0 st : store) groups cs st' :
  (forall l, option_map source (st !! l) = option_map source (st0 !! l)) ->
  process_clusters cosine_similarity embs st groups = Some (cs, st') ->
  Forall (fun c => exists srcs,
            omap (fun l => option_map source (st0 !! l)) (stories c) = Some srcs /\
            sources c = sorted_set srcs) cs.
Proof.
  revert st cs st'. induction groups as [|[label items] t IH]; intros st cs st' Hs; simpl.
  - intros [= <- _]. constructor.
  - destruct items as [|i items'] eqn:Eit; [apply IH, Hs|]. rewrite <- Eit.
    destruct (process_cluster cosine_similarity embs st label items) as [[c st1]|] eqn:Ep;
      [|discriminate].
    destruct (process_clusters cosine_similarity embs st1 t) as [[cs' st2]|] eqn:Eps;
      [|discriminate].
    intros [= <- _].
    destruct (process_cluster_sources _ _ _ _ _ _ _ Hs Ep) as [Hsrc [Hst [_ ->]]].
    constructor; [rewrite Hst; exact Hsrc|].
    apply (IH _ _ _ (fun l => eq_trans (pops_source items st l) (Hs l)) Eps).
Qed.

Lemma cluster_and_summarize_groups st t cs st' :
  cluster_and_summarize_stories encode cosine_similarity fit st t = Some (cs, st') ->
  cs = [] \/
  exists labels groups all,
    fit (_vectorize_stories encode st) t = Some labels /\
    group_by_label labels [] (seq 0 (length st)) = Some groups /\
    process_clusters cosine_similarity (_vectorize_stories encode st) st groups = Some (all, st') /\
    cs = firstn 10 (sort_by_size_desc all).
Proof.
  unfold cluster_and_summarize_stories. destruct st as [|v0 vs] eqn:Est.
  - intros [= <- _]. left. reflexivity.
  - rewrite <- Est.
    destruct (fit (_vectorize_stories encode st) t) as [labels|]; [|discriminate].
    destruct (group_by_label labels [] (seq 0 (length st))) as [groups|] eqn:Eg; [|discriminate].
    destruct (process_clusters cosine_similarity (_vectorize_stories encode st) st groups)
      as [[all st1]|] eqn:Ep; [|discriminate].
    intros [= <- <-]. right. exists labels, groups, all. auto.
Qed.

Lemma In_firstn_sort c all : In c (firstn 10 (sort_by_size_desc all)) -> In c all.
Proof.
  intros Hc. eapply Permutation_in; [apply sort_by_size_desc_perm|].
  rewrite <- (firstn_skipn 10 (sort_by_size_desc all)). apply in_app_iff. left; exact Hc.
Qed.

(** X4 (extra).  the [sources] list of every cluster returned by
    [cluster_and_summarize_stories] is strictly increasing (sorted, no
    repeats) and holds exactly the [source] values of the cluster's
    members. *)
Theorem cluster_sources_sorted_set st t cs st' :
  cluster_and_summarize_stories encode cosine_similarity fit st t = Some (cs, st') ->
  forall c, In c cs ->
    StronglySorted (fun a b => str_ltb a b = true) (sources c) /\
    (forall x, In x (sources c) <->
       exists l v, In l (stories c) /\ st !! l = Some v /\ source v = x).
Proof.
  intros H c Hc. destruct (cluster_and_summarize_groups _ _ _ _ H) as [-> | (labels & groups & all & _ & _ & Ep & ->)];
    [destruct Hc|].
  pose proof (process_clusters_sources _ st st groups all st' (fun l => eq_refl) Ep) as HF.
  rewrite List.Forall_forall in HF. destruct (HF c (In_firstn_sort _ _ Hc)) as [srcs [Hs ->]].
  destruct (sorted_set_spec srcs) as [S1 S2]. split; [exact S1|].
  intros x. rewrite S2. apply (omap_option_map_source st _ _ Hs).
Qed.

End Service.

Lemma cluster_sources_sorted_set_witness :
  exists cs st',
    cluster_and_summarize_stories ClusterExample.encode3 ClusterExample.dot
      ClusterExample.fit_cosine ClusterExample.stories3 (1#2) = Some (cs, st') /\
    forall c, In c cs ->
      StronglySorted (fun a b => str_ltb a b = true) (sources c) /\
      (forall x, In x (sources c) <->
         exists l v, In l (stories c) /\ ClusterExample.stories3 !! l = Some v /\ source v = x).
Proof.
  eexists _, _. split; [cbv; reflexivity|].
  eapply (cluster_sources_sorted_set ClusterExample.encode3 ClusterExample.dot
            ClusterExample.fit_cosine ClusterExample.stories3 (1#2)).
  reflexivity.
Defined.

End ClusterMoreFacts.

(* ------------------------------------------------------------------ *)
Module ClusterIdFacts.
Import PyText PyLib PyLibFacts Cluster ClusterFacts ClusterMoreFacts.

Section Labels.
Variable labels : list Z.

Definition lab_of (lab : Z) (l : nat) : bool := bool_decide (labels !! l = Some lab).

Definition groups_inv (P : list nat) (groups : list (Z * list nat)) : Prop :=
  List.NoDup (map fst groups) /\
  (forall lab items, In (lab, items) groups -> items = List.filter (lab_of lab) P) /\
  (forall lab, ~ In lab (map fst groups) -> List.filter (lab_of lab) P = []).

Lemma group_add_keys groups l i x :
  In x (map fst (group_add groups l i)) <-> x = l \/ In x (map fst groups).
Proof.
  induction groups as [|[k items] t IH]; simpl; [intuition congruence|].
  destruct (Z.eqb_spec k l) as [->|Hne]; simpl; [intuition congruence|].
  rewrite IH. intuition congruence.
Qed.

Lemma group_add_nodup groups l i :
  List.NoDup (map fst groups) -> List.NoDup (map fst (group_add groups l i)).
Proof.
  induction groups as [|[k items] t IH]; simpl; intros Hnd.
  - repeat constructor. intros [].
  - inversion Hnd as [|? ? Hk Ht]; subst.
    destruct (Z.eqb_spec k l) as [->|Hne]; simpl; constructor; auto.
    rewrite group_add_keys. intuition congruence.
Qed.

Lemma in_map_fst {A B} (k : A) (v : B) xs : In (k, v) xs -> In k (map fst xs).
Proof. intros H. apply (in_map fst) in H. exact H. Qed.

Lemma group_add_In groups l i lab items :
  List.NoDup (map fst groups) ->
  In (lab, items) (group_add groups l i) ->
  (lab <> l /\ In (lab, items) groups) \/
  (lab = l /\ ((exists old, In (l, old) groups /\ items = old ++ [i]) \/
               (~ In l (map fst groups) /\ items = [i]))).
Proof.
  induction groups as [|[k its] t IH]; simpl; intros Hnd.
  - intros [[= <- <-] | []]. right. auto.
  - inversion Hnd as [|? ? Hk Ht]; subst.
    destruct (Z.eqb_spec k l) as [->|Hne]; simpl.
    + intros [[= <- <-] | H].
      * right. split; [reflexivity|]. left. exists its. auto.
      * destruct (Z.eq_dec lab l) as [->|Hl]; [|left; auto].
        exfalso. apply Hk. eapply in_map_fst, H.
    + intros [[= <- <-] | H]; [left; auto|].
      destruct (IH Ht H) as [[H1 H2] | [H1 [(old & H2 & H3) | [H2 H3]]]].
      * left. auto.
      * right. split; [exact H1|]. left. exists old. auto.
      * right. split; [exact H1|]. right. split; [intuition congruence | exact H3].
Qed.

Lemma lab_of_true lab l : lab_of lab l = true <-> labels !! l = Some lab.
Proof. unfold lab_of. apply bool_decide_eq_true. Qed.

Lemma groups_inv_add P groups i l :
  labels !! i = Some l -> groups_inv P groups -> groups_inv (P ++ [i]) (group_add groups l i).
Proof.
  intros Hi [Hnd [Hitems Habs]].
  assert (Hf : forall lab, List.filter (lab_of lab) (P ++ [i])
                           = List.filter (lab_of lab) P ++ (if Z.eq_dec lab l then [i] else [])).
  { intros lab. rewrite List.filter_app. simpl. f_equal.
    destruct (Z.eq_dec lab l) as [->|Hne].
    - rewrite (proj2 (lab_of_true l i) Hi). reflexivity.
    - destruct (lab_of lab i) eqn:E; [|reflexivity].
      apply lab_of_true in E. congruence. }
  split; [apply group_add_nodup, Hnd|]. split.
  - intros lab items H. rewrite Hf.
    destruct (group_add_In groups l i lab items Hnd H) as [[H1 H2] | [-> [(old & H2 & ->) | [H2 ->]]]].
    + destruct (Z.eq_dec lab l); [congruence|]. rewrite app_nil_r. apply Hitems, H2.
    + destruct (Z.eq_dec l l); [|congruence]. rewrite (Hitems _ _ H2). reflexivity.
    + destruct (Z.eq_dec l l); [|congruence]. rewrite (Habs _ H2). reflexivity.
  - intros lab H. rewrite group_add_keys in H. rewrite Hf, Habs by tauto.
    destruct (Z.eq_dec lab l); [tauto | reflexivity].
Qed.

Lemma group_by_label_inv P groups locs groups' :
  groups_inv P groups -> group_by_label labels groups locs = Some groups' ->
  groups_inv (P ++ locs) groups'.
Proof.
  revert P groups. induction locs as [|i t IH]; intros P groups Hinv; simpl.
  - intros [= <-]. rewrite app_nil_r. exact Hinv.
  - destruct (labels !! i) as [l|] eqn:Ei; [|discriminate]. intros H.
    replace (P ++ i :: t) with ((P ++ [i]) ++ t) by (rewrite <- app_assoc; reflexivity).
    apply (IH _ _ (groups_inv_add P groups i l Ei Hinv) H).
Qed.

Lemma groups_inv_nil : groups_inv [] [].
Proof. split; [constructor|]. split; [intros ? ? []|]. reflexivity. Qed.

End Labels.

Lemma process_clusters_pairs cos embs (st : store) groups all st' :
  process_clusters cos embs st groups = Some (all, st') ->
  map (fun c => (cluster_id c, stories c)) all
  = List.filter (fun g => match snd g with [] => false | _ => true end) groups.
Proof.
  revert st all st'. induction groups as [|[label items] t IH]; intros st all st'; simpl.
  - intros [= <- _]. reflexivity.
  - destruct items as [|i items'] eqn:Eit; simpl; [apply IH|]. rewrite <- Eit.
    destruct (process_cluster cos embs st label items) as [[c st1]|] eqn:Ep; [|discriminate].
    destruct (process_clusters cos embs st1 t) as [[cs' st2]|] eqn:Eps; [|discriminate].
    intros [= <- _]. simpl.
    destruct (process_cluster_sources cos embs st st label items c st1 (fun l => eq_refl) Ep)
      as [_ [Hs [Hi _]]].
    rewrite Hs, Hi, (IH _ _ _ Eps), Eit. reflexivity.
Qed.

Lemma nodup_fst_filter {A B} (p : A * B -> bool) xs :
  List.NoDup (map fst xs) -> List.NoDup (map fst (List.filter p xs)).
Proof.
  induction xs as [|x t IH]; simpl; intros Hnd; [constructor|].
  inversion Hnd as [|? ? Hx Ht]; subst.
  destruct (p x); simpl; [|auto]. constructor; [|auto].
  intros H. apply Hx. apply in_map_iff in H as (y & Hy & Hin).
  apply filter_In in Hin as [Hin _]. rewrite <- Hy. apply in_map, Hin.
Qed.

Section Service.
Variable encode : pystr -> list Q.
Variable cosine_similarity : list Q -> list Q -> Q.
Variable fit : list (list Q) -> Q -> option (list Z).

(** X5 (extra).  the clusters returned by [cluster_and_summarize_stories] carry
    pairwise distinct [cluster_id]s, and each one's [stories] are exactly
    the positions, in increasing order, of the records that the fitted
    model labelled with its [cluster_id]. *)
Theorem cluster_ids_label_groups st t cs st' labels :
  cluster_and_summarize_stories encode cosine_similarity fit st t = Some (cs, st') ->
  fit (_vectorize_stories encode st) t = Some labels ->
  NoDup (map cluster_id cs) /\
  Forall (fun c => stories c
                   = List.filter (fun l => bool_decide (labels !! l = Some (cluster_id c)))
                                 (seq 0 (length st))) cs.
Proof.
  intros H Hfit.
  destruct (cluster_and_summarize_groups encode cosine_similarity fit _ _ _ _ H)
    as [-> | (labels' & groups & all & Hf & Hg & Ep & ->)].
  { split; constructor. }
  rewrite Hfit in Hf. injection Hf as <-.
  destruct (group_by_label_inv labels [] [] _ _ (groups_inv_nil labels) Hg) as [Hnd [Hit _]].
  simpl in Hit.
  pose proof (process_clusters_pairs _ _ _ _ _ _ Ep) as Hp.
  assert (Hall : List.NoDup (map cluster_id all) /\
                 Forall (fun c => stories c = List.filter (lab_of labels (cluster_id c))
                                                          (seq 0 (length st))) all).
  { split.
    - replace (map cluster_id all) with (map fst (map (fun c => (cluster_id c, stories c)) all))
        by (rewrite map_map; reflexivity).
      rewrite Hp. apply nodup_fst_filter, Hnd.
    - apply List.Forall_forall. intros c Hc. apply Hit.
      assert (In (cluster_id c, stories c) (map (fun c => (cluster_id c, stories c)) all))
        by (apply (in_map (fun c => (cluster_id c, stories c))), Hc).
      rewrite Hp in H0. apply filter_In in H0. tauto. }
  destruct Hall as [Hn Hs].
  pose proof (sort_by_size_desc_perm all) as Hperm.
  split.
  - apply NoDup_ListNoDup. rewrite <- firstn_map.
    apply (NoDup_app_remove_r _ (skipn 10 (map cluster_id (sort_by_size_desc all)))).
    rewrite firstn_skipn.
    apply (Permutation_NoDup (Permutation_map cluster_id (Permutation_sym Hperm)) Hn).
  - apply List.Forall_forall. intros c Hc. apply In_firstn_sort in Hc.
    rewrite List.Forall_forall in Hs. exact (Hs c Hc).
Qed.

End Service.

Lemma cluster_ids_label_groups_witness :
  exists cs st' labels,
    cluster_and_summarize_stories ClusterExample.encode3 ClusterExample.dot
      ClusterExample.fit_cosine ClusterExample.stories3 (1#2) = Some (cs, st') /\
    ClusterExample.fit_cosine (_vectorize_stories ClusterExample.encode3 ClusterExample.stories3)
      (1#2) = Some labels /\
    NoDup (map cluster_id cs) /\
    Forall (fun c => stories c
                     = List.filter (fun l => bool_decide (labels !! l = Some (cluster_id c)))
                                   (seq 0 (length ClusterExample.stories3))) cs.
Proof.
  eexists _, _, _. split; [cbv; reflexivity|]. split; [cbv; reflexivity|].
  eapply (cluster_ids_label_groups ClusterExample.encode3 ClusterExample.dot
            ClusterExample.fit_cosine ClusterExample.stories3 (1#2)); reflexivity.
Defined.

End ClusterIdFacts.

(* ------------------------------------------------------------------ *)
Module CollectFacts.
Import PyText PyLib PyLibFacts PyTextFacts Normalize UseCase UseCaseFacts Collect.

(** *** Dicts and sets *)

Lemma dict_keys_set {V} (d : dict V) k v x :
  In x (dict_keys (dict_set d k v)) <-> x = k \/ In x (dict_keys d).
Proof.
  induction d as [|[k' v'] t IH]; simpl; [intuition congruence|].
  destruct (str_eqb k k') eqn:E; simpl.
  - apply str_eqb_true in E. subst. intuition congruence.
  - rewrite IH. intuition congruence.
Qed.

Lemma dict_keys_set_nodup {V} (d : dict V) k v :
  List.NoDup (dict_keys d) -> List.NoDup (dict_keys (dict_set d k v)).
Proof.
  induction d as [|[k' v'] t IH]; simpl; intros Hnd; [repeat constructor; intros []|].
  inversion Hnd as [|? ? Hk Ht]; subst.
  destruct (str_eqb k k') eqn:E; simpl; constructor; auto.
  rewrite dict_keys_set. intros [-> | H]; [|tauto].
  rewrite (proj2 (str_eqb_true k k) eq_refl) in E. discriminate.
Qed.

Lemma dict_get_set_neq {V} (d : dict V) k k' v :
  k' <> k -> dict_get (dict_set d k v) k' = dict_get d k'.
Proof.
  intros Hne. induction d as [|[k1 v1] t IH]; simpl.
  - destruct (str_eqb k' k) eqn:E; [apply str_eqb_true in E; congruence | reflexivity].
  - destruct (str_eqb k k1) eqn:E; simpl.
    + apply str_eqb_true in E. subst.
      destruct (str_eqb k' k1) eqn:E'; [apply str_eqb_true in E'; congruence | reflexivity].
    + destruct (str_eqb k' k1); [reflexivity | exact IH].
Qed.

Lemma dict_get_None {V} (d : dict V) k : dict_get d k = None -> ~ In k (dict_keys d).
Proof. intros H Hk. destruct (dict_get_keys d k Hk) as [v Hv]. congruence. Qed.

Lemma dict_get_Some_key {V} (d : dict V) k v : dict_get d k = Some v -> In k (dict_keys d).
Proof. intros H. apply dict_get_In in H. apply (in_map fst) in H. exact H. Qed.

Lemma set_add_elem {A} `{EqDecision A} (xs : list A) x y :
  In y (set_add xs x) <-> y = x \/ In y xs.
Proof.
  unfold set_add. case_bool_decide as H.
  - apply list_elem_of_In in H. split; [tauto|]. intros [-> | ?]; auto.
  - rewrite in_app_iff. simpl. intuition congruence.
Qed.

Lemma nodup_snoc {A} (xs : list A) x : List.NoDup xs -> ~ In x xs -> List.NoDup (xs ++ [x]).
Proof.
  induction xs as [|y t IH]; simpl; intros H Hx; [repeat constructor; intros []|].
  inversion H as [|? ? Hy Ht]; subst. constructor.
  - rewrite in_app_iff. simpl. intuition congruence.
  - apply IH; [exact Ht | tauto].
Qed.

Lemma set_add_nodup {A} `{EqDecision A} (xs : list A) x :
  List.NoDup xs -> List.NoDup (set_add xs x).
Proof.
  unfold set_add. case_bool_decide as H; [auto|]. intros Hnd.
  apply nodup_snoc; [exact Hnd|]. intros Hx. apply H, list_elem_of_In, Hx.
Qed.

(** *** One step of the loop *)

Definition doc_key (d : udoc) : pystr := _normalize_key (story_what d).
Definition doc_actor (d : udoc) : pystr := actor_label_of (story_who d).

(** The entry stored under [key] after a kept story with [what] and [why]. *)
Definition new_entry (um : dict usecase_entry) (key what : pystr) (why : option pystr)
  : usecase_entry :=
  let e1 := match dict_get um key with
            | Some e => e
            | None => {| label := what; sentences := []; whys := [] |}
            end in
  match why with
  | Some w => if mem w (whys e1) then e1
              else {| label := label e1; sentences := sentences e1; whys := whys e1 ++ [w] |}
  | None => e1
  end.

Definition um_after (um : dict usecase_entry) (key what : pystr) (why : option pystr)
  : dict usecase_entry :=
  let usecase_map :=
    match dict_get um key with
    | Some _ => um
    | None => dict_set um key {| label := what; sentences := []; whys := [] |}
    end in
  match why, dict_get usecase_map key with
  | Some w, Some e =>
      if mem w (whys e) then usecase_map
      else dict_set usecase_map key
             {| label := label e; sentences := sentences e; whys := whys e ++ [w] |}
  | _, _ => usecase_map
  end.

Lemma collect_step_skip acc d : story_what d = [] -> collect_step acc d = acc.
Proof.
  destruct acc as [[um acts] es]. unfold collect_step. intros E. rewrite E. reflexivity.
Qed.

Lemma collect_step_kept um acts es d :
  story_what d <> [] ->
  collect_step (um, acts, es) d
  = (um_after um (doc_key d) (story_what d) (story_why d),
     set_add acts (doc_actor d), set_add es (doc_actor d, doc_key d)).
Proof.
  unfold collect_step, um_after, doc_key, doc_actor. cbv zeta.
  destruct (story_what d) as [|c t]; [congruence|]. reflexivity.
Qed.

Lemma um_after_get um key what why k :
  dict_get (um_after um key what why) k
  = if str_eqb k key then Some (new_entry um key what why) else dict_get um k.
Proof.
  unfold um_after, new_entry.
  destruct (str_eqb k key) eqn:Ek.
  - apply str_eqb_true in Ek. subst k.
    destruct (dict_get um key) as [e|] eqn:E; rewrite ?dict_get_set_eq, ?E;
      cbv beta iota zeta; destruct why as [w|]; try destruct (mem _ _) eqn:?; rewrite ?Heqb; rewrite ?dict_get_set_eq, ?E; reflexivity.
  - assert (Hne : k <> key) by (intros ->; rewrite (proj2 (str_eqb_true key key) eq_refl) in Ek;
                                discriminate).
    destruct (dict_get um key) as [e|] eqn:E; rewrite ?dict_get_set_eq, ?E;
      cbv beta iota zeta; destruct why as [w|]; try destruct (mem _ _) eqn:?; rewrite ?Heqb; rewrite ?dict_get_set_neq; auto.
Qed.

Lemma um_after_keys um key what why x :
  In x (dict_keys (um_after um key what why)) <-> x = key \/ In x (dict_keys um).
Proof.
  unfold um_after.
  destruct (dict_get um key) as [e|] eqn:E.
  - assert (Hk : In key (dict_keys um)) by (eapply dict_get_Some_key; exact E).
    rewrite ?E. cbv beta iota zeta; destruct why as [w|]; try destruct (mem _ _) eqn:?; rewrite ?Heqb; rewrite ?dict_keys_set; intuition congruence.
  - rewrite dict_get_set_eq.
    cbv beta iota zeta; destruct why as [w|]; try destruct (mem _ _) eqn:?; rewrite ?Heqb; rewrite ?dict_keys_set; intuition congruence.
Qed.

Lemma um_after_nodup um key what why :
  List.NoDup (dict_keys um) -> List.NoDup (dict_keys (um_after um key what why)).
Proof.
  intros Hnd. unfold um_after.
  destruct (dict_get um key) as [e|] eqn:E; rewrite ?dict_get_set_eq, ?E;
    cbv beta iota zeta; destruct why as [w|]; try destruct (mem _ _) eqn:?; rewrite ?Heqb; auto 6 using dict_keys_set_nodup.
Qed.

(** *** The loop invariant *)

Definition kept (d : udoc) : Prop := story_what d <> [].

Definition entry_ok (P : list udoc) (k : pystr) (e : usecase_entry) : Prop :=
  (exists pre d post, P = pre ++ d :: post /\ kept d /\ story_what d = label e /\ doc_key d = k /\
     Forall (fun d' => story_what d' = [] \/ doc_key d' <> k) pre) /\
  List.NoDup (whys e) /\
  (forall w, In w (whys e) <->
     exists d, In d P /\ kept d /\ doc_key d = k /\ story_why d = Some w) /\
  sentences e = [].

Definition collect_inv (P : list udoc) (acc : collect_state) : Prop :=
  let '(um, acts, es) := acc in
  List.NoDup (dict_keys um) /\ List.NoDup acts /\ List.NoDup es /\
  (forall k, In k (dict_keys um) <-> exists d, In d P /\ kept d /\ doc_key d = k) /\
  (forall a, In a acts <-> exists d, In d P /\ kept d /\ doc_actor d = a) /\
  (forall a k, In (a, k) es <->
     exists d, In d P /\ kept d /\ doc_actor d = a /\ doc_key d = k) /\
  (forall k e, dict_get um k = Some e -> entry_ok P k e).

Lemma collect_inv_nil : collect_inv [] ([], [], []).
Proof.
  repeat split; try constructor; simpl; try tauto;
    try (intros (? & [] & _)); try discriminate.
Qed.

Lemma In_snoc {A} (P : list A) d x : In x (P ++ [d]) <-> In x P \/ x = d.
Proof. rewrite in_app_iff. simpl. intuition congruence. Qed.

Lemma collect_inv_step P acc d : collect_inv P acc -> collect_inv (P ++ [d]) (collect_step acc d).
Proof.
  destruct acc as [[um acts] es].
  intros (Hk & Ha & He & Ck & Ca & Ce & Cm).
  destruct (decide (story_what d = [])) as [Hs|Hkept].
  - rewrite collect_step_skip by exact Hs.
    assert (Hd : forall d', In d' (P ++ [d]) -> kept d' -> In d' P).
    { intros d' Hin Hk'. apply In_snoc in Hin as [? | ->]; [assumption|]. contradiction. }
    split; [exact Hk|]. split; [exact Ha|]. split; [exact He|].
    split; [|split; [|split]].
    + intros k. rewrite Ck. split; intros (d' & H1 & H2 & H3); exists d';
        (split; [|auto]); [apply In_snoc; auto | apply Hd; auto].
    + intros a. rewrite Ca. split; intros (d' & H1 & H2 & H3); exists d';
        (split; [|auto]); [apply In_snoc; auto | apply Hd; auto].
    + intros a k. rewrite Ce. split; intros (d' & H1 & H2 & H3); exists d';
        (split; [|auto]); [apply In_snoc; auto | apply Hd; auto].
    + intros k e Hg. destruct (Cm k e Hg) as [(pre & d0 & post & HP & H0 & H1 & H2 & H3) [W1 [W2 W3]]].
      split; [exists pre, d0, (post ++ [d]); split; [rewrite HP, <- app_assoc; reflexivity | auto]|].
      split; [exact W1|]. split; [|exact W3].
      intros w. rewrite W2. split; intros (d' & H4 & H5 & H6); exists d';
        (split; [|auto]); [apply In_snoc; auto | apply Hd; tauto].
  - rewrite collect_step_kept by exact Hkept.
    split; [apply um_after_nodup, Hk|].
    split; [apply set_add_nodup, Ha|].
    split; [apply set_add_nodup, He|].
    split; [|split; [|split]].
    + intros k. rewrite um_after_keys, Ck. split.
      * intros [-> | (d' & H1 & H2 & H3)]; [exists d; rewrite In_snoc; auto|].
        exists d'. rewrite In_snoc. auto.
      * intros (d' & H1 & H2 & H3). apply In_snoc in H1 as [H1 | ->]; [right; eauto | left; auto].
    + intros a. rewrite set_add_elem, Ca. split.
      * intros [-> | (d' & H1 & H2 & H3)]; [exists d; rewrite In_snoc; auto|].
        exists d'. rewrite In_snoc. auto.
      * intros (d' & H1 & H2 & H3). apply In_snoc in H1 as [H1 | ->]; [right; eauto | left; auto].
    + intros a k. rewrite set_add_elem, Ce. split.
      * intros [[= -> ->] | (d' & H1 & H2 & H3)]; [exists d; rewrite In_snoc; auto|].
        exists d'. rewrite In_snoc. auto.
      * intros (d' & H1 & H2 & H3 & H4). apply In_snoc in H1 as [H1 | ->];
          [right; eauto | left; subst; reflexivity].
    + intros k e. rewrite um_after_get. destruct (str_eqb k (doc_key d)) eqn:Ek.
      * apply str_eqb_true in Ek. subst k. intros [= <-].
        unfold new_entry.
        destruct (dict_get um (doc_key d)) as [e0|] eqn:E0.
        -- destruct (Cm _ _ E0) as [(pre & d0 & post & HP & H0 & H1 & H2 & H3) [W1 [W2 W3]]].
           assert (Hfirst : exists pre d1 post, P ++ [d] = pre ++ d1 :: post /\ kept d1 /\
                     story_what d1 = label e0 /\ doc_key d1 = doc_key d /\
                     Forall (fun d' => story_what d' = [] \/ doc_key d' <> doc_key d) pre).
           { exists pre, d0, (post ++ [d]). rewrite HP, <- app_assoc. auto. }
           assert (Hw : forall w, (exists d', In d' (P ++ [d]) /\ kept d' /\
                                    doc_key d' = doc_key d /\ story_why d' = Some w)
                                  <-> In w (whys e0) \/ story_why d = Some w).
           { intros w. rewrite W2. split.
             - intros (d' & H4 & H5 & H6 & H7). apply In_snoc in H4 as [H4 | ->]; [left; eauto|auto].
             - intros [(d' & H4 & H5 & H6 & H7) | H4]; [exists d'; rewrite In_snoc; auto|].
               exists d. rewrite In_snoc. auto. }
           destruct (story_why d) as [w|] eqn:Ew.
           ++ destruct (mem w (whys e0)) eqn:Em.
              ** apply mem_In in Em. split; [exact Hfirst|]. split; [exact W1|]. split; [|exact W3].
                 intros w'. rewrite Hw. intuition congruence.
              ** split; [exact Hfirst|]. simpl. split; [|split; [|exact W3]].
                 --- apply nodup_snoc; [exact W1|]. rewrite <- mem_In. congruence.
                 --- intros w'. rewrite Hw, In_snoc. intuition congruence.
           ++ split; [exact Hfirst|]. split; [exact W1|]. split; [|exact W3].
              intros w'. rewrite Hw. intuition congruence.
        -- pose proof (dict_get_None _ _ E0) as Hn. rewrite Ck in Hn.
           assert (Hfirst : Forall (fun d' => story_what d' = [] \/ doc_key d' <> doc_key d) P).
           { apply List.Forall_forall. intros d' Hd'.
             destruct (decide (story_what d' = [])) as [?|Hk']; [left; assumption|].
             right. intros Heq. apply Hn. exists d'. auto. }
           assert (Hw : forall w, (exists d', In d' (P ++ [d]) /\ kept d' /\
                                    doc_key d' = doc_key d /\ story_why d' = Some w)
                                  <-> story_why d = Some w).
           { intros w. split.
             - intros (d' & H4 & H5 & H6 & H7). apply In_snoc in H4 as [H4 | ->]; [|auto].
               exfalso. apply Hn. eauto.
             - intros H4. exists d. rewrite In_snoc. auto. }
           destruct (story_why d) as [w|] eqn:Ew; simpl.
           ++ split; [exists P, d, []; auto|]. split; [repeat constructor; intros []|].
              split; [|reflexivity]. intros w'. rewrite Hw. simpl. intuition congruence.
           ++ split; [exists P, d, []; auto|]. split; [constructor|].
              split; [|reflexivity]. intros w'. rewrite Hw. simpl. intuition congruence.
      * assert (Hne : k <> doc_key d) by (intros ->; rewrite (proj2 (str_eqb_true _ _) eq_refl) in Ek;
                                           discriminate).
        intros Hg. destruct (Cm k e Hg) as [(pre & d0 & post & HP & H0 & H1 & H2 & H3) [W1 [W2 W3]]].
        split; [exists pre, d0, (post ++ [d]); split; [rewrite HP, <- app_assoc; reflexivity | auto]|].
        split; [exact W1|]. split; [|exact W3].
        intros w. rewrite W2. split.
        -- intros (d' & H4 & H5 & H6 & H7). exists d'. rewrite In_snoc. auto.
        -- intros (d' & H4 & H5 & H6 & H7). apply In_snoc in H4 as [H4 | ->]; [eauto|congruence].
Qed.

Lemma collect_inv_fold P acc cursor :
  collect_inv P acc -> collect_inv (P ++ cursor) (fold_left collect_step cursor acc).
Proof.
  revert P acc. induction cursor as [|d t IH]; intros P acc H; simpl.
  - rewrite app_nil_r. exact H.
  - replace (P ++ d :: t) with ((P ++ [d]) ++ t) by (rewrite <- app_assoc; reflexivity).
    apply IH, collect_inv_step, H.
Qed.

Lemma collect_inv_all cursor : collect_inv cursor (_collect_from_stories cursor).
Proof. apply (collect_inv_fold [] _ cursor collect_inv_nil). Qed.

(** *** Whitespace-clean actor labels *)

Lemma collapsed_lstrip_space b b' x :
  collapsed b x = true -> collapsed b' (lstrip is_space x) = true.
Proof.
  revert b. induction x as [|c t IH]; intros b; simpl; [reflexivity|].
  destruct (is_space c) eqn:E.
  - intros H. apply andb_prop in H as [_ H]. exact (IH true H).
  - intros H. simpl. rewrite E. exact H.
Qed.

Lemma collapsed_prefix b x y : collapsed b (x ++ y) = true -> collapsed b x = true.
Proof.
  revert b. induction x as [|c t IH]; intros b; simpl; [reflexivity|].
  destruct (is_space c).
  - intros H. apply andb_prop in H as [H1 H2]. rewrite H1. exact (IH true H2).
  - apply IH.
Qed.

Lemma collapsed_strip_space x : collapsed false x = true -> collapsed false (strip is_space x) = true.
Proof.
  intros H. unfold strip, rstrip.
  pose proof (collapsed_lstrip_space false false x H) as H1.
  set (y := lstrip is_space x) in *.
  destruct (lstrip_suffix is_space (rev y)) as [pre Hpre].
  apply (collapsed_prefix false _ (rev pre)).
  rewrite <- rev_app_distr, <- Hpre, rev_involutive. exact H1.
Qed.

Lemma actor_label_clean who :
  actor_label_of who <> [] /\ ends_not is_space (actor_label_of who) /\
  collapsed false (actor_label_of who) = true.
Proof.
  unfold actor_label_of.
  pose proof (strip_ends is_space (ws_sub false who)) as He.
  pose proof (collapsed_strip_space _ (ws_sub_collapsed false who)) as Hc.
  destruct (strip is_space (ws_sub false who)) as [|c t] eqn:E.
  - split; [discriminate|]. split; [|reflexivity].
    split; intros d Hd; vm_compute in Hd; injection Hd as <-; reflexivity.
  - split; [discriminate|]. split; [exact He | exact Hc].
Qed.

(** *** Rendering never raises on a collected map *)

Lemma render_total k pid (um : dict usecase_entry) actor_set edges :
  0 < k ->
  exists puml_list, _render_puml_chunks k pid um actor_set edges = Some puml_list /\
    length puml_list = (length um + k - 1) / k.
Proof.
  intros Hk. destruct (chunk_spec (dict_keys um) k Hk) as [chunks [Hc [Hlen [Hcat _]]]].
  set (g := fun '(ci, ckeys) =>
              chunk_lines pid um edges (length chunks) ci ckeys : option (list puml_line)).
  destruct (omap_total g (enumerate_from 1 chunks)) as [Ls HLs].
  { intros [ci ck] Hin.
    assert (Hsub : forall key, In key ck -> In key (dict_keys um)).
    { intros key Hkey. rewrite <- Hcat. apply in_concat. exists ck.
      split; [eapply enumerate_from_In, Hin | exact Hkey]. }
    destruct (chunk_lines_spec pid um edges (length chunks) ci ck Hsub) as [ls [E _]].
    simpl. rewrite E. eexists; reflexivity. }
  exists (map (fun ls => join_nl (map line_text ls)) Ls).
  unfold _render_puml_chunks, render_chunk_lines. rewrite Hc.
  change (omap (fun '(ci, ckeys) => chunk_lines pid um edges (length chunks) ci ckeys)
            (enumerate_from 1 chunks)) with (omap g (enumerate_from 1 chunks)).
  rewrite HLs. split; [reflexivity|].
  apply omap_Forall2 in HLs. rewrite length_map, <- (Forall2_length _ _ _ HLs).
  rewrite length_enumerate_from, Hlen. unfold dict_keys. rewrite length_map. reflexivity.
Qed.

Lemma edges_bound (acts keys : list pystr) (es : list (pystr * pystr)) :
  List.NoDup es -> (forall a k, In (a, k) es -> In a acts /\ In k keys) ->
  length es <= length acts * length keys.
Proof.
  intros Hnd Hin. rewrite <- length_prod. apply NoDup_incl_length; [exact Hnd|].
  intros [a k] H. apply in_prod_iff. apply Hin, H.
Qed.

(** X6 (extra).  [_collect_from_stories] returns a use-case map, an actor
    set and an edge set without repeats, and they hold exactly what the
    kept stories (those whose stripped [what] is non-empty) give: the
    normalised keys of their [what], their actor labels, and the
    (actor label, key) pair of each one. *)
Theorem collect_from_stories_sets cursor :
  let '(usecase_map, actor_set, edges) := _collect_from_stories cursor in
  NoDup (dict_keys usecase_map) /\ NoDup actor_set /\ NoDup edges /\
  (forall k, In k (dict_keys usecase_map) <->
     exists d, In d cursor /\ story_what d <> [] /\ _normalize_key (story_what d) = k) /\
  (forall a, In a actor_set <->
     exists d, In d cursor /\ story_what d <> [] /\ actor_label_of (story_who d) = a) /\
  (forall a k, In (a, k) edges <->
     exists d, In d cursor /\ story_what d <> [] /\ actor_label_of (story_who d) = a /\
               _normalize_key (story_what d) = k).
Proof.
  pose proof (collect_inv_all cursor) as H.
  destruct (_collect_from_stories cursor) as [[um acts] es].
  destruct H as (Hk & Ha & He & Ck & Ca & Ce & _).
  split; [apply NoDup_ListNoDup, Hk|]. split; [apply NoDup_ListNoDup, Ha|].
  split; [apply NoDup_ListNoDup, He|]. split; [exact Ck|]. split; [exact Ca | exact Ce].
Qed.

(** X7 (extra).  Each entry of the map built by [_collect_from_stories]
    keeps as its label the stripped [what] of the first kept story with
    that key (so the label is non-empty, has no surrounding whitespace and
    normalises to the key); its [whys] hold, without repeats, exactly the
    non-empty [why] values of the kept stories with that key; its
    [sentences] stay empty. *)
Theorem collect_usecase_entries cursor k e :
  dict_get (fst (fst (_collect_from_stories cursor))) k = Some e ->
  _normalize_key (label e) = k /\ label e <> [] /\ ends_not is_space (label e) /\
  (exists pre d post, cursor = pre ++ d :: post /\ story_what d = label e /\
     Forall (fun d' => story_what d' = [] \/ _normalize_key (story_what d') <> k) pre) /\
  NoDup (whys e) /\
  (forall w, In w (whys e) <->
     exists d, In d cursor /\ story_what d <> [] /\ _normalize_key (story_what d) = k /\
               story_why d = Some w) /\
  sentences e = [].
Proof.
  pose proof (collect_inv_all cursor) as H.
  destruct (_collect_from_stories cursor) as [[um acts] es]. simpl.
  destruct H as (_ & _ & _ & _ & _ & _ & Cm). intros Hg.
  destruct (Cm k e Hg) as [(pre & d & post & HP & Hkd & H1 & H2 & H3) [W1 [W2 W3]]].
  unfold doc_key in H2.
  split; [rewrite <- H1; exact H2|]. split; [rewrite <- H1; exact Hkd|].
  split; [rewrite <- H1; apply strip_ends|].
  split; [exists pre, d, post; auto|].
  split; [apply NoDup_ListNoDup, W1|]. split; [exact W2 | exact W3].
Qed.

(** X8 (extra).  Every actor label collected by [_collect_from_stories] is
    non-empty, neither starts nor ends with whitespace, and its only
    whitespace characters are single spaces between non-blank runs. *)
Theorem collect_actor_labels_clean cursor a :
  In a (snd (fst (_collect_from_stories cursor))) ->
  a <> [] /\ ends_not is_space a /\ collapsed false a = true.
Proof.
  pose proof (collect_inv_all cursor) as H.
  destruct (_collect_from_stories cursor) as [[um acts] es]. simpl.
  destruct H as (_ & _ & _ & _ & Ca & _). intros Hin.
  apply Ca in Hin as (d & _ & _ & <-). apply actor_label_clean.
Qed.

Section Create.
Variable get_url : pystr -> pystr.
Variable edge_iter : list (pystr * pystr) -> list (pystr * pystr).

(** X9 (extra).  [create_use_case_diagrams_by_project] never raises,
    whatever order the edge set is iterated in.  With no use case it
    returns empty lists and zero counts, writes no snapshot, and then the
    actor and edge sets are indeed empty.  Otherwise it writes a snapshot
    equal to what it returns: ceil(n/6) diagrams for n use cases, one URL
    per diagram, the three set sizes as stats, at least one actor, and at
    most (actors * use cases) edges. *)
Theorem create_use_case_diagrams_result pid cursor :
  let '(usecase_map, actor_set, edges) := _collect_from_stories cursor in
  exists r snap,
    create_use_case_diagrams_by_project get_url edge_iter pid cursor = Some (r, snap) /\
    (usecase_map = [] ->
       diagrams_puml r = [] /\ diagrams_url r = [] /\ stat_actors r = 0 /\
       stat_usecases r = 0 /\ stat_edges r = 0 /\ snap = None /\
       actor_set = [] /\ edges = []) /\
    (usecase_map <> [] ->
       snap = Some r /\
       length (diagrams_puml r) = (length usecase_map + 5) / 6 /\
       diagrams_url r = map get_url (diagrams_puml r) /\
       stat_actors r = length actor_set /\ stat_usecases r = length usecase_map /\
       stat_edges r = length edges /\
       1 <= stat_actors r /\ stat_edges r <= stat_actors r * stat_usecases r).
Proof.
  pose proof (collect_inv_all cursor) as H.
  unfold create_use_case_diagrams_by_project.
  destruct (_collect_from_stories cursor) as [[um acts] es].
  destruct H as (Hk & Ha & He & Ck & Ca & Ce & _).
  destruct (render_total MAX_USECASES_PER_DIAGRAM pid um acts (edge_iter es)
              ltac:(unfold MAX_USECASES_PER_DIAGRAM; lia)) as [pl [Hr Hl]].
  destruct um as [|[k0 e0] um'].
  - assert (Hacts : acts = []).
    { destruct acts as [|a t]; [reflexivity|]. exfalso.
      destruct (proj1 (Ca a) (or_introl eq_refl)) as (d & H1 & H2 & _).
      apply (proj2 (Ck (doc_key d))). exists d. auto. }
    assert (Hes : es = []).
    { destruct es as [|[a k] t]; [reflexivity|]. exfalso.
      destruct (proj1 (Ce a k) (or_introl eq_refl)) as (d & H1 & H2 & _).
      apply (proj2 (Ck (doc_key d))). exists d. auto. }
    eexists _, _. split; [reflexivity|].
    split; [intros _; repeat split; assumption | intros []; reflexivity].
  - rewrite Hr.
    eexists _, _. split; [reflexivity|].
    split; [discriminate|]. intros _.
    cbn [diagrams_puml diagrams_url stat_actors stat_usecases stat_edges].
    split; [reflexivity|].
    split; [rewrite Hl; unfold MAX_USECASES_PER_DIAGRAM; f_equal; lia|]. split; [reflexivity|].
    split; [reflexivity|]. split; [reflexivity|]. split; [reflexivity|].
    split.
    + destruct acts as [|a t]; [|simpl; lia]. exfalso.
      destruct (proj1 (Ck k0) (or_introl eq_refl)) as (d & H1 & H2 & _).
      apply (proj2 (Ca (doc_actor d))). exists d. auto.
    + replace (length ((k0, e0) :: um')) with (length (dict_keys ((k0, e0) :: um')))
        by (unfold dict_keys; apply length_map).
      apply edges_bound; [exact He|]. intros a k Hin.
      destruct (proj1 (Ce a k) Hin) as (d & H1 & H2 & H3 & H4).
      split; [apply Ca | apply Ck]; exists d; auto.
Qed.

End Create.

(** Four stored stories: two with the same use case up to case, spacing
    and surrounding whitespace, one with a blank [what], one with an empty
    [who]. *)
Definition sample_cursor : list udoc :=
  [{| d_who := Some (s "  product   owner "); d_what := Some (s " Export Report ");
      d_why := Some (s "share it") |};
   {| d_who := None; d_what := Some (s "export  report"); d_why := Some (s "audit it") |};
   {| d_who := Some (s "admin"); d_what := Some (s "   "); d_why := None |};
   {| d_who := Some []; d_what := Some (s "(Delete account)"); d_why := Some (s "share it") |}].

Lemma collect_usecase_entries_witness :
  exists e,
    dict_get (fst (fst (_collect_from_stories sample_cursor))) (s "export report") = Some e /\
    _normalize_key (label e) = s "export report" /\ label e <> [] /\ ends_not is_space (label e) /\
    (exists pre d post, sample_cursor = pre ++ d :: post /\ story_what d = label e /\
       Forall (fun d' => story_what d' = [] \/ _normalize_key (story_what d') <> s "export report") pre) /\
    NoDup (whys e) /\
    (forall w, In w (whys e) <->
       exists d, In d sample_cursor /\ story_what d <> [] /\
                 _normalize_key (story_what d) = s "export report" /\ story_why d = Some w) /\
    sentences e = [].
Proof.
  eexists. split; [vm_compute; reflexivity|].
  apply (collect_usecase_entries sample_cursor (s "export report")). vm_compute. reflexivity.
Defined.

Lemma collect_actor_labels_clean_witness :
  In (s "product owner") (snd (fst (_collect_from_stories sample_cursor))) /\
  s "product owner" <> [] /\ ends_not is_space (s "product owner") /\
  collapsed false (s "product owner") = true.
Proof.
  assert (H : In (s "product owner") (snd (fst (_collect_from_stories sample_cursor))))
    by (vm_compute; left; reflexivity).
  split; [exact H|]. apply (collect_actor_labels_clean sample_cursor), H.
Defined.

End CollectFacts.

Module ClusterDiagramFacts.
Import PyText PyLib PyLibFacts Normalize UseCase Cluster ClusterFacts ClusterMoreFacts
  Collect CollectFacts ClusterDiagram.

(** *** Escaping of labels *)

(** How a reader of the quoted label takes [\"] back to ["]. *)
Fixpoint unescape (x : pystr) : pystr :=
  match x with
  | c :: ((d :: t) as r) =>
      if ascii_dec c backslash then
        if ascii_dec d dq then dq :: unescape t else c :: unescape r
      else c :: unescape r
  | _ => x
  end.

Definition nl_space (c : ascii) : ascii := if ascii_dec c newline then " "%char else c.

Lemma nl_space_dq c : nl_space c = dq <-> c = dq.
Proof. unfold nl_space. destruct (ascii_dec c newline) as [->|]; [split; discriminate|tauto]. Qed.

Lemma nl_space_bs c : nl_space c = backslash <-> c = backslash.
Proof. unfold nl_space. destruct (ascii_dec c newline) as [->|]; [split; discriminate|tauto]. Qed.

Definition head_not_dq (x : pystr) : Prop :=
  match x with d :: _ => d <> dq | [] => True end.

Lemma escape_dq_head x : head_not_dq (escape_dq x).
Proof.
  destruct x as [|c t]; simpl; [exact I|].
  destruct (ascii_dec c dq); simpl; [discriminate | assumption].
Qed.

Lemma replace_nl_head x : head_not_dq x -> head_not_dq (replace_nl x).
Proof. destruct x as [|c t]; simpl; [tauto|]. fold (nl_space c). rewrite nl_space_dq. tauto. Qed.

Lemma unescape_cons c r : head_not_dq r -> unescape (c :: r) = c :: unescape r.
Proof.
  destruct r as [|d t]; simpl; [reflexivity|]. intros Hd.
  destruct (ascii_dec c backslash); [|reflexivity].
  destruct (ascii_dec d dq); [contradiction | reflexivity].
Qed.

Lemma unescape_safe_label x : unescape (safe_label x) = replace_nl x.
Proof.
  unfold safe_label. induction x as [|c t IH]; [reflexivity|]. cbn [escape_dq].
  destruct (ascii_dec c dq) as [->|Hc].
  - simpl. rewrite IH. reflexivity.
  - change (replace_nl (c :: escape_dq t)) with (nl_space c :: replace_nl (escape_dq t)).
    rewrite unescape_cons by apply replace_nl_head, escape_dq_head.
    rewrite IH. reflexivity.
Qed.

Lemma escape_dq_preceded x i :
  nth_error (escape_dq x) i = Some dq ->
  exists j, i = S j /\ nth_error (escape_dq x) j = Some backslash.
Proof.
  revert i. induction x as [|c t IH]; intros i; simpl; [destruct i; discriminate|].
  destruct (ascii_dec c dq) as [->|Hc].
  - destruct i as [|[|i]]; simpl.
    + discriminate.
    + intros _. exists 0. auto.
    + intros H. destruct (IH i H) as [j [-> Hj]]. exists (S (S j)). auto.
  - destruct i as [|i]; simpl.
    + intros [= E]. contradiction.
    + intros H. destruct (IH i H) as [j [-> Hj]]. exists (S j). auto.
Qed.

Lemma length_escape_dq x : length (escape_dq x) = length x + count_occ ascii_dec x dq.
Proof.
  induction x as [|c t IH]; simpl; [reflexivity|].
  destruct (ascii_dec c dq) as [->|Hc]; simpl.
  - rewrite IH. destruct (ascii_dec dq dq); [lia | contradiction].
  - rewrite IH. destruct (ascii_dec c dq); [contradiction | lia].
Qed.

(** X10 (extra).  The [safe_label] written inside the quotes of an actor
    or use-case line has no newline, every double quote in it directly
    follows a backslash, dropping the backslash before each quote gives the
    label back with its newlines turned to spaces, and it is longer than
    the label by the number of double quotes in the label. *)
Theorem safe_label_escaped x :
  ~ In newline (safe_label x) /\
  (forall i, nth_error (safe_label x) i = Some dq ->
     exists j, i = S j /\ nth_error (safe_label x) j = Some backslash) /\
  unescape (safe_label x) = replace_nl x /\
  length (safe_label x) = length x + count_occ ascii_dec x dq.
Proof.
  unfold safe_label, replace_nl. fold nl_space.
  split; [|split; [|split]].
  - rewrite in_map_iff. intros [c [Hc _]]. unfold nl_space in Hc.
    destruct (ascii_dec c newline); [discriminate|]. congruence.
  - intros i Hi. rewrite nth_error_map in Hi.
    destruct (nth_error (escape_dq x) i) as [c|] eqn:Ec; [|discriminate].
    injection Hi as Hi. assert (c = dq) as -> by (apply nl_space_dq; exact Hi).
    destruct (escape_dq_preceded x i Ec) as [j [-> Hj]].
    exists j. split; [reflexivity|]. rewrite nth_error_map, Hj. reflexivity.
  - apply unescape_safe_label.
  - rewrite length_map. apply length_escape_dq.
Qed.

(** *** Keys, actors and edges of the loop state *)

Definition keys_add (ks : list pystr) (k : pystr) : list pystr :=
  if mem k ks then ks else ks ++ [k].

Lemma dict_keys_set_in {V} (d : dict V) k v :
  In k (dict_keys d) -> dict_keys (dict_set d k v) = dict_keys d.
Proof.
  induction d as [|[k' v'] t IH]; simpl; [tauto|].
  destruct (str_eqb k k') eqn:E; simpl; [reflexivity|].
  intros [-> | H]; [rewrite (proj2 (str_eqb_true k k) eq_refl) in E; discriminate|].
  rewrite IH; auto.
Qed.

Lemma dict_keys_set_notin {V} (d : dict V) k v :
  ~ In k (dict_keys d) -> dict_keys (dict_set d k v) = dict_keys d ++ [k].
Proof.
  induction d as [|[k' v'] t IH]; simpl; [reflexivity|].
  intros Hn. destruct (str_eqb k k') eqn:E.
  - apply str_eqb_true in E. subst. tauto.
  - simpl. rewrite IH; auto.
Qed.

Lemma dict_keys_set_add {V} (d : dict V) k v :
  dict_keys (dict_set d k v) = keys_add (dict_keys d) k.
Proof.
  unfold keys_add. destruct (mem k (dict_keys d)) eqn:E.
  - apply mem_In in E. apply dict_keys_set_in, E.
  - apply dict_keys_set_notin. rewrite <- mem_In. congruence.
Qed.

Lemma um_after_keys_list um key what why :
  dict_keys (um_after um key what why) = keys_add (dict_keys um) key.
Proof.
  unfold um_after.
  destruct (dict_get um key) as [e|] eqn:E.
  - assert (Hk : In key (dict_keys um)) by (eapply dict_get_Some_key; exact E).
    assert (Ha : keys_add (dict_keys um) key = dict_keys um)
      by (unfold keys_add; rewrite (proj2 (mem_In _ _) Hk); reflexivity).
    rewrite Ha, ?E. cbv beta iota zeta. destruct why as [w|]; [|reflexivity].
    destruct (mem w (whys e)); [reflexivity|]. apply dict_keys_set_in, Hk.
  - rewrite dict_get_set_eq. cbv beta iota zeta.
    destruct why as [w|]; [destruct (mem _ _)|]; try apply dict_keys_set_add.
    rewrite dict_keys_set_in; [apply dict_keys_set_add|].
    apply dict_keys_set. left. reflexivity.
Qed.

Definition shape_t : Type := list pystr * list pystr * list (pystr * pystr).

Definition shape_step (sh : shape_t) (d : udoc) : shape_t :=
  let '(ks, acts, es) := sh in
  match story_what d with
  | [] => sh
  | _ => (keys_add ks (doc_key d), set_add acts (doc_actor d),
          set_add es (doc_actor d, doc_key d))
  end.

Definition shape (acc : collect_state) : shape_t :=
  let '(um, acts, es) := acc in (dict_keys um, acts, es).

Lemma collect_step_shape acc d : shape (collect_step acc d) = shape_step (shape acc) d.
Proof.
  destruct acc as [[um acts] es].
  destruct (decide (story_what d = [])) as [E|E].
  - rewrite collect_step_skip by exact E. unfold shape_step. simpl. rewrite E. reflexivity.
  - rewrite collect_step_kept by exact E. unfold shape_step. simpl.
    destruct (story_what d); [congruence|]. rewrite um_after_keys_list. reflexivity.
Qed.

Lemma fold_collect_shape ds acc :
  shape (fold_left collect_step ds acc) = fold_left shape_step ds (shape acc).
Proof.
  revert acc. induction ds as [|d t IH]; intros acc; simpl; [reflexivity|].
  rewrite IH, collect_step_shape. reflexivity.
Qed.

Lemma rep_state_shape rep : shape (rep_state rep) = shape (collect_step ([], [], []) rep).
Proof.
  rewrite collect_step_shape. unfold rep_state, shape_step, doc_key, doc_actor. simpl.
  destruct (story_what rep); reflexivity.
Qed.

Lemma rep_fold_shape rep ds :
  shape (fold_left collect_step ds (rep_state rep))
  = shape (_collect_from_stories (rep :: ds)).
Proof.
  unfold _collect_from_stories. rewrite !fold_collect_shape, rep_state_shape.
  rewrite collect_step_shape. reflexivity.
Qed.

(** *** The representative's use case stays first *)

Definition head_label (um : dict usecase_entry) (k l : pystr) : Prop :=
  head (dict_keys um) = Some k /\ exists e, dict_get um k = Some e /\ label e = l.

Lemma head_keys_add ks k k0 : head ks = Some k0 -> head (keys_add ks k) = Some k0.
Proof.
  unfold keys_add. destruct (mem k ks); [tauto|]. destruct ks; simpl; congruence.
Qed.

Lemma um_after_head um k l key what why :
  head_label um k l -> head_label (um_after um key what why) k l.
Proof.
  intros [Hh (e & He & Hl)]. split; [rewrite um_after_keys_list; apply head_keys_add, Hh|].
  rewrite um_after_get. destruct (str_eqb k key) eqn:Ek; [|eauto].
  apply str_eqb_true in Ek. subst key. eexists. split; [reflexivity|].
  unfold new_entry. rewrite He. destruct why as [w|]; [destruct (mem _ _)|]; exact Hl.
Qed.

Lemma collect_step_head um acts es d k l :
  head_label um k l -> head_label (fst (fst (collect_step (um, acts, es) d))) k l.
Proof.
  intros H. destruct (decide (story_what d = [])) as [E|E].
  - rewrite collect_step_skip by exact E. exact H.
  - rewrite collect_step_kept by exact E. apply um_after_head, H.
Qed.

Lemma fold_collect_head ds um acts es k l :
  head_label um k l ->
  head_label (fst (fst (fold_left collect_step ds (um, acts, es)))) k l.
Proof.
  revert um acts es. induction ds as [|d t IH]; intros um acts es H; cbn [fold_left]; [exact H|].
  pose proof (collect_step_head um acts es d k l H) as H1.
  destruct (collect_step (um, acts, es) d) as [[um1 acts1] es1]. apply IH, H1.
Qed.

Lemma rep_state_head rep :
  story_what rep <> [] ->
  head_label (fst (fst (rep_state rep))) (doc_key rep) (s "[REPRESENTATIVE] " ++ story_what rep).
Proof.
  intros Hne. unfold rep_state, doc_key.
  destruct (story_what rep) as [|c t]; [congruence|]. cbn zeta. cbn [fst].
  split; [reflexivity|]. eexists. split; [apply dict_get_set_eq | reflexivity].
Qed.

(** *** Rendering *)

Lemma insert_pair_In p ps q : In q (insert_pair p ps) <-> q = p \/ In q ps.
Proof.
  induction ps as [|r t IH]; simpl; [intuition congruence|].
  destruct (pair_ltb p r); simpl; [intuition congruence|]. rewrite IH. intuition congruence.
Qed.

Lemma length_insert_pair p ps : length (insert_pair p ps) = S (length ps).
Proof.
  induction ps as [|r t IH]; simpl; [reflexivity|].
  destruct (pair_ltb p r); simpl; [reflexivity | rewrite IH; reflexivity].
Qed.

Lemma sort_pairs_In ps q : In q (sort_pairs ps) <-> In q ps.
Proof.
  unfold sort_pairs. induction ps as [|p t IH]; simpl; [tauto|].
  rewrite insert_pair_In, IH. intuition congruence.
Qed.

Lemma length_sort_pairs ps : length (sort_pairs ps) = length ps.
Proof.
  unfold sort_pairs. induction ps as [|p t IH]; simpl; [reflexivity|].
  rewrite length_insert_pair, IH. reflexivity.
Qed.

Lemma assign_aliases_some p d i keys k :
  In k keys \/ is_Some (dict_get d k) -> is_Some (dict_get (assign_aliases p d i keys) k).
Proof.
  revert d i. induction keys as [|k' t IH]; intros d i H; simpl; [destruct H as [[]|]; auto|].
  apply IH. destruct H as [[-> | H] | H]; [right | left; exact H | right].
  - rewrite dict_get_set_eq. eexists; reflexivity.
  - apply dict_get_set_some, H.
Qed.

Lemma edge_lines_total actor_alias uc_alias es :
  (forall a k, In (a, k) es -> is_Some (dict_get actor_alias a) /\ is_Some (dict_get uc_alias k)) ->
  exists el, edge_lines actor_alias uc_alias es = Some el /\ length el = length es /\
    Forall (fun l => exists a u, l = CEdge a u) el.
Proof.
  intros H. unfold edge_lines.
  set (f := fun '(a, k) =>
              match dict_get actor_alias a, dict_get uc_alias k with
              | Some x, Some y => Some (CEdge x y)
              | _, _ => None
              end : option cline).
  destruct (omap_total f (sort_pairs es)) as [el Hel].
  { intros [a k] Hin. rewrite sort_pairs_In in Hin.
    destruct (H a k Hin) as [[x Hx] [y Hy]]. simpl. rewrite Hx, Hy. eexists; reflexivity. }
  exists el. split; [exact Hel|]. split.
  - apply omap_Forall2 in Hel. rewrite <- (Forall2_length _ _ _ Hel). apply length_sort_pairs.
  - apply List.Forall_forall. intros l Hl. destruct (omap_In _ _ _ _ Hel Hl) as [[a k] [_ Hf]].
    simpl in Hf. destruct (dict_get actor_alias a), (dict_get uc_alias k); try discriminate.
    injection Hf as <-. eauto.
Qed.

Lemma strongly_sorted_str_nodup xs : StronglySorted str_lt xs -> List.NoDup xs.
Proof.
  induction xs as [|x t IH]; intros H; [constructor|].
  apply StronglySorted_inv in H as [Ht Hx]. constructor; [|apply IH, Ht].
  intros Hin. rewrite List.Forall_forall in Hx. specialize (Hx x Hin).
  unfold str_lt in Hx. rewrite str_ltb_irrefl in Hx. discriminate.
Qed.

Lemma length_sorted_set xs : List.NoDup xs -> length (sorted_set xs) = length xs.
Proof.
  intros Hnd. destruct (sorted_set_spec xs) as [Hs Hin].
  pose proof (strongly_sorted_str_nodup _ Hs) as Hnd'.
  apply Nat.le_antisymm; apply NoDup_incl_length; auto; intros y; apply Hin.
Qed.

Lemma enumerate_from_map {A B} (h : A -> B) i xs :
  enumerate_from i (map h xs) = map (fun '(j, x) => (j, h x)) (enumerate_from i xs).
Proof. revert i. induction xs as [|x t IH]; intros i; simpl; [reflexivity | rewrite IH; reflexivity]. Qed.

Definition usecase_lines (ents : list pystr) : list cline :=
  map (fun '(i, lbl) => CUseCase (safe_label lbl) (_alias (s "U") i)) (enumerate_from 1 ents).

Lemma map_enum_label i (um : dict usecase_entry) :
  map (fun '(i, (_, e)) => CUseCase (safe_label (label e)) (_alias (s "U") i)) (enumerate_from i um)
  = map (fun '(i, lbl) => CUseCase (safe_label lbl) (_alias (s "U") i))
        (enumerate_from i (map (fun p => label (snd p)) um)).
Proof.
  revert i. induction um as [|[k e] t IH]; intros i; simpl; [reflexivity|].
  rewrite IH. reflexivity.
Qed.

Lemma cluster_lines_spec cid um acts es :
  (forall a k, In (a, k) es -> In a acts /\ In k (dict_keys um)) ->
  exists el,
    cluster_lines cid um acts es
    = Some ([CStart; CDirection; CTitle (s "Cluster " ++ str_of_Z cid ++ s " - Use Case Diagram");
             CBlank] ++ actor_lines (sorted_set acts) ++ [CBlank]
            ++ usecase_lines (map (fun p => label (snd p)) um) ++ [CBlank] ++ el ++ [CEnd]) /\
    length el = length es /\ Forall (fun l => exists a u, l = CEdge a u) el.
Proof.
  intros H.
  destruct (edge_lines_total (assign_aliases (s "A") [] 1 (sorted_set acts))
              (assign_aliases (s "U") [] 1 (dict_keys um)) es) as [el [El [Hl Hf]]].
  { intros a k Hin. destruct (H a k Hin) as [Ha Hk]. split; apply assign_aliases_some; left.
    - apply sorted_set_spec, Ha.
    - exact Hk. }
  exists el. split; [|split; assumption].
  unfold cluster_lines. cbv zeta. rewrite El. unfold usecase_lines.
  rewrite (map_enum_label 1 um). reflexivity.
Qed.

Lemma omap_In_val {A B} (f : A -> option B) xs ys x y :
  omap f xs = Some ys -> In x xs -> f x = Some y -> In y ys.
Proof.
  revert ys. induction xs as [|x' t IH]; intros ys; simpl; [tauto|].
  destruct (f x') as [y'|] eqn:E; [|discriminate].
  destruct (omap f t) as [ys'|]; [|discriminate]. intros [= <-] [-> | Hin] Hf.
  - left. congruence.
  - right. eapply IH; eauto.
Qed.

Lemma find_cluster_In cid cs c : find_cluster cid cs = Some c -> In c cs /\ cluster_id c = cid.
Proof.
  induction cs as [|c' t IH]; simpl; [discriminate|].
  destruct (Z.eqb (cluster_id c') cid) eqn:E.
  - intros [= <-]. apply Z.eqb_eq in E. auto.
  - intros H. destruct (IH H). auto.
Qed.

Section Service.
Variable encode : pystr -> list Q.
Variable cosine_similarity : list Q -> list Q -> Q.
Variable fit : list (list Q) -> Q -> option (list Z).
Variable get_url : pystr -> pystr.

Lemma cluster_member_facts st t cs st' c :
  cluster_and_summarize_stories encode cosine_similarity fit st t = Some (cs, st') ->
  In c cs ->
  size c = length (stories c) /\ In (representative_story c) (stories c) /\
  (forall l, In l (stories c) -> is_Some (st' !! l)).
Proof.
  intros H Hc. destruct (cluster_and_summarize_spec _ _ _ _ _ _ _ H) as [all [Hcs [Hp [Hf Hst]]]].
  assert (Hin : In c all).
  { eapply Permutation_in; [apply sort_by_size_desc_perm|].
    rewrite <- (firstn_skipn 10 (sort_by_size_desc all)), <- Hcs.
    apply in_app_iff. left; exact Hc. }
  rewrite List.Forall_forall in Hf. destruct (Hf c Hin) as [Hsz [Hrep _]].
  split; [exact Hsz|]. split; [exact Hrep|]. intros l Hl.
  assert (Hlt : l < length st).
  { assert (Hl' : In l (seq 0 (length st))).
    { eapply Permutation_in; [exact Hp|].
      apply in_concat. exists (stories c). split; [apply in_map, Hin | exact Hl]. }
    apply in_seq in Hl'. lia. }
  unfold store in *.
  destruct (lookup_lt_is_Some_2 st l Hlt) as [v Hv].
  rewrite Hst, Hv. eexists; reflexivity.
Qed.

Lemma head_label_map um k l :
  head_label um k l -> head (map (fun p => label (snd p)) um) = Some l.
Proof.
  intros [Hh (e & He & Hl)]. destruct um as [|[k' e'] t]; [discriminate|].
  simpl in *. injection Hh as ->.
  rewrite (proj2 (str_eqb_true k k) eq_refl) in He. congruence.
Qed.

(** X11 (extra).  Once the clustering succeeds,
    [create_usecase_diagram_from_cluster] never raises.  When no returned
    cluster has the requested id (no cluster at all included) it returns
    empty lists and zero counts.  Otherwise it returns one diagram and its
    URL: the header with the cluster id in the title, one line per actor
    (sorted, no repeats), one use-case line per use case, one line per
    edge, and the three counts are those numbers of lines.  When the
    representative story's [what] is not blank, the first use case is the
    representative's, labelled ["[REPRESENTATIVE] "] followed by its
    [what].  There are no more use cases and no more actors than edges,
    no more edges than stories in the cluster, and at most one edge per
    (actor, use case) pair. *)
Theorem usecase_diagram_from_cluster st t cs st' cid :
  cluster_and_summarize_stories encode cosine_similarity fit st t = Some (cs, st') ->
  (find_cluster cid cs = None ->
   create_usecase_diagram_from_cluster encode cosine_similarity fit get_url st t cid
   = Some empty_result) /\
  (forall c, find_cluster cid cs = Some c ->
   exists rep r actors ents el,
     st' !! representative_story c = Some rep /\
     create_usecase_diagram_from_cluster encode cosine_similarity fit get_url st t cid = Some r /\
     diagrams_puml r =
       [join_nl (map cline_text
          ([CStart; CDirection; CTitle (s "Cluster " ++ str_of_Z cid ++ s " - Use Case Diagram");
            CBlank] ++ actor_lines actors ++ [CBlank] ++ usecase_lines ents ++ [CBlank]
           ++ el ++ [CEnd]))] /\
     diagrams_url r = map get_url (diagrams_puml r) /\
     StronglySorted str_lt actors /\ Forall (fun l => exists a u, l = CEdge a u) el /\
     stat_actors r = length actors /\ stat_usecases r = length ents /\
     stat_edges r = length el /\
     (story_what (udoc_of rep) <> [] ->
      head ents = Some (s "[REPRESENTATIVE] " ++ story_what (udoc_of rep))) /\
     stat_usecases r <= stat_edges r /\ stat_actors r <= stat_edges r /\
     stat_edges r <= size c /\ stat_edges r <= stat_actors r * stat_usecases r).
Proof.
  intros H. split.
  { intros Hf. unfold create_usecase_diagram_from_cluster. rewrite H.
    destruct cs; [reflexivity|]. rewrite Hf. reflexivity. }
  intros c Hf. destruct (find_cluster_In _ _ _ Hf) as [Hc _].
  destruct (cluster_member_facts _ _ _ _ _ H Hc) as [Hsz [Hrep Hlk]].
  destruct (Hlk _ Hrep) as [rep Erep].
  destruct (omap_total (fun l => st' !! l) (stories c) Hlk) as [items Eitems].
  assert (Hrin : In rep items) by (eapply omap_In_val; eauto).
  assert (Hlen : length items = size c).
  { rewrite Hsz. apply omap_Forall2 in Eitems. symmetry. exact (Forall2_length _ _ _ Eitems). }
  pose proof (rep_fold_shape (udoc_of rep) (map udoc_of items)) as Hsh.
  pose proof (collect_inv_all (udoc_of rep :: map udoc_of items)) as Hinv.
  pose proof (rep_state_head (udoc_of rep)) as Hrh.
  destruct (rep_state (udoc_of rep)) as [[u1 a1] e1] eqn:Er.
  pose proof (fun Hne => fold_collect_head (map udoc_of items) u1 a1 e1 _ _ (Hrh Hne)) as Hhead.
  destruct (_collect_from_stories (udoc_of rep :: map udoc_of items)) as [[um0 acts0] es0].
  destruct (fold_left collect_step (map udoc_of items) (u1, a1, e1)) as [[um acts] es] eqn:E.
  simpl in Hsh. injection Hsh as Hk <- <-.
  destruct Hinv as (Nk & Na & Ne & Ck & Ca & Ce & _).
  rewrite <- Hk in Nk, Ck.
  assert (Hes : forall a k, In (a, k) es -> In a acts /\ In k (dict_keys um)).
  { intros a k Hin. apply Ce in Hin as (d & Hd & Hkd & <- & <-).
    split; [apply Ca | apply Ck]; eauto. }
  destruct (cluster_lines_spec cid um acts es Hes) as [el [El [Hl Hedge]]].
  exists rep, {| diagrams_puml := [join_nl (map cline_text
      ([CStart; CDirection; CTitle (s "Cluster " ++ str_of_Z cid ++ s " - Use Case Diagram");
        CBlank] ++ actor_lines (sorted_set acts) ++ [CBlank]
       ++ usecase_lines (map (fun p => label (snd p)) um) ++ [CBlank] ++ el ++ [CEnd]))];
    diagrams_url := [get_url (join_nl (map cline_text
      ([CStart; CDirection; CTitle (s "Cluster " ++ str_of_Z cid ++ s " - Use Case Diagram");
        CBlank] ++ actor_lines (sorted_set acts) ++ [CBlank]
       ++ usecase_lines (map (fun p => label (snd p)) um) ++ [CBlank] ++ el ++ [CEnd])))];
    stat_actors := length acts; stat_usecases := length um; stat_edges := length es |},
    (sorted_set acts), (map (fun p => label (snd p)) um), el.
  cbn [diagrams_puml diagrams_url stat_actors stat_usecases stat_edges].
  split; [exact Erep|]. split.
  { unfold create_usecase_diagram_from_cluster. rewrite H.
    destruct cs as [|c0 cs']; [destruct Hc|]. rewrite Hf, Erep, Eitems, Er, E, El. reflexivity. }
  split; [reflexivity|]. split; [reflexivity|].
  split; [apply sorted_set_spec|]. split; [exact Hedge|].
  split; [symmetry; apply length_sorted_set, Na|].
  split; [rewrite length_map; reflexivity|]. split; [symmetry; exact Hl|].
  split.
  { intros Hne. exact (head_label_map _ _ _ (Hhead Hne)). }
  assert (Hkl : length um = length (dict_keys um)) by (unfold dict_keys; rewrite length_map; reflexivity).
  split.
  { rewrite Hkl, <- (length_map snd es). apply NoDup_incl_length; [exact Nk|].
    intros k Hk'. apply Ck in Hk' as (d & Hd & Hkd & Hdk).
    apply (in_map snd) with (x := (doc_actor d, k)). apply Ce. eauto. }
  split.
  { rewrite <- (length_map fst es). apply NoDup_incl_length; [exact Na|].
    intros a Ha'. apply Ca in Ha' as (d & Hd & Hkd & Hda).
    apply (in_map fst) with (x := (a, doc_key d)). apply Ce. eauto. }
  split.
  { rewrite <- Hlen, <- (length_map udoc_of items),
      <- (length_map (fun d => (doc_actor d, doc_key d)) (map udoc_of items)).
    apply NoDup_incl_length; [exact Ne|].
    intros [a k] Hin. apply Ce in Hin as (d & Hd & _ & <- & <-).
    apply (in_map (fun d => (doc_actor d, doc_key d))).
    destruct Hd as [<- | Hd]; [apply in_map, Hrin | exact Hd]. }
  rewrite Hkl. apply edges_bound; [exact Ne|]. exact Hes.
Qed.

End Service.

Lemma usecase_diagram_from_cluster_witness :
  exists cs st' c,
    cluster_and_summarize_stories ClusterExample.encode3 ClusterExample.dot
      ClusterExample.fit_cosine ClusterExample.stories3 (1#2) = Some (cs, st') /\
    find_cluster 1 cs = Some c /\
    exists rep r,
      st' !! representative_story c = Some rep /\
      create_usecase_diagram_from_cluster ClusterExample.encode3 ClusterExample.dot
        ClusterExample.fit_cosine (fun x => x) ClusterExample.stories3 (1#2) 1 = Some r /\
      head (diagrams_puml r) <> None /\
      stat_usecases r <= stat_edges r /\ stat_edges r <= size c.
Proof.
  eexists _, _, _. split; [cbv; reflexivity|]. split; [cbv; reflexivity|].
  destruct (proj2 (usecase_diagram_from_cluster ClusterExample.encode3 ClusterExample.dot
                     ClusterExample.fit_cosine (fun x => x) ClusterExample.stories3 (1#2) _ _ 1
                     ltac:(cbv; reflexivity)) _ ltac:(cbv; reflexivity))
    as (rep & r & actors & ents & el & Er & Ecr & Hp & _ & _ & _ & _ & _ & _ & _ & H1 & _ & H2 & _).
  exists rep, r. split; [exact Er|]. split; [exact Ecr|].
  split; [rewrite Hp; discriminate|]. split; assumption.
Defined.

End ClusterDiagramFacts.

Module GenerateFacts.
Import PyText PyLib PyLibFacts Normalize UseCase Cluster ClusterFacts ClusterMoreFacts
  Collect CollectFacts ClusterDiagram ClusterDiagramFacts.

(** *** One step of the loop over the clusters *)

Definition gen_new (c : out_cluster) (what : pystr) : gentry :=
  {| g_label := what; g_whys := []; g_cluster_id := cluster_id c; g_cluster_size := size c |}.

Definition gum_after (um : dict gentry) (key : pystr) (c : out_cluster) (what : pystr)
    (why : option pystr) : dict gentry :=
  let usecase_map :=
    match dict_get um key with
    | Some _ => um
    | None => dict_set um key (gen_new c what)
    end in
  match why, dict_get usecase_map key with
  | Some w, Some e =>
      if mem w (g_whys e) then usecase_map
      else dict_set usecase_map key
             {| g_label := g_label e; g_whys := g_whys e ++ [w];
                g_cluster_id := g_cluster_id e; g_cluster_size := g_cluster_size e |}
  | _, _ => usecase_map
  end.

Lemma gen_step_skip acc c d : story_what d = [] -> gen_step acc (c, d) = acc.
Proof.
  destruct acc as [[um acts] es]. unfold gen_step. intros E. rewrite E. reflexivity.
Qed.

Lemma gen_step_kept um acts es c d :
  story_what d <> [] ->
  gen_step (um, acts, es) (c, d)
  = (gum_after um (doc_key d) c (story_what d) (story_why d),
     set_add acts (doc_actor d), set_add es (doc_actor d, doc_key d)).
Proof.
  unfold gen_step, gum_after, gen_new, doc_key, doc_actor. cbv zeta.
  destruct (story_what d) as [|x t]; [congruence|]. reflexivity.
Qed.

(** The entry under [key] after the step: the first one's label, id and
    size are kept. *)
Definition gnew_entry (um : dict gentry) (key : pystr) (c : out_cluster) (what : pystr)
    (why : option pystr) : gentry :=
  let e1 := match dict_get um key with Some e => e | None => gen_new c what end in
  match why with
  | Some w => if mem w (g_whys e1) then e1
              else {| g_label := g_label e1; g_whys := g_whys e1 ++ [w];
                      g_cluster_id := g_cluster_id e1; g_cluster_size := g_cluster_size e1 |}
  | None => e1
  end.

Lemma gum_after_get um key c what why k :
  dict_get (gum_after um key c what why) k
  = if str_eqb k key then Some (gnew_entry um key c what why) else dict_get um k.
Proof.
  unfold gum_after, gnew_entry.
  destruct (str_eqb k key) eqn:Ek.
  - apply str_eqb_true in Ek. subst k.
    destruct (dict_get um key) as [e|] eqn:E; rewrite ?dict_get_set_eq, ?E;
      cbv beta iota zeta; destruct why as [w|]; try destruct (mem _ _) eqn:?;
      rewrite ?dict_get_set_eq, ?E; reflexivity.
  - assert (Hne : k <> key) by (intros ->; rewrite (proj2 (str_eqb_true key key) eq_refl) in Ek;
                                discriminate).
    destruct (dict_get um key) as [e|] eqn:E; rewrite ?dict_get_set_eq, ?E;
      cbv beta iota zeta; destruct why as [w|]; try destruct (mem _ _) eqn:?;
      rewrite ?dict_get_set_neq; auto.
Qed.

Lemma gnew_entry_fields um key c what why :
  let e1 := match dict_get um key with Some e => e | None => gen_new c what end in
  g_label (gnew_entry um key c what why) = g_label e1 /\
  g_cluster_id (gnew_entry um key c what why) = g_cluster_id e1 /\
  g_cluster_size (gnew_entry um key c what why) = g_cluster_size e1.
Proof.
  unfold gnew_entry. cbv zeta.
  destruct why as [w|]; [destruct (mem _ _)|]; auto.
Qed.

Lemma gum_after_keys_list um key c what why :
  dict_keys (gum_after um key c what why) = keys_add (dict_keys um) key.
Proof.
  unfold gum_after.
  destruct (dict_get um key) as [e|] eqn:E.
  - assert (Hk : In key (dict_keys um)) by (eapply dict_get_Some_key; exact E).
    assert (Ha : keys_add (dict_keys um) key = dict_keys um)
      by (unfold keys_add; rewrite (proj2 (mem_In _ _) Hk); reflexivity).
    rewrite Ha, ?E. cbv beta iota zeta. destruct why as [w|]; [|reflexivity].
    destruct (mem w (g_whys e)); [reflexivity|]. apply dict_keys_set_in, Hk.
  - rewrite dict_get_set_eq. cbv beta iota zeta.
    destruct why as [w|]; [destruct (mem _ _)|]; try apply dict_keys_set_add.
    rewrite dict_keys_set_in; [apply dict_keys_set_add|].
    apply dict_keys_set. left. reflexivity.
Qed.

Definition gshape (acc : gen_state) : shape_t :=
  let '(um, acts, es) := acc in (dict_keys um, acts, es).

Lemma gen_step_shape acc cd : gshape (gen_step acc cd) = shape_step (gshape acc) (snd cd).
Proof.
  destruct acc as [[um acts] es]. destruct cd as [c d].
  destruct (decide (story_what d = [])) as [E|E].
  - rewrite gen_step_skip by exact E. unfold shape_step. simpl. rewrite E. reflexivity.
  - rewrite gen_step_kept by exact E. unfold shape_step. simpl.
    destruct (story_what d); [congruence|]. rewrite gum_after_keys_list. reflexivity.
Qed.

Lemma fold_gen_shape reps acc :
  gshape (fold_left gen_step reps acc) = fold_left shape_step (map snd reps) (gshape acc).
Proof.
  revert acc. induction reps as [|cd t IH]; intros acc; simpl; [reflexivity|].
  rewrite IH, gen_step_shape. reflexivity.
Qed.

Lemma gen_collect_shape reps :
  gshape (fold_left gen_step reps ([], [], [])) = shape (_collect_from_stories (map snd reps)).
Proof.
  unfold _collect_from_stories. rewrite fold_gen_shape, fold_collect_shape. reflexivity.
Qed.

(** *** The entries keep the first cluster that brought their key *)

Definition gen_inv (P : list (out_cluster * udoc)) (um : dict gentry) : Prop :=
  (forall k, In k (dict_keys um) <-> exists c d, In (c, d) P /\ kept d /\ doc_key d = k) /\
  (forall k e, dict_get um k = Some e ->
     exists pre c d post, P = pre ++ (c, d) :: post /\ kept d /\ doc_key d = k /\
       story_what d = g_label e /\ g_cluster_id e = cluster_id c /\
       g_cluster_size e = size c /\
       Forall (fun cd => story_what (snd cd) = [] \/ doc_key (snd cd) <> k) pre).

Lemma gen_inv_step P um acts es c d :
  gen_inv P um -> gen_inv (P ++ [(c, d)]) (fst (fst (gen_step (um, acts, es) (c, d)))).
Proof.
  intros [Ck Cm].
  destruct (decide (story_what d = [])) as [Hs|Hkept].
  - rewrite gen_step_skip by exact Hs. simpl. split.
    + intros k. rewrite Ck. split; intros (c' & d' & H1 & H2 & H3); exists c', d';
        (split; [|auto]); [apply In_snoc; auto|].
      apply In_snoc in H1 as [H1 | H1]; [exact H1|]. injection H1 as -> ->. contradiction.
    + intros k e Hg. destruct (Cm k e Hg) as (pre & c0 & d0 & post & HP & R).
      exists pre, c0, d0, (post ++ [(c, d)]). rewrite HP, <- app_assoc. auto.
  - rewrite gen_step_kept by exact Hkept. simpl. split.
    + intros k. rewrite gum_after_keys_list. unfold keys_add.
      assert (Hk : In k (if mem (doc_key d) (dict_keys um) then dict_keys um
                         else dict_keys um ++ [doc_key d]) <-> k = doc_key d \/ In k (dict_keys um)).
      { destruct (mem (doc_key d) (dict_keys um)) eqn:Em.
        - apply mem_In in Em. intuition congruence.
        - rewrite In_snoc. intuition congruence. }
      rewrite Hk, Ck. split.
      * intros [-> | (c' & d' & H1 & H2 & H3)]; [exists c, d; rewrite In_snoc; auto|].
        exists c', d'. rewrite In_snoc. auto.
      * intros (c' & d' & H1 & H2 & H3). apply In_snoc in H1 as [H1 | H1]; [right; eauto|].
        injection H1 as -> ->. left. auto.
    + intros k e. rewrite gum_after_get. destruct (str_eqb k (doc_key d)) eqn:Ek.
      * apply str_eqb_true in Ek. subst k. intros [= <-].
        destruct (gnew_entry_fields um (doc_key d) c (story_what d) (story_why d)) as [F1 [F2 F3]].
        rewrite F1, F2, F3.
        destruct (dict_get um (doc_key d)) as [e0|] eqn:E0.
        -- destruct (Cm _ _ E0) as (pre & c0 & d0 & post & HP & R).
           exists pre, c0, d0, (post ++ [(c, d)]). rewrite HP, <- app_assoc. auto.
        -- exists P, c, d, []. simpl. split; [reflexivity|]. do 5 (split; [auto|]).
           apply List.Forall_forall. intros [c' d'] Hin. simpl.
           destruct (decide (story_what d' = [])) as [?|Hk']; [left; assumption|].
           right. intros Heq. apply (dict_get_None _ _ E0). apply Ck. exists c', d'. auto.
      * assert (Hne : k <> doc_key d) by (intros ->; rewrite (proj2 (str_eqb_true _ _) eq_refl) in Ek;
                                           discriminate).
        intros Hg. destruct (Cm k e Hg) as (pre & c0 & d0 & post & HP & R).
        exists pre, c0, d0, (post ++ [(c, d)]). rewrite HP, <- app_assoc. auto.
Qed.

Lemma gen_inv_fold P reps um acts es :
  gen_inv P um -> gen_inv (P ++ reps) (fst (fst (fold_left gen_step reps (um, acts, es)))).
Proof.
  revert P um acts es. induction reps as [|[c d] t IH]; intros P um acts es H; cbn [fold_left].
  - rewrite app_nil_r. exact H.
  - replace (P ++ (c, d) :: t) with ((P ++ [(c, d)]) ++ t) by (rewrite <- app_assoc; reflexivity).
    pose proof (gen_inv_step P um acts es c d H) as H1.
    destruct (gen_step (um, acts, es) (c, d)) as [[um1 acts1] es1]. apply IH, H1.
Qed.

Lemma gen_inv_all reps : gen_inv reps (fst (fst (fold_left gen_step reps ([], [], [])))).
Proof.
  apply (gen_inv_fold [] reps [] [] []). split.
  - intros k. simpl. split; [tauto|]. intros (? & ? & [] & _).
  - intros k e. discriminate.
Qed.

(** *** Rendering *)

(** A use case line followed by its note, for each (label, cluster id,
    cluster size). *)
Definition usecase_note_lines (ents : list (pystr * Z * nat)) : list cline :=
  concat (map (fun '(i, (lbl, cid, n)) =>
                 [CUseCase (safe_label lbl) (_alias (s "U") i); CNote (_alias (s "U") i) cid n])
              (enumerate_from 1 ents)).

Definition gen_ents (um : dict gentry) : list (pystr * Z * nat) :=
  map (fun p => (g_label (snd p), g_cluster_id (snd p), g_cluster_size (snd p))) um.

Lemma map_enum_note i (um : dict gentry) :
  map (fun '(i, (_, e)) =>
         [CUseCase (safe_label (g_label e)) (_alias (s "U") i);
          CNote (_alias (s "U") i) (g_cluster_id e) (g_cluster_size e)]) (enumerate_from i um)
  = map (fun '(i, (lbl, cid, n)) =>
           [CUseCase (safe_label lbl) (_alias (s "U") i); CNote (_alias (s "U") i) cid n])
        (enumerate_from i (gen_ents um)).
Proof.
  revert i. induction um as [|[k e] t IH]; intros i; simpl; [reflexivity|].
  rewrite IH. reflexivity.
Qed.

Lemma gen_lines_spec um acts es :
  (forall a k, In (a, k) es -> In a acts /\ In k (dict_keys um)) ->
  exists el,
    gen_lines um acts es
    = Some ([CStart; CDirection;
             CTitle (s "Use Case Diagram - Top 10 Representative User Stories"); CBlank]
            ++ actor_lines (sorted_set acts) ++ [CBlank]
            ++ usecase_note_lines (gen_ents um) ++ [CBlank] ++ el ++ [CEnd]) /\
    length el = length es /\ Forall (fun l => exists a u, l = CEdge a u) el.
Proof.
  intros H.
  destruct (edge_lines_total (assign_aliases (s "A") [] 1 (sorted_set acts))
              (assign_aliases (s "U") [] 1 (dict_keys um)) es) as [el [El [Hl Hf]]].
  { intros a k Hin. destruct (H a k Hin) as [Ha Hk]. split; apply assign_aliases_some; left.
    - apply sorted_set_spec, Ha.
    - exact Hk. }
  exists el. split; [|split; assumption].
  unfold gen_lines. cbv zeta. rewrite El. unfold usecase_note_lines.
  rewrite (map_enum_note 1 um). reflexivity.
Qed.

Lemma dict_get_In_nodup {V} (d : dict V) k v :
  List.NoDup (dict_keys d) -> In (k, v) d -> dict_get d k = Some v.
Proof.
  induction d as [|[k' v'] t IH]; simpl; [tauto|]. intros Hnd Hin.
  inversion Hnd as [|? ? Hk Ht]; subst.
  destruct Hin as [[= -> ->] | Hin].
  - rewrite (proj2 (str_eqb_true k k) eq_refl). reflexivity.
  - destruct (str_eqb k k') eqn:E.
    + apply str_eqb_true in E. subst. exfalso. apply Hk. apply (in_map fst) in Hin. exact Hin.
    + apply IH; assumption.
Qed.

Lemma Forall2_Forall_l {A B} (R : A -> B -> Prop) (P : B -> Prop) (P' : A -> Prop) l1 l2 :
  Forall2 R l1 l2 -> Forall P l2 -> (forall x y, R x y -> P y -> P' x) -> Forall P' l1.
Proof.
  intros H. induction H as [|x y t1 t2 Hxy _ IH]; intros Hp Himp; [constructor|].
  inversion Hp; subst. constructor; [eapply Himp; eauto | apply IH; auto].
Qed.

Section Service.
Variable encode : pystr -> list Q.
Variable cosine_similarity : list Q -> list Q -> Q.
Variable fit : list (list Q) -> Q -> option (list Z).
Variable get_url : pystr -> pystr.

(** X12 (extra).  Once the clustering succeeds,
    [cluster_and_generate_usecases] never raises and returns the clusters
    unchanged.  With no cluster the diagram part is empty, with zero
    counts and no [clusters_represented].  Otherwise it returns one
    diagram and its URL, with [clusters_represented] the number of
    clusters (at most ten): sorted actor lines, then for each use case its
    line followed by a note with a cluster id and size, then the edge
    lines, the counts being those numbers of lines.  The use cases have
    pairwise different keys; each is labelled with the stripped [what] of
    a cluster's representative and its note gives that cluster's id and
    size, where that cluster is the first one whose representative yields
    the key; and every returned cluster whose representative has a
    non-empty stripped [what] is represented by the use case of that
    [what]'s key.  There are no more use cases and no more actors than edges,
    and no more edges than clusters. *)
Theorem generate_usecases_result st t cs st' :
  cluster_and_summarize_stories encode cosine_similarity fit st t = Some (cs, st') ->
  exists r,
    cluster_and_generate_usecases encode cosine_similarity fit get_url st t = Some r /\
    gen_clusters r = cs /\
    (cs = [] -> gen_diagram r = empty_result /\ clusters_represented r = None) /\
    (cs <> [] ->
     exists actors ents el,
       diagrams_puml (gen_diagram r) =
         [join_nl (map cline_text
            ([CStart; CDirection;
              CTitle (s "Use Case Diagram - Top 10 Representative User Stories"); CBlank]
             ++ actor_lines actors ++ [CBlank] ++ usecase_note_lines ents ++ [CBlank]
             ++ el ++ [CEnd]))] /\
       diagrams_url (gen_diagram r) = map get_url (diagrams_puml (gen_diagram r)) /\
       StronglySorted str_lt actors /\ Forall (fun l => exists a u, l = CEdge a u) el /\
       stat_actors (gen_diagram r) = length actors /\
       stat_usecases (gen_diagram r) = length ents /\
       stat_edges (gen_diagram r) = length el /\
       clusters_represented r = Some (length cs) /\ length cs <= 10 /\
       NoDup (map (fun '(lbl, _, _) => _normalize_key lbl) ents) /\
       Forall (fun '(lbl, cid, n) =>
         exists cpre c cpost rep,
           cs = cpre ++ c :: cpost /\ st' !! representative_story c = Some rep /\
           story_what (udoc_of rep) = lbl /\ lbl <> [] /\ cluster_id c = cid /\ size c = n /\
           Forall (fun c' => forall rep', st' !! representative_story c' = Some rep' ->
                     story_what (udoc_of rep') = [] \/
                     _normalize_key (story_what (udoc_of rep')) <> _normalize_key lbl) cpre) ents /\
       (forall c rep, In c cs -> st' !! representative_story c = Some rep ->
          story_what (udoc_of rep) <> [] ->
          exists lbl cid n, In (lbl, cid, n) ents /\
            _normalize_key lbl = _normalize_key (story_what (udoc_of rep))) /\
       stat_usecases (gen_diagram r) <= stat_edges (gen_diagram r) /\
       stat_actors (gen_diagram r) <= stat_edges (gen_diagram r) /\
       stat_edges (gen_diagram r) <= length cs).
Proof.
  intros H. destruct (decide (cs = [])) as [-> | Hne].
  { exists {| gen_clusters := []; gen_diagram := empty_result; clusters_represented := None |}.
    unfold cluster_and_generate_usecases. rewrite H.
    split; [reflexivity|]. split; [reflexivity|]. split; [auto|]. intros []; reflexivity. }
  set (g := fun c => option_map (fun r => (c, udoc_of r)) (st' !! representative_story c)).
  destruct (omap_total g cs) as [reps Ereps].
  { intros c Hc. destruct (cluster_member_facts _ _ _ _ _ _ _ _ H Hc) as [_ [Hrep Hlk]].
    destruct (Hlk _ Hrep) as [rep Erep]. unfold g. rewrite Erep. eexists; reflexivity. }
  pose proof Ereps as Hf2. apply omap_Forall2 in Hf2.
  assert (Hlen : length reps = length cs) by (symmetry; exact (Forall2_length _ _ _ Hf2)).
  pose proof (gen_collect_shape reps) as Hsh.
  pose proof (collect_inv_all (map snd reps)) as Hinv.
  pose proof (gen_inv_all reps) as Hg.
  destruct (_collect_from_stories (map snd reps)) as [[um0 acts0] es0].
  destruct (fold_left gen_step reps ([], [], [])) as [[um acts] es] eqn:E.
  simpl in Hsh, Hg. injection Hsh as Hk <- <-.
  destruct Hinv as (Nk & Na & Ne & Ck & Ca & Ce & _).
  rewrite <- Hk in Nk, Ck. destruct Hg as [_ Cm].
  assert (Hes : forall a k, In (a, k) es -> In a acts /\ In k (dict_keys um)).
  { intros a k Hin. apply Ce in Hin as (d & Hd & Hkd & <- & <-).
    split; [apply Ca | apply Ck]; eauto. }
  destruct (gen_lines_spec um acts es Hes) as [el [El [Hl Hedge]]].
  set (ls := [CStart; CDirection;
              CTitle (s "Use Case Diagram - Top 10 Representative User Stories"); CBlank]
             ++ actor_lines (sorted_set acts) ++ [CBlank]
             ++ usecase_note_lines (gen_ents um) ++ [CBlank] ++ el ++ [CEnd]).
  exists {| gen_clusters := cs;
            gen_diagram := {| diagrams_puml := [join_nl (map cline_text ls)];
                              diagrams_url := [get_url (join_nl (map cline_text ls))];
                              stat_actors := length acts; stat_usecases := length um;
                              stat_edges := length es |};
            clusters_represented := Some (length cs) |}.
  split.
  { unfold cluster_and_generate_usecases. rewrite H.
    destruct cs as [|c0 cs']; [contradiction|]. fold g. rewrite Ereps, E, El. reflexivity. }
  cbn [gen_clusters gen_diagram clusters_represented diagrams_puml diagrams_url
       stat_actors stat_usecases stat_edges].
  split; [reflexivity|]. split; [intros; contradiction|]. intros _.
  exists (sorted_set acts), (gen_ents um), el.
  split; [reflexivity|]. split; [reflexivity|].
  split; [apply sorted_set_spec|]. split; [exact Hedge|].
  split; [symmetry; apply length_sorted_set, Na|].
  split; [unfold gen_ents; rewrite length_map; reflexivity|]. split; [symmetry; exact Hl|].
  split; [reflexivity|].
  split.
  { destruct (cluster_and_summarize_spec _ _ _ _ _ _ _ H) as [all [-> _]].
    rewrite length_firstn. lia. }
  assert (Hent : forall k e, In (k, e) um ->
            exists pre c d post, reps = pre ++ (c, d) :: post /\ kept d /\ doc_key d = k /\
              story_what d = g_label e /\ g_cluster_id e = cluster_id c /\
              g_cluster_size e = size c /\
              Forall (fun cd => story_what (snd cd) = [] \/ doc_key (snd cd) <> k) pre).
  { intros k e Hin. apply Cm, dict_get_In_nodup; assumption. }
  split.
  { replace (map (fun '(lbl, _, _) => _normalize_key lbl) (gen_ents um)) with (dict_keys um);
      [apply NoDup_ListNoDup, Nk|].
    unfold gen_ents, dict_keys. rewrite map_map. apply map_ext_in. intros [k e] Hin. simpl.
    destruct (Hent k e Hin) as (pre & c & d & post & _ & _ & Hdk & Hw & _).
    unfold doc_key in Hdk. rewrite <- Hw. symmetry. exact Hdk. }
  split.
  { apply List.Forall_forall. intros [[lbl cid] n] Hin.
    unfold gen_ents in Hin. apply in_map_iff in Hin as [[k e] [Heq Hke]].
    simpl in Heq. injection Heq as <- <- <-.
    destruct (Hent k e Hke) as (pre & c & d & post & HP & Hkd & Hdk & Hw & Hid & Hsz & Hpre).
    rewrite HP in Hf2. apply Forall2_app_inv_r in Hf2 as (l1 & l2 & F1 & F2 & Ecs).
    inversion F2 as [|c' cd' l2' post' Hr F3]; subst.
    unfold g in Hr. destruct (st' !! representative_story c') as [rep|] eqn:Er;
      simpl in Hr; [|discriminate]. injection Hr as <- <-.
    exists l1, c', l2', rep. split; [reflexivity|]. split; [exact Er|].
    split; [exact Hw|]. split; [rewrite <- Hw; exact Hkd|].
    split; [symmetry; exact Hid|]. split; [symmetry; exact Hsz|].
    eapply Forall2_Forall_l; [exact F1 | exact Hpre|].
    intros c'' [c3 d3] Hr'' Hp rep' Er'. unfold g in Hr''. rewrite Er' in Hr''.
    simpl in Hr''. injection Hr'' as <- <-. simpl in Hp.
    unfold doc_key in Hp. rewrite <- Hw. exact Hp. }
  split.
  { intros c rep Hc Er Hw.
    assert (Hin : In (c, udoc_of rep) reps).
    { clear -Hf2 Hc Er. induction Hf2 as [|x y l1 l2 Hxy _ IH]; [destruct Hc|].
      destruct Hc as [<- | Hc]; [|right; auto].
      left. unfold g in Hxy. rewrite Er in Hxy. simpl in Hxy. injection Hxy as <-. reflexivity. }
    assert (Hkey : In (doc_key (udoc_of rep)) (dict_keys um)).
    { apply Ck. exists (udoc_of rep). split; [apply (in_map snd) in Hin; exact Hin|].
      split; [exact Hw | reflexivity]. }
    unfold dict_keys in Hkey. apply in_map_iff in Hkey as [[k e] [Hke Hkin]]. simpl in Hke. subst k.
    destruct (Hent _ e Hkin) as (pre & c' & d & post & _ & _ & Hdk & Hwl & _).
    exists (g_label e), (g_cluster_id e), (g_cluster_size e). split.
    - unfold gen_ents. apply in_map_iff. exists (doc_key (udoc_of rep), e). split; [reflexivity | exact Hkin].
    - rewrite <- Hwl. exact Hdk. }
  assert (Hkl : length um = length (dict_keys um)) by (unfold dict_keys; rewrite length_map; reflexivity).
  split.
  { rewrite Hkl, <- (length_map snd es). apply NoDup_incl_length; [exact Nk|].
    intros k Hk'. apply Ck in Hk' as (d & Hd & Hkd & Hdk).
    apply (in_map snd) with (x := (doc_actor d, k)). apply Ce. eauto. }
  split.
  { rewrite <- (length_map fst es). apply NoDup_incl_length; [exact Na|].
    intros a Ha'. apply Ca in Ha' as (d & Hd & Hkd & Hda).
    apply (in_map fst) with (x := (a, doc_key d)). apply Ce. eauto. }
  rewrite <- Hlen, <- (length_map snd reps),
    <- (length_map (fun d => (doc_actor d, doc_key d)) (map snd reps)).
  apply NoDup_incl_length; [exact Ne|].
  intros [a k] Hin. apply Ce in Hin as (d & Hd & _ & <- & <-).
  apply (in_map (fun d => (doc_actor d, doc_key d))), Hd.
Qed.

End Service.


Lemma generate_usecases_result_witness :
  exists cs st',
    cluster_and_summarize_stories ClusterExample.encode3 ClusterExample.dot
      ClusterExample.fit_cosine ClusterExample.stories3 (1#2) = Some (cs, st') /\
    exists r,
      cluster_and_generate_usecases ClusterExample.encode3 ClusterExample.dot
        ClusterExample.fit_cosine (fun x => x) ClusterExample.stories3 (1#2) = Some r /\
      gen_clusters r = cs /\ clusters_represented r = Some 2.
Proof.
  eexists _, _. split; [cbv; reflexivity|].
  destruct (generate_usecases_result ClusterExample.encode3 ClusterExample.dot
              ClusterExample.fit_cosine (fun x => x) ClusterExample.stories3 (1#2) _ _
              ltac:(cbv; reflexivity)) as (r & Er & Ec & _ & Hne).
  exists r. split; [exact Er|]. split; [exact Ec|].
  destruct (Hne ltac:(discriminate)) as (actors & ents & el & _ & _ & _ & _ & _ & _ & _ & Hcr & _).
  exact Hcr.
Defined.

End GenerateFacts.

(* ------------------------------------------------------------------ *)
(** ** aspect_identifier.py: the WHAT and WHY aspects *)
Module AspectMoreFacts.
Import PyText PyLib PyTextFacts PyLibFacts AspectMore.

Lemma strip_infix p x : exists pre post, x = pre ++ strip p x ++ post.
Proof.
  destruct (lstrip_suffix p x) as [pre Hpre].
  destruct (lstrip_suffix p (rev (lstrip p x))) as [pre' Hpre'].
  exists pre, (rev pre'). unfold strip, rstrip.
  rewrite <- rev_app_distr, <- Hpre', rev_involutive. exact Hpre.
Qed.

Lemma collapsed_app b x y :
  collapsed b (x ++ y) = collapsed b x && collapsed (run_after b x) y.
Proof.
  revert b. induction x as [|c t IH]; intros b; simpl; [reflexivity|].
  destruct (is_space c); rewrite IH; [rewrite !andb_assoc|]; reflexivity.
Qed.

Lemma collapsed_weaken b y : collapsed b y = true -> collapsed false y = true.
Proof.
  destruct y as [|c t]; simpl; [auto|].
  destruct (is_space c); [|auto]. rewrite !andb_true_iff. intros [[_ H1] H2]. auto.
Qed.

Lemma collapsed_infix b pre y post :
  collapsed b (pre ++ y ++ post) = true -> collapsed false y = true.
Proof.
  rewrite !collapsed_app, !andb_true_iff. intros [_ [H _]]. eapply collapsed_weaken, H.
Qed.

Lemma clean_punct_not_space c : is_clean_punct c = true -> is_space c = false.
Proof. destruct c as [[] [] [] [] [] [] [] []]; vm_compute; congruence. Qed.

Lemma ws_sub_nospace b p : forallb is_clean_punct p = true -> ws_sub b p = p.
Proof.
  revert b. induction p as [|c t IH]; intros b; simpl; [reflexivity|].
  rewrite andb_true_iff. intros [Hc Ht]. rewrite (clean_punct_not_space c Hc), IH; auto.
Qed.

Lemma lstrip_all_app q p z : forallb q p = true -> lstrip q (p ++ z) = lstrip q z.
Proof.
  induction p as [|c t IH]; simpl; [reflexivity|].
  rewrite andb_true_iff. intros [Hc Ht]. rewrite Hc. auto.
Qed.

Lemma forallb_rev {A} (f : A -> bool) l : forallb f (rev l) = forallb f l.
Proof.
  induction l as [|a t IH]; simpl; [reflexivity|].
  rewrite forallb_app, IH. simpl. rewrite andb_true_r, andb_comm. reflexivity.
Qed.

(** Extra X13.  [_clean_up_text] leaves whitespace only as single
    spaces (no other whitespace character, never two in a row) and its
    result neither starts nor ends with one of [.,;:!?]. *)
Theorem clean_up_text_shape x :
  let y := _clean_up_text x in
  collapsed false y = true /\
  (forall c, In c y -> is_space c = true -> c = " "%char) /\
  ends_not is_clean_punct y.
Proof.
  cbv zeta. unfold _clean_up_text.
  set (w := ws_sub false x).
  destruct (strip_infix is_space w) as [pre1 [post1 H1]].
  destruct (strip_infix is_clean_punct (strip is_space w)) as [pre2 [post2 H2]].
  assert (Hc : collapsed false (strip is_clean_punct (strip is_space w)) = true).
  { pose proof (ws_sub_collapsed false x) as H. fold w in H.
    rewrite H1 in H. rewrite H2 in H. rewrite <- !app_assoc in H.
    apply (collapsed_infix false (pre1 ++ pre2) _ (post2 ++ post1)).
    rewrite <- !app_assoc. exact H. }
  split; [exact Hc|]. split; [|apply strip_ends].
  intros c Hin Hs. exact (collapsed_space false _ c Hc Hin Hs).
Qed.

(** Extra X14.  [_clean_up_text] returns unchanged a text that already
    has single spaces as its only whitespace, no whitespace at either end
    and none of [.,;:!?] at either end. *)
Theorem clean_up_text_fixed x :
  collapsed false x = true -> ends_not is_space x -> ends_not is_clean_punct x ->
  _clean_up_text x = x.
Proof.
  intros Hc Hs Hp. unfold _clean_up_text.
  rewrite (collapsed_ws_sub false x Hc), (strip_id _ _ Hs), (strip_id _ _ Hp). reflexivity.
Qed.

(** Extra X15.  Whitespace is stripped before the punctuation, so a
    text ending in a space followed by punctuation, such as the
    [" ".join] of tokens ending with a "." token, comes out of
    [_clean_up_text] with a trailing space. *)
Theorem clean_up_text_trailing_space x p :
  x <> [] -> ends_not is_space x -> ends_not is_clean_punct x ->
  p <> [] -> forallb is_clean_punct p = true ->
  _clean_up_text (x ++ " "%char :: p) = ws_sub false x ++ [" "%char].
Proof.
  intros Hx [Hs1 Hs2] [Hp1 Hp2] Hp Hpp. unfold _clean_up_text.
  assert (Hlast : run_after false x = false).
  { destruct x as [|d x''] using rev_ind; [congruence|].
    rewrite run_after_snoc. apply Hs2. rewrite rev_app_distr. reflexivity. }
  destruct x as [|c x']; [congruence|].
  assert (Ec : is_space c = false) by (apply Hs1; reflexivity).
  assert (Pc : is_clean_punct c = false) by (apply Hp1; reflexivity).
  rewrite ws_sub_app, Hlast.
  set (w := ws_sub false (c :: x')).
  change (ws_sub false (" "%char :: p)) with (" "%char :: ws_sub true p).
  rewrite ws_sub_nospace by exact Hpp.
  assert (Hw : w = c :: ws_sub false x') by (unfold w; simpl; rewrite Ec; reflexivity).
  rewrite (strip_id is_space).
  2: { split.
       - intros d Hd. rewrite Hw in Hd. simpl in Hd. congruence.
       - intros d Hd. destruct p as [|e p'] using rev_ind; [congruence|].
         replace (w ++ " "%char :: p' ++ [e]) with ((w ++ " "%char :: p') ++ [e]) in Hd
           by (rewrite <- app_assoc; reflexivity).
         rewrite rev_app_distr in Hd. simpl in Hd. injection Hd as <-.
         apply clean_punct_not_space. rewrite forallb_app in Hpp.
         apply andb_true_iff in Hpp as [_ He]. simpl in He. rewrite andb_true_r in He. exact He. }
  unfold strip, rstrip.
  rewrite (lstrip_id is_clean_punct (w ++ " "%char :: p)).
  2: { intros d Hd. rewrite Hw in Hd. simpl in Hd. congruence. }
  rewrite rev_app_distr. simpl. rewrite <- app_assoc. simpl.
  rewrite lstrip_all_app by (rewrite forallb_rev; exact Hpp).
  simpl. replace (is_clean_punct " "%char) with false by reflexivity.
  rewrite rev_involutive. reflexivity.
Qed.



(** The order [final_list.sort] establishes: [a] may precede [b]. *)
Definition item_le (a b : what_item) : Prop :=
  priority_rank (w_priority a) < priority_rank (w_priority b) \/
  (priority_rank (w_priority a) = priority_rank (w_priority b) /\
   length (w_text b) <= length (w_text a)).

Lemma key_ltb_false a b : key_ltb b a = false <-> item_le a b.
Proof.
  unfold key_ltb, item_le. rewrite orb_false_iff, andb_false_iff, Nat.ltb_ge, Nat.eqb_neq, Nat.ltb_ge.
  lia.
Qed.

Lemma key_ltb_true a b : key_ltb a b = true -> item_le a b.
Proof.
  unfold key_ltb, item_le. rewrite orb_true_iff, andb_true_iff, Nat.ltb_lt, Nat.eqb_eq, Nat.ltb_lt. lia.
Qed.

Lemma item_le_trans a b c : item_le a b -> item_le b c -> item_le a c.
Proof. unfold item_le. lia. Qed.

Lemma insert_item_In x xs z : In z (insert_item x xs) <-> x = z \/ In z xs.
Proof.
  induction xs as [|y t IH]; simpl; [tauto|].
  destruct (key_ltb x y); simpl; [tauto|]. rewrite IH. tauto.
Qed.

Lemma fold_insert_item_In xs acc z :
  In z (fold_left (fun acc x => insert_item x acc) xs acc) <-> In z xs \/ In z acc.
Proof.
  revert acc. induction xs as [|x t IH]; intros acc; simpl; [tauto|].
  rewrite IH, insert_item_In. tauto.
Qed.

Lemma sort_items_In xs z : In z (sort_items xs) <-> In z xs.
Proof. unfold sort_items. rewrite fold_insert_item_In. simpl. tauto. Qed.

Lemma insert_item_sorted x xs :
  StronglySorted item_le xs -> StronglySorted item_le (insert_item x xs).
Proof.
  induction xs as [|y t IH]; simpl; intros H.
  - repeat constructor.
  - inversion H as [|? ? Ht Hf]; subst.
    destruct (key_ltb x y) eqn:E.
    + constructor; [exact H|]. constructor; [apply key_ltb_true, E|].
      eapply List.Forall_impl; [|exact Hf]. intros z Hz. eapply item_le_trans; [apply key_ltb_true, E | exact Hz].
    + constructor; [apply IH, Ht|]. apply List.Forall_forall. intros z Hz.
      apply insert_item_In in Hz as [<- | Hz]; [apply key_ltb_false, E|].
      rewrite List.Forall_forall in Hf. apply Hf, Hz.
Qed.

Lemma sort_items_sorted xs : StronglySorted item_le (sort_items xs).
Proof.
  unfold sort_items. assert (H : StronglySorted item_le (@nil what_item)) by constructor.
  revert H. generalize (@nil what_item). induction xs as [|x t IH]; intros acc H; simpl; [exact H|].
  apply IH, insert_item_sorted, H.
Qed.

Lemma SS_app_cons {A} (R : A -> A -> Prop) pre x post :
  StronglySorted R (pre ++ x :: post) -> forall z, In z post -> R x z.
Proof.
  induction pre as [|y t IH]; simpl; intros H.
  - inversion H as [|? ? _ Hf]; subst. rewrite List.Forall_forall in Hf. exact Hf.
  - inversion H; subst. auto.
Qed.

Section Dedupe.
Context {A : Type} (key : A -> pystr).

Lemma dedupe_lower_In seen xs y : In y (dedupe_lower key seen xs) -> In y xs.
Proof.
  revert seen. induction xs as [|x t IH]; intros seen; simpl; [tauto|].
  destruct (mem (lower (key x)) seen); [intros H; right; eapply IH, H|].
  intros [<- | H]; [left; reflexivity | right; eapply IH, H].
Qed.

Lemma dedupe_lower_sorted (R : A -> A -> Prop) seen xs :
  StronglySorted R xs -> StronglySorted R (dedupe_lower key seen xs).
Proof.
  revert seen. induction xs as [|x t IH]; intros seen H; simpl; [constructor|].
  inversion H as [|? ? Ht Hf]; subst.
  destruct (mem (lower (key x)) seen); [apply IH, Ht|].
  constructor; [apply IH, Ht|]. rewrite List.Forall_forall in *. intros z Hz.
  apply Hf. eapply dedupe_lower_In, Hz.
Qed.

Lemma dedupe_lower_unique seen xs :
  NoDup (map (fun y => lower (key y)) (dedupe_lower key seen xs)) /\
  (forall y, In y (dedupe_lower key seen xs) -> ~ In (lower (key y)) seen) /\
  (forall x, In x xs -> In (lower (key x)) seen \/
     exists y, In y (dedupe_lower key seen xs) /\ lower (key y) = lower (key x)).
Proof.
  revert seen. induction xs as [|x t IH]; intros seen; simpl.
  - split; [constructor|]. split; tauto.
  - destruct (mem (lower (key x)) seen) eqn:E.
    + destruct (IH seen) as [H1 [H2 H3]]. split; [exact H1|]. split; [exact H2|].
      intros z [<- | Hz]; [left; apply mem_In, E | apply H3, Hz].
    + destruct (IH (lower (key x) :: seen)) as [H1 [H2 H3]].
      assert (Hx : ~ In (lower (key x)) seen) by (rewrite <- mem_In; congruence).
      split; [|split].
      * simpl. constructor; [|exact H1].
        intros Hin. apply list_elem_of_In, in_map_iff in Hin as [y [Hy Hin]].
        apply (H2 y Hin). left. symmetry. exact Hy.
      * intros y [<- | Hy]; [exact Hx|]. intros Hs. apply (H2 y Hy). right. exact Hs.
      * intros z [<- | Hz].
        -- right. exists x. split; [left|]; reflexivity.
        -- destruct (H3 z Hz) as [[Hk | Hk] | [y [Hy Hk]]].
           ++ right. exists x. split; [left; reflexivity | exact Hk].
           ++ left. exact Hk.
           ++ right. exists y. split; [right; exact Hy | exact Hk].
Qed.

Lemma dedupe_lower_first seen xs y :
  In y (dedupe_lower key seen xs) ->
  exists pre post, xs = pre ++ y :: post /\
    forall x, In x pre -> lower (key x) <> lower (key y).
Proof.
  revert seen. induction xs as [|x t IH]; intros seen; simpl; [tauto|].
  destruct (mem (lower (key x)) seen) eqn:E.
  - intros Hy. destruct (IH seen Hy) as [pre [post [Ht Hpre]]].
    exists (x :: pre), post. split; [rewrite Ht; reflexivity|].
    intros z [<- | Hz]; [|apply Hpre, Hz].
    intros Heq. apply (proj1 (proj2 (dedupe_lower_unique seen t)) y Hy).
    rewrite <- Heq. apply mem_In, E.
  - intros [<- | Hy]; [exists [], t; split; [reflexivity | intros ? []]|].
    destruct (IH _ Hy) as [pre [post [Ht Hpre]]].
    exists (x :: pre), post. split; [rewrite Ht; reflexivity|].
    intros z [<- | Hz]; [|apply Hpre, Hz].
    intros Heq. apply (proj1 (proj2 (dedupe_lower_unique _ t)) y Hy). left. exact Heq.
Qed.

End Dedupe.

Lemma clean_up_text_fixed_witness :
  _clean_up_text (s "export the report") = s "export the report".
Proof.
  apply clean_up_text_fixed; [vm_compute; reflexivity | |].
  - split; intros c Hc; vm_compute in Hc; injection Hc as <-; reflexivity.
  - split; intros c Hc; vm_compute in Hc; injection Hc as <-; reflexivity.
Defined.

Lemma clean_up_text_trailing_space_witness :
  _clean_up_text (s "to share them" ++ " "%char :: s ".") = s "to share them ".
Proof.
  rewrite (clean_up_text_trailing_space (s "to share them") (s ".")).
  - reflexivity.
  - discriminate.
  - split; intros c Hc; vm_compute in Hc; injection Hc as <-; reflexivity.
  - split; intros c Hc; vm_compute in Hc; injection Hc as <-; reflexivity.
  - discriminate.
  - reflexivity.
Defined.

Section Parse.
Variable nlp : pystr -> list tok.
Variable similarity : pystr -> pystr -> Q.
Variable software_functionality_dict : list pystr.

(** The clause that identify_why_aspect builds from a token. *)
Definition why_clause (token : tok) : pystr :=
  _clean_up_text (join_sp (map text (subtree token))).

Lemma why_candidates_first doc :
  (why_candidates doc = [] /\
   forall token, In token doc -> mem (dep_ (node_of token)) why_dependencies = true ->
     length (py_split (why_clause token)) < 2) \/
  exists pre token post, doc = pre ++ token :: post /\
    (forall t, In t pre -> mem (dep_ (node_of t)) why_dependencies = true ->
       length (py_split (why_clause t)) < 2) /\
    mem (dep_ (node_of token)) why_dependencies = true /\
    2 <= length (py_split (why_clause token)) /\
    why_candidates doc = [why_clause token].
Proof.
  induction doc as [|tk t IH]; cbn [why_candidates].
  - left. split; [reflexivity | intros ? []].
  - unfold why_clause in *. destruct (mem (dep_ (node_of tk)) why_dependencies) eqn:Ed.
    + destruct (Nat.leb_spec 2 (length (py_split (_clean_up_text (join_sp (map text (subtree tk))))))) as [Hle|Hlt].
      * right. exists [], tk, t. split; [reflexivity|]. split; [intros ? []|]. auto.
      * destruct IH as [[H1 H2] | (pre & token & post & E & H1 & H2 & H3 & H4)].
        -- left. split; [exact H1|]. intros token [<- | Hin] Hd; [exact Hlt | auto].
        -- right. exists (tk :: pre), token, post. subst t. split; [reflexivity|].
           split; [|auto]. intros t' [<- | Hin] Hd; [exact Hlt | auto].
    + destruct IH as [[H1 H2] | (pre & token & post & E & H1 & H2 & H3 & H4)].
      * left. split; [exact H1|]. intros token [<- | Hin] Hd; [congruence | auto].
      * right. exists (tk :: pre), token, post. subst t. split; [reflexivity|].
        split; [|auto]. intros t' [<- | Hin] Hd; [congruence | auto].
Qed.

(** Extra X16.  identify_why_aspect returns the empty list when no
    token with dependency advcl, xcomp or ccomp gives a cleaned subtree
    clause of two or more words; otherwise it returns exactly the cleaned
    clause of the first such token in document order. *)
Theorem identify_why_aspect_first txt :
  let doc := nlp txt in
  (identify_why_aspect nlp txt = [] /\
   forall token, In token doc -> mem (dep_ (node_of token)) why_dependencies = true ->
     length (py_split (_clean_up_text (join_sp (map text (subtree token))))) < 2) \/
  exists pre token post, doc = pre ++ token :: post /\
    (forall t, In t pre -> mem (dep_ (node_of t)) why_dependencies = true ->
       length (py_split (_clean_up_text (join_sp (map text (subtree t))))) < 2) /\
    mem (dep_ (node_of token)) why_dependencies = true /\
    2 <= length (py_split (_clean_up_text (join_sp (map text (subtree token))))) /\
    identify_why_aspect nlp txt =
      [_clean_up_text (join_sp (map text (subtree token)))].
Proof.
  cbv zeta. unfold identify_why_aspect.
  destruct (why_candidates_first (nlp txt)) as [[H1 H2] | (pre & token & post & E & H1 & H2 & H3 & H4)].
  - left. rewrite H1. split; [reflexivity | exact H2].
  - right. exists pre, token, post. rewrite H4. auto.
Qed.

(** Extra X17.  _check_if_phrase_is_software_related holds exactly
    when the threshold is at most 0 (the initial [max_sim]) or some
    keyword's similarity to the phrase reaches the threshold. *)
Theorem check_software_related_iff phrase min_similarity :
  _check_if_phrase_is_software_related similarity software_functionality_dict phrase min_similarity = true <->
  Qle min_similarity 0 \/
  exists kd, In kd software_functionality_dict /\ Qle min_similarity (similarity phrase kd).
Proof.
  unfold _check_if_phrase_is_software_related.
  change (fold_left _ software_functionality_dict 0%Q)
    with (fold_left (ExtractorMoreFacts.max_step (similarity phrase)) software_functionality_dict 0%Q).
  destruct (ExtractorMoreFacts.max_sim_fold (similarity phrase) software_functionality_dict 0%Q)
    as [H1 [H2 H3]].
  rewrite ExtractorMoreFacts.Qle_bool_true. split.
  - intros H. destruct H3 as [E | [kd [Hkd E]]]; rewrite E in H; [left; exact H | right; eauto].
  - intros [H | [kd [Hkd H]]].
    + eapply Qle_trans; [exact H | exact H1].
    + eapply Qle_trans; [exact H | apply H2, Hkd].
Qed.

(** The list [final_list] of identify_what_aspect, before its sort. *)
Definition what_final_list (txt : pystr) (min_similarity : Q) : list what_item :=
  let doc := nlp txt in
  let action := _find_main_verb_phrase doc in
  let all_candidates :=
    match action with
    | Some a => match a with [] => [] | _ => [(a, s "general")] end
    | None => []
    end ++ map (fun pattern => (pattern, s "pattern")) (_find_verb_noun_patterns doc) in
  map (fun '(t, p) =>
         let is_relevant := _check_if_phrase_is_software_related similarity software_functionality_dict t min_similarity in
         {| w_text := t; w_priority := p;
            w_kind := if is_relevant then s "software-related" else s "general" |})
      all_candidates.

Lemma identify_what_aspect_unfold txt min_similarity :
  identify_what_aspect nlp similarity software_functionality_dict txt min_similarity =
  dedupe_lower w_text [] (sort_items (what_final_list txt min_similarity)).
Proof. reflexivity. Qed.

Definition kind_of (t : pystr) (min_similarity : Q) : pystr :=
  if _check_if_phrase_is_software_related similarity software_functionality_dict t min_similarity
  then s "software-related" else s "general".

Lemma what_final_list_In txt min_similarity it :
  In it (what_final_list txt min_similarity) ->
  w_kind it = kind_of (w_text it) min_similarity /\
  ((w_priority it = s "pattern" /\ In (w_text it) (_find_verb_noun_patterns (nlp txt))) \/
   (w_priority it = s "general" /\ _find_main_verb_phrase (nlp txt) = Some (w_text it) /\
    w_text it <> [])).
Proof.
  unfold what_final_list. cbv zeta. rewrite in_map_iff.
  intros [[t p] [<- Hin]]. simpl. split; [reflexivity|].
  apply in_app_iff in Hin as [Hin | Hin].
  - right. destruct (_find_main_verb_phrase (nlp txt)) as [a|]; [|destruct Hin].
    destruct a as [|c a']; [destruct Hin|].
    destruct Hin as [[= <- <-] | []]. split; [reflexivity|]. split; [reflexivity | discriminate].
  - left. apply in_map_iff in Hin as [q [[= <- <-] Hq]]. split; [reflexivity | exact Hq].
Qed.

Lemma what_final_list_pattern txt min_similarity p :
  In p (_find_verb_noun_patterns (nlp txt)) ->
  In {| w_text := p; w_priority := s "pattern"; w_kind := kind_of p min_similarity |}
     (what_final_list txt min_similarity).
Proof.
  intros Hp. unfold what_final_list. cbv zeta.
  apply in_map_iff. exists (p, s "pattern"). split; [reflexivity|].
  apply in_app_iff. right. apply in_map_iff. exists p. split; [reflexivity | exact Hp].
Qed.

Lemma what_final_list_action txt min_similarity a :
  _find_main_verb_phrase (nlp txt) = Some a -> a <> [] ->
  In {| w_text := a; w_priority := s "general"; w_kind := kind_of a min_similarity |}
     (what_final_list txt min_similarity).
Proof.
  intros Ha Hne. unfold what_final_list. cbv zeta. rewrite Ha.
  apply in_map_iff. exists (a, s "general"). split; [reflexivity|].
  apply in_app_iff. left. destruct a as [|c a']; [congruence | left; reflexivity].
Qed.

Lemma rank_pattern : priority_rank (s "pattern") = 0.
Proof. reflexivity. Qed.

Lemma rank_general : priority_rank (s "general") = 1.
Proof. reflexivity. Qed.

Lemma general_no_pattern txt min_similarity it :
  In it (identify_what_aspect nlp similarity software_functionality_dict txt min_similarity) ->
  w_priority it = s "general" ->
  forall p, In p (_find_verb_noun_patterns (nlp txt)) -> lower p <> lower (w_text it).
Proof.
  rewrite identify_what_aspect_unfold. intros Hin Hg p Hp.
  set (L := sort_items (what_final_list txt min_similarity)) in *.
  destruct (dedupe_lower_first w_text [] L it Hin) as [pre [post [HL Hpre]]].
  pose proof (what_final_list_pattern txt min_similarity p Hp) as Hitp.
  set (itp := {| w_text := p; w_priority := s "pattern"; w_kind := kind_of p min_similarity |}) in *.
  apply (proj2 (sort_items_In _ itp)) in Hitp. fold L in Hitp.
  rewrite HL in Hitp. apply in_app_iff in Hitp as [Hitp | [Heq | Hitp]].
  - exact (Hpre itp Hitp).
  - exfalso. assert (E : w_priority itp = w_priority it) by (rewrite Heq; reflexivity).
    rewrite Hg in E. vm_compute in E. discriminate.
  - exfalso. pose proof (sort_items_sorted (what_final_list txt min_similarity)) as Hs.
    fold L in Hs. rewrite HL in Hs.
    pose proof (SS_app_cons item_le pre it post Hs itp Hitp) as Hle.
    unfold item_le in Hle. rewrite Hg, rank_general in Hle.
    change (w_priority itp) with (s "pattern") in Hle. rewrite rank_pattern in Hle. lia.
Qed.

(** Extra X18.  identify_what_aspect returns items with pairwise
    distinct lowercased texts, ordered by priority ("pattern" before
    "general") and then by decreasing text length; each item's kind is
    the software-relevance test of its text; a "pattern" item is a
    verb-noun pattern of the parse and a "general" item is the non-empty
    main verb phrase, kept only when no pattern has the same lowercased
    text; every pattern is represented by a "pattern" item and the main
    verb phrase, when non-empty, by some item with the same lowercased
    text. *)
Theorem identify_what_aspect_spec txt min_similarity :
  let doc := nlp txt in
  let patterns := _find_verb_noun_patterns doc in
  let r := identify_what_aspect nlp similarity software_functionality_dict txt min_similarity in
  NoDup (map (fun it => lower (w_text it)) r) /\
  Sorted item_le r /\
  (forall it, In it r ->
     w_kind it = (if _check_if_phrase_is_software_related similarity software_functionality_dict
                       (w_text it) min_similarity
                  then s "software-related" else s "general") /\
     ((w_priority it = s "pattern" /\ In (w_text it) patterns) \/
      (w_priority it = s "general" /\ _find_main_verb_phrase doc = Some (w_text it) /\
       w_text it <> [] /\ forall p, In p patterns -> lower p <> lower (w_text it)))) /\
  (forall p, In p patterns ->
     exists it, In it r /\ w_priority it = s "pattern" /\ lower (w_text it) = lower p) /\
  (forall a, _find_main_verb_phrase doc = Some a -> a <> [] ->
     exists it, In it r /\ lower (w_text it) = lower a).
Proof.
  cbv zeta.
  assert (Hitem : forall it,
    In it (identify_what_aspect nlp similarity software_functionality_dict txt min_similarity) ->
    w_kind it = kind_of (w_text it) min_similarity /\
    ((w_priority it = s "pattern" /\ In (w_text it) (_find_verb_noun_patterns (nlp txt))) \/
     (w_priority it = s "general" /\ _find_main_verb_phrase (nlp txt) = Some (w_text it) /\
      w_text it <> [] /\
      forall p, In p (_find_verb_noun_patterns (nlp txt)) -> lower p <> lower (w_text it)))).
  { intros it Hin. pose proof Hin as Hin'.
    rewrite identify_what_aspect_unfold in Hin'.
    apply dedupe_lower_In, sort_items_In, what_final_list_In in Hin' as [Hk [Hp | (Hg & Ha & Hne)]].
    - split; [exact Hk | left; exact Hp].
    - split; [exact Hk|]. right. split; [exact Hg|]. split; [exact Ha|]. split; [exact Hne|].
      exact (general_no_pattern txt min_similarity it Hin Hg). }
  rewrite identify_what_aspect_unfold in Hitem |- *.
  set (L := sort_items (what_final_list txt min_similarity)) in *.
  destruct (dedupe_lower_unique w_text [] L) as [Hnd [_ Hcomp]].
  split; [exact Hnd|]. split.
  { apply StronglySorted_Sorted, dedupe_lower_sorted, sort_items_sorted. }
  split; [exact Hitem|]. split.
  - intros p Hp.
    pose proof (what_final_list_pattern txt min_similarity p Hp) as Hitp.
    apply (proj2 (sort_items_In _ _)) in Hitp. fold L in Hitp.
    destruct (Hcomp _ Hitp) as [[] | [y [Hy Hk]]].
    exists y. split; [exact Hy|]. split; [|exact Hk].
    destruct (Hitem y Hy) as [_ [[Hpat _] | (_ & _ & _ & Hno)]]; [exact Hpat|].
    exfalso. exact (Hno p Hp (eq_sym Hk)).
  - intros a Ha Hne.
    pose proof (what_final_list_action txt min_similarity a Ha Hne) as Hita.
    apply (proj2 (sort_items_In _ _)) in Hita. fold L in Hita.
    destruct (Hcomp _ Hita) as [[] | [y [Hy Hk]]].
    exists y. split; [exact Hy | exact Hk].
Qed.

End Parse.

End AspectMoreFacts.

(* ------------------------------------------------------------------ *)
(** ** user_story_extractor.py: the regular expressions of the WHY and WHO helpers *)
Module RegexFacts.
Import PyText PyTextFacts Regex.

(** The matcher state at position [j] of [x], before any group. *)
Definition st_at (x : pystr) (j : nat) : mstate :=
  {| prev := match j with 0 => None | S j' => nth_error x j' end;
     rest := skipn j x; pos := j; grp := None |}.

Lemma skipn_cons_nth {A} (x : list A) j c t :
  skipn j x = c :: t -> nth_error x j = Some c /\ skipn (S j) x = t.
Proof.
  revert x. induction j as [|j IH]; intros [|d x] H; simpl in *; try discriminate.
  - injection H as -> ->. auto.
  - apply IH, H.
Qed.

Lemma search_from_spec r x : forall n i,
  length x - i = n -> i <= length x ->
  (search_from r (prev (st_at x i)) (skipn i x) i = None /\
   forall j, i <= j <= length x -> mtch r Some (st_at x j) = None) \/
  (exists j m, i <= j <= length x /\
     (forall j', i <= j' < j -> mtch r Some (st_at x j') = None) /\
     mtch r Some (st_at x j) = Some m /\
     search_from r (prev (st_at x i)) (skipn i x) i = Some m).
Proof.
  induction n as [|n IH]; intros i En Hi.
  - assert (Ei : i = length x) by lia. subst i.
    assert (Es : skipn (length x) x = []) by apply skipn_all.
    rewrite Es. cbn [search_from].
    replace {| prev := prev (st_at x (length x)); rest := []; pos := length x; grp := None |}
      with (st_at x (length x)) by (unfold st_at; rewrite Es; reflexivity).
    destruct (mtch r Some (st_at x (length x))) as [m|] eqn:E.
    + right. exists (length x), m. split; [lia|]. split; [intros; lia|]. auto.
    + left. split; [reflexivity|]. intros j Hj. assert (j = length x) as -> by lia. exact E.
  - destruct (skipn i x) as [|c t] eqn:Es.
    { exfalso. assert (length (skipn i x) = 0) by (rewrite Es; reflexivity).
      rewrite length_skipn in H. lia. }
    destruct (skipn_cons_nth x i c t Es) as [Hc Ht].
    cbn [search_from].
    replace {| prev := prev (st_at x i); rest := c :: t; pos := i; grp := None |}
      with (st_at x i) by (unfold st_at; rewrite Es; reflexivity).
    destruct (mtch r Some (st_at x i)) as [m|] eqn:E.
    + right. exists i, m. split; [lia|]. split; [intros; lia|]. auto.
    + assert (Hl : length (skipn i x) = S (length t)) by (rewrite Es; reflexivity).
      rewrite length_skipn in Hl.
      assert (Hp : prev (st_at x (S i)) = Some c) by exact Hc.
      destruct (IH (S i) ltac:(lia) ltac:(lia)) as [[H1 H2] | (j & m & Hj & H1 & H2 & H3)];
        rewrite Hp, Ht in *.
      * left. split; [exact H1|]. intros j Hj.
        destruct (Nat.eq_dec j i) as [->|Hne]; [exact E | apply H2; lia].
      * right. exists j, m. split; [lia|]. split; [|auto].
        intros j' Hj'. destruct (Nat.eq_dec j' i) as [->|Hne]; [exact E | apply H1; lia].
Qed.

Lemma search_spec r x :
  (search r x = None /\ forall j, j <= length x -> mtch r Some (st_at x j) = None) \/
  (exists j m, j <= length x /\
     (forall j', j' < j -> mtch r Some (st_at x j') = None) /\
     mtch r Some (st_at x j) = Some m /\ search r x = Some m).
Proof.
  destruct (search_from_spec r x (length x - 0) 0 eq_refl ltac:(lia))
    as [[H1 H2] | (j & m & Hj & H1 & H2 & H3)].
  - left. split; [exact H1|]. intros j Hj. apply H2. lia.
  - right. exists j, m. split; [lia|]. split; [intros j' Hj'; apply H1; lia|]. auto.
Qed.

(** The state after consuming [n] more characters. *)
Fixpoint adv (n : nat) (st : mstate) : mstate :=
  match n with
  | 0 => st
  | S n' =>
      match rest st with
      | c :: t => adv n' {| prev := Some c; rest := t; pos := S (pos st); grp := grp st |}
      | [] => st
      end
  end.

(** The length of the longest prefix of [l] whose characters satisfy [p]. *)
Fixpoint run_len (p : ascii -> bool) (l : pystr) : nat :=
  match l with
  | c :: t => if p c then S (run_len p t) else 0
  | [] => 0
  end.

Fixpoint take_while (p : ascii -> bool) (l : pystr) : pystr :=
  match l with
  | c :: t => if p c then c :: take_while p t else []
  | [] => []
  end.

Lemma rest_adv n st : rest (adv n st) = skipn n (rest st).
Proof.
  revert st. induction n as [|n IH]; intros st; simpl; [reflexivity|].
  destruct (rest st) as [|c t] eqn:E; simpl; [rewrite E; reflexivity|].
  rewrite IH. reflexivity.
Qed.

Lemma pos_grp_adv n st :
  n <= length (rest st) -> pos (adv n st) = pos st + n /\ grp (adv n st) = grp st.
Proof.
  revert st. induction n as [|n IH]; intros st Hn; simpl; [split; [lia | reflexivity]|].
  destruct (rest st) as [|c t] eqn:E; simpl in Hn; [lia|].
  assert (Hn' : n <= length t) by lia.
  destruct (IH {| prev := Some c; rest := t; pos := S (pos st); grp := grp st |} Hn') as [H1 H2].
  rewrite H1, H2. cbn [pos grp]. split; [lia | reflexivity].
Qed.

Lemma run_len_le p l : run_len p l <= length l.
Proof. induction l as [|c t IH]; simpl; [lia|]. destruct (p c); simpl; lia. Qed.

Lemma firstn_run_len p l : firstn (run_len p l) l = take_while p l.
Proof.
  induction l as [|c t IH]; simpl; [reflexivity|]. destruct (p c); simpl; [rewrite IH|]; reflexivity.
Qed.

(** A greedy repetition of a one-character class stops at the end of the
    longest run, when the continuation succeeds there. *)
Lemma star_char_max p k x : forall l st,
  rest st = l -> k (adv (run_len p l) st) = Some x ->
  star (S (length l)) (mtch (RChar p)) k st = Some x.
Proof.
  induction l as [|c t IH]; intros st Hr Hk.
  - simpl. rewrite Hr. simpl in Hk. exact Hk.
  - cbn [star mtch]. rewrite Hr. cbn [run_len] in Hk.
    destruct (p c) eqn:Ep.
    + cbn [adv] in Hk. rewrite Hr in Hk. cbn [rest length].
      replace (length t <? S (length t)) with true by (symmetry; apply Nat.ltb_lt; lia).
      pose proof (IH {| prev := Some c; rest := t; pos := S (pos st); grp := grp st |} eq_refl Hk) as H.
      cbn [mtch] in H. rewrite H. reflexivity.
    + cbn [adv] in Hk. exact Hk.
Qed.

Definition total (k : mstate -> option mstate) : Prop := forall st, k st <> None.

Lemma star_total n f k : total k -> total (star n f k).
Proof.
  intros Hk st. destruct n as [|n]; simpl; [apply Hk|].
  destruct (f _ st); [discriminate | apply Hk].
Qed.

Lemma mtch_star_total r k : total k -> total (mtch (RStar r) k).
Proof. intros Hk st. cbn [mtch]. apply (star_total _ _ _ Hk). Qed.

Lemma mtch_upto_total n r k : total k -> total (mtch (RUpTo n r) k).
Proof.
  intros Hk st. destruct n as [|n]; simpl; [apply Hk|].
  destruct (mtch r _ st); [discriminate | apply Hk].
Qed.

Lemma word_not_space c : is_word c = true -> is_space c = false.
Proof. destruct c as [[] [] [] [] [] [] [] []]; vm_compute; congruence. Qed.

Lemma ci_word l c : is_word l = true -> ci l c = true -> is_word c = true.
Proof.
  unfold ci. intros Hl Hc. apply Ascii.eqb_eq in Hc. subst l.
  destruct c as [[] [] [] [] [] [] [] []]; vm_compute in Hl |- *; congruence.
Qed.

Lemma run_len_space_word ws c post :
  forallb is_space ws = true -> is_word c = true ->
  run_len is_space (ws ++ c :: post) = length ws.
Proof.
  intros Hws Hc. induction ws as [|d t IH]; simpl in *.
  - rewrite (word_not_space c Hc). reflexivity.
  - apply andb_true_iff in Hws as [Hd Ht]. rewrite Hd, IH; auto.
Qed.

Lemma run_len_word_take l : run_len is_word l = length (take_while is_word l).
Proof. induction l as [|c t IH]; simpl; [reflexivity|]. destruct (is_word c); simpl; auto. Qed.

(** The test of [(?<!\w)@(\w+)] at position [j] of [x]: an [@] there,
    no word character just before it, a word character just after. *)
Definition mention_at (x : pystr) (j : nat) : bool :=
  match nth_error x j, nth_error x (S j) with
  | Some a, Some d =>
      Ascii.eqb "@"%char a && is_word d &&
      negb (match j with 0 => false | S j' => match nth_error x j' with Some b => is_word b | None => false end end)
  | _, _ => false
  end.

Lemma skipn_nth_cons {A} (x : list A) j :
  match nth_error x j with Some c => skipn j x = c :: skipn (S j) x | None => skipn j x = [] end.
Proof.
  revert x. induction j as [|j IH]; intros [|c x]; simpl; auto. apply IH.
Qed.

Lemma mention_mtch x j :
  (mention_at x j = false /\ mtch mention_re Some (st_at x j) = None) \/
  (mention_at x j = true /\ exists m, mtch mention_re Some (st_at x j) = Some m /\
     group_text x m = take_while is_word (skipn (S j) x)).
Proof.
  unfold mention_at.
  pose proof (skipn_nth_cons x j) as Hj. pose proof (skipn_nth_cons x (S j)) as HSj.
  destruct (nth_error x j) as [a|] eqn:Ea.
  2: { left. split; [reflexivity|]. unfold mention_re. cbn [mtch].
       destruct (match prev (st_at x j) with Some c => is_word c | None => false end); [reflexivity|].
       cbn [mtch]. change (rest (st_at x j)) with (skipn j x). rewrite Hj. reflexivity. }
  destruct (nth_error x (S j)) as [d|] eqn:Ed.
  2: { left. split; [reflexivity|]. unfold mention_re. cbn [mtch].
       destruct (match prev (st_at x j) with Some c => is_word c | None => false end); [reflexivity|].
       cbn [mtch]. change (rest (st_at x j)) with (skipn j x). rewrite Hj.
       destruct (Ascii.eqb "@"%char a); [|reflexivity].
       cbn [rest]. rewrite HSj. reflexivity. }
  set (bw := match j with 0 => false | S j' => match nth_error x j' with Some b => is_word b | None => false end end).
  assert (Hprev : match prev (st_at x j) with Some c => is_word c | None => false end = bw)
    by (unfold bw, st_at; destruct j; reflexivity).
  unfold mention_re. cbn [mtch]. rewrite Hprev.
  destruct bw; [rewrite andb_false_r; left; split; reflexivity|].
  cbn [mtch]. change (rest (st_at x j)) with (skipn j x). rewrite Hj.
  destruct (Ascii.eqb "@"%char a); [|left; split; reflexivity].
  unfold RPlus, is_w. cbn [mtch rest]. rewrite ?HSj. cbn [rest].
  destruct (is_word d) eqn:Edw; [|left; split; reflexivity].
  right. split; [reflexivity|].
  set (st2 := {| prev := Some d; rest := skipn (S (S j)) x; pos := S (S j); grp := None |}).
  set (k := fun st' : mstate => Some {| prev := prev st'; rest := rest st'; pos := pos st';
                                        grp := Some (S j, pos st') |}).
  set (st3 := adv (run_len is_word (skipn (S (S j)) x)) st2).
  exists {| prev := prev st3; rest := rest st3; pos := pos st3; grp := Some (S j, pos st3) |}.
  split.
  - cbn [mtch]. apply (star_char_max is_word k _ (skipn (S (S j)) x) st2 eq_refl). reflexivity.
  - unfold group_text. cbn [grp].
    destruct (pos_grp_adv (run_len is_word (skipn (S (S j)) x)) st2) as [Hp _];
      [apply run_len_le|]. fold st3 in Hp. rewrite Hp. cbn [pos]. change (pos st2) with (S (S j)).
    replace (S (S j) + run_len is_word (skipn (S (S j)) x) - S j)
      with (S (run_len is_word (skipn (S (S j)) x))) by lia.
    rewrite HSj. simpl. rewrite Edw, firstn_run_len. reflexivity.
Qed.

(** Extra X21.  _who_from_tweet_sentence returns ["user"] when [raw_text]
    has no [@] that is not preceded by a word character and is followed
    by one; otherwise it returns [@] and the whole run of word characters
    after the first such [@].  The sentence span is never consulted: the
    test on its tokens returns ["user"] in both branches. *)
Theorem who_from_tweet_mention sent raw_text :
  (_who_from_tweet_sentence sent raw_text = s "user" /\ forall j, mention_at raw_text j = false) \/
  (exists j, mention_at raw_text j = true /\ (forall j', j' < j -> mention_at raw_text j' = false) /\
     take_while is_word (skipn (S j) raw_text) <> [] /\
     _who_from_tweet_sentence sent raw_text = "@"%char :: take_while is_word (skipn (S j) raw_text)).
Proof.
  unfold _who_from_tweet_sentence.
  destruct (search_spec mention_re raw_text) as [[H1 H2] | (j & m & Hj & H1 & H2 & H3)].
  - left. rewrite H1. split; [destruct existsb; reflexivity|].
    intros j. destruct (Nat.le_gt_cases j (length raw_text)) as [Hle | Hgt].
    + destruct (mention_mtch raw_text j) as [[Hm _] | [_ [m [Hm _]]]]; [exact Hm|].
      rewrite (H2 j Hle) in Hm. discriminate.
    + unfold mention_at. rewrite (proj2 (nth_error_None raw_text j)) by lia. reflexivity.
  - right. exists j. rewrite H3.
    destruct (mention_mtch raw_text j) as [[_ Hm] | [Hat [m' [Hm Hg]]]]; [congruence|].
    rewrite H2 in Hm. injection Hm as <-.
    split; [exact Hat|]. split.
    + intros j' Hj'. destruct (mention_mtch raw_text j') as [[Ha _] | [_ [m'' [Hm _]]]]; [exact Ha|].
      rewrite (H1 j' Hj') in Hm. discriminate.
    + split; [|rewrite Hg; reflexivity].
      unfold mention_at in Hat. pose proof (skipn_nth_cons raw_text (S j)) as HSj.
      destruct (nth_error raw_text j); [|discriminate].
      destruct (nth_error raw_text (S j)) as [d|]; [|discriminate].
      rewrite HSj. simpl. apply andb_true_iff in Hat as [Hat _]. apply andb_true_iff in Hat as [_ Hd].
      rewrite Hd. discriminate.
Qed.

Lemma star_char_max_ne p k : forall l st,
  rest st = l -> k (adv (run_len p l) st) <> None ->
  star (S (length l)) (mtch (RChar p)) k st <> None.
Proof.
  intros l st Hr Hk. destruct (k (adv (run_len p l) st)) as [y|] eqn:E; [|contradiction].
  rewrite (star_char_max p k y l st Hr E). discriminate.
Qed.

(** After a word character, the group of [_TO_VERB_RE] always matches. *)
Lemma to_verb_group_mtch st c post :
  rest st = c :: post -> is_word c = true ->
  mtch (RGroup (RRange1 8 (RSeq (RPlus is_w) (RStar is_s)))) Some st <> None.
Proof.
  intros Hr Hc. unfold RRange1, RPlus, is_w, is_s. cbn [mtch]. rewrite Hr, Hc.
  apply star_total. intros st'. apply star_total. intros st''.
  apply mtch_upto_total. intros st3. discriminate.
Qed.

Lemma to_verb_mtch st t o ws c post :
  rest st = t :: o :: ws ++ c :: post -> word_before st = false ->
  ci "t"%char t = true -> ci "o"%char o = true ->
  ws <> [] -> forallb is_space ws = true -> is_word c = true ->
  mtch _TO_VERB_RE Some st <> None.
Proof.
  intros Hr Hwb Ht Ho Hws Hsp Hc.
  unfold _TO_VERB_RE.
  change (RLit (s "to")) with (RSeq (RChar (ci "t"%char)) (RSeq (RChar (ci "o"%char)) REps)).
  cbn [mtch]. unfold word_after. rewrite Hwb, Hr.
  rewrite (ci_word "t"%char t eq_refl Ht). cbn [xorb]. rewrite Ht. cbn [rest]. rewrite Ho.
  destruct ws as [|w ws']; [contradiction|].
  cbn [forallb] in Hsp. apply andb_true_iff in Hsp as [Hw Hws'].
  unfold RPlus, is_s. cbn [mtch rest app]. rewrite Hw.
  match goal with |- star _ _ ?k ?st3 <> None =>
    apply (star_char_max_ne is_space k (ws' ++ c :: post) st3 eq_refl) end.
  rewrite (run_len_space_word ws' c post Hws' Hc).
  apply (to_verb_group_mtch _ c post); [|exact Hc].
  rewrite rest_adv. cbn [rest]. rewrite skipn_app, skipn_all, Nat.sub_diag. reflexivity.
Qed.

(** The result of [_extract_why], when there is one, is built from the
    group of some match in the stripped sentence. *)
Lemma extract_why_some sentence_text w :
  _extract_why sentence_text = Some w ->
  exists m, w = firstn 200 (rstrip is_why_punct (strip is_space (group_text (strip is_space sentence_text) m))).
Proof.
  unfold _extract_why. cbv beta iota zeta.
  destruct (search _SO_THAT_RE _) as [m|]; [intros [= <-]; exists m; reflexivity|].
  destruct (search _SO_I_CAN_RE _) as [m|]; [intros [= <-]; exists m; reflexivity|].
  destruct (search _BECAUSE_RE _) as [m|]; [intros [= <-]; exists m; reflexivity|].
  destruct (search _TO_VERB_RE _) as [m|]; [intros [= <-]; exists m; reflexivity|].
  discriminate.
Qed.

Lemma group_text_infix x m : exists pre post, x = pre ++ group_text x m ++ post.
Proof.
  unfold group_text. destruct (grp m) as [[b e]|].
  - exists (firstn b x), (skipn (e - b) (skipn b x)).
    rewrite firstn_skipn, firstn_skipn. reflexivity.
  - exists x, []. rewrite app_nil_r. reflexivity.
Qed.

Lemma rstrip_prefix p y : exists post, y = rstrip p y ++ post.
Proof.
  destruct (lstrip_suffix p (rev y)) as [pre Hpre]. exists (rev pre).
  unfold rstrip. rewrite <- rev_app_distr, <- Hpre, rev_involutive. reflexivity.
Qed.

Lemma head_prefix (y z : pystr) c : head y = Some c -> head (y ++ z) = Some c.
Proof. destruct y; simpl; congruence. Qed.

(** Extra X19.  When [_extract_why] returns a text, that text has at
    most 200 characters, is a contiguous slice of the sentence it was
    given, and does not start with whitespace. *)
Theorem extract_why_slice sentence_text :
  match _extract_why sentence_text with
  | None => True
  | Some w =>
      length w <= 200 /\ (exists pre post, sentence_text = pre ++ w ++ post) /\
      (forall c, head w = Some c -> is_space c = false)
  end.
Proof.
  destruct (_extract_why sentence_text) as [w|] eqn:E; [|exact I].
  destruct (extract_why_some _ _ E) as [m ->].
  set (s0 := strip is_space sentence_text).
  set (g := group_text s0 m).
  set (y := rstrip is_why_punct (strip is_space g)).
  destruct (rstrip_prefix is_why_punct (strip is_space g)) as [post1 H1]. fold y in H1.
  split; [apply firstn_le_length|]. split.
  - destruct (AspectMoreFacts.strip_infix is_space sentence_text) as (a & b & Ha). fold s0 in Ha.
    destruct (group_text_infix s0 m) as (a' & b' & Ha'). fold g in Ha'.
    destruct (AspectMoreFacts.strip_infix is_space g) as (a'' & b'' & Ha'').
    exists (a ++ a' ++ a''), (skipn 200 y ++ post1 ++ b'' ++ b' ++ b).
    rewrite Ha, Ha', Ha'' at 1. rewrite H1 at 1.
    rewrite <- (firstn_skipn 200 y) at 1. rewrite <- !app_assoc. reflexivity.
  - intros c Hc. destruct (strip_ends is_space g) as [Hh _]. apply Hh.
    rewrite H1. apply head_prefix.
    rewrite <- (firstn_skipn 200 y). apply head_prefix. exact Hc.
Qed.

Lemma last_prefix_prev (pre z : pystr) :
  (forall b, head (rev pre) = Some b -> is_word b = false) ->
  word_before (st_at (pre ++ z) (length pre)) = false.
Proof.
  intros H. unfold word_before, st_at. cbn [prev].
  destruct pre as [|a pre'] using rev_ind; [reflexivity|].
  rewrite length_app. cbn [length]. rewrite Nat.add_1_r.
  rewrite <- app_assoc. rewrite nth_error_app2 by lia. rewrite Nat.sub_diag. cbn.
  apply H. rewrite rev_app_distr. reflexivity.
Qed.

(** Extra X20.  [_extract_why] finds a reason in every sentence whose
    stripped text contains [to] (in either case), not preceded by a word
    character, followed by one or more whitespace characters and a word
    character: the last pattern, [_TO_VERB_RE], matches there. *)
Theorem extract_why_to_phrase sentence_text pre t o ws c post :
  strip is_space sentence_text = pre ++ t :: o :: ws ++ c :: post ->
  (forall b, head (rev pre) = Some b -> is_word b = false) ->
  ci "t"%char t = true -> ci "o"%char o = true ->
  ws <> [] -> forallb is_space ws = true -> is_word c = true ->
  _extract_why sentence_text <> None.
Proof.
  intros Hs Hpre Ht Ho Hws Hsp Hc.
  assert (Hto : mtch _TO_VERB_RE Some (st_at (strip is_space sentence_text) (length pre)) <> None).
  { apply (to_verb_mtch _ t o ws c post); auto.
    - unfold st_at. cbn [rest]. rewrite Hs, skipn_app, skipn_all, Nat.sub_diag. reflexivity.
    - rewrite Hs. apply last_prefix_prev, Hpre. }
  assert (Hsearch : search _TO_VERB_RE (strip is_space sentence_text) <> None).
  { destruct (search_spec _TO_VERB_RE (strip is_space sentence_text)) as [[H1 H2] | (j & m & _ & _ & _ & H3)].
    - exfalso. apply Hto, H2. rewrite Hs, length_app. lia.
    - rewrite H3. discriminate. }
  unfold _extract_why. cbv beta iota zeta.
  destruct (search _SO_THAT_RE _); [discriminate|].
  destruct (search _SO_I_CAN_RE _); [discriminate|].
  destruct (search _BECAUSE_RE _); [discriminate|].
  destruct (search _TO_VERB_RE _); [discriminate | contradiction].
Qed.

Lemma extract_why_to_phrase_witness :
  strip is_space (s " I want to export data ") =
    s "I want " ++ "t"%char :: "o"%char :: [" "%char] ++ "e"%char :: s "xport data" /\
  _extract_why (s " I want to export data ") <> None.
Proof.
  split; [vm_compute; reflexivity|].
  apply (extract_why_to_phrase (s " I want to export data ") (s "I want ") "t"%char "o"%char
           [" "%char] "e"%char (s "xport data")).
  - vm_compute. reflexivity.
  - intros b Hb. vm_compute in Hb. injection Hb as <-. vm_compute. reflexivity.
  - vm_compute. reflexivity.
  - vm_compute. reflexivity.
  - discriminate.
  - vm_compute. reflexivity.
  - vm_compute. reflexivity.
Defined.

End RegexFacts.
